(** * Speech diagnostic tool: the comparison and rule-matching engine

    A shallow embedding of the engine functions of [streamlit_app.py]
    ([compare_ipa_transcriptions], [identify_patterns],
    [calculate_confidence_level], [load_sensitivity_config] and the embedded
    fallback of [load_speech_rules]) together with the part of Python's
    [difflib.SequenceMatcher] they call, and the properties of the
    specification stated and settled over that embedding. *)

From Stdlib Require Import ZArith QArith Qreduction Ascii String List Lia.
From stdpp Require Import base option list gmap strings sorting.

Local Open Scope string_scope.
Local Open Scope list_scope.
Local Open Scope nat_scope.

(** ** Python values *)

Module Py.

(** A Python [str] is a sequence of Unicode code points.  The sequence
    matcher compares code points, not bytes, so the embedding keeps that
    granularity; literals are written in UTF-8 and decoded. *)
Abbreviation char := N (only parsing).
Abbreviation str := (list N) (only parsing).

Definition byte_val (c : ascii) : N := N_of_ascii c.
Definition cont (c : ascii) : N := N.land (byte_val c) 63.

Fixpoint utf8_decode (s : string) : str :=
  match s with
  | EmptyString => []
  | String c0 r0 =>
    let b0 := byte_val c0 in
    if (b0 <? 128)%N then b0 :: utf8_decode r0
    else match r0 with
    | EmptyString => []
    | String c1 r1 =>
      if (b0 <? 224)%N then
        N.lor (N.shiftl (N.land b0 31) 6) (cont c1) :: utf8_decode r1
      else match r1 with
      | EmptyString => []
      | String c2 r2 =>
        if (b0 <? 240)%N then
          N.lor (N.shiftl (N.land b0 15) 12)
            (N.lor (N.shiftl (cont c1) 6) (cont c2)) :: utf8_decode r2
        else match r2 with
        | EmptyString => []
        | String c3 r3 =>
          N.lor (N.shiftl (N.land b0 7) 18)
            (N.lor (N.shiftl (cont c1) 12)
               (N.lor (N.shiftl (cont c2) 6) (cont c3))) :: utf8_decode r3
        end
      end
    end
  end.

(** [py "..."] is the Python string literal with that text. *)
Definition py (s : string) : str := utf8_decode s.

(** [s.strip(chars)]: leading and trailing characters that occur in
    [chars] are removed. *)
Fixpoint lstrip (chars : str) (s : str) : str :=
  match s with
  | x :: r => if bool_decide (x ∈ chars) then lstrip chars r else s
  | [] => []
  end.

Definition rstrip (chars : str) (s : str) : str :=
  rev (lstrip chars (rev s)).

Definition strip (chars : str) (s : str) : str :=
  rstrip chars (lstrip chars s).

(** [x in [s1, ..., sn]] on strings. *)
Definition isin (x : str) (l : list str) : bool := bool_decide (x ∈ l).

Definition eqs (x y : str) : bool := bool_decide (x = y).

(** A Python [float] is an IEEE binary64 number; it is represented by the
    rational it denotes.  [round64] is round-to-nearest, ties-to-even, to a
    53-bit significand (normal range, which is all the engine reaches:
    ratios in [0,1] and the threshold literals). *)
Definition round64 (q : Q) : Q :=
  let q := Qred q in
  let n := Z.abs (Qnum q) in
  let d := Z.pos (Qden q) in
  if (n =? 0)%Z then 0%Q else
  let e0 := (Z.log2 n - Z.log2 d)%Z in
  let below :=
    if (0 <=? e0)%Z then (n <? d * 2 ^ e0)%Z else (n * 2 ^ (- e0) <? d)%Z in
  let e := if below then (e0 - 1)%Z else e0 in
  let s := (52 - e)%Z in
  let num := (n * 2 ^ Z.max s 0)%Z in
  let den := (d * 2 ^ Z.max (- s) 0)%Z in
  let m := (num / den)%Z in
  let r := (num mod den)%Z in
  let up :=
    orb (den <? 2 * r)%Z (andb (den =? 2 * r)%Z (Z.odd m)) in
  let m' := if up then (m + 1)%Z else m in
  let v := (inject_Z (Z.sgn (Qnum q) * m' * 2 ^ Z.max (- s) 0)
            / inject_Z (2 ^ Z.max s 0))%Q in
  Qred v.

(** A float literal of the source denotes the binary64 number nearest to
    its decimal text. *)
Definition float_lit (q : Q) : Q := round64 q.

(** [x >= y] on floats. *)
Definition ge (x y : Q) : bool := Qle_bool y x.

(** Failure of a subscript [d[k]] on a dict. *)
Inductive result (A : Type) : Type :=
| Ok (a : A)
| KeyError (k : string).
Arguments Ok {A} a.
Arguments KeyError {A} k.

Definition bind {A B} (m : result A) (f : A → result B) : result B :=
  match m with
  | Ok a => f a
  | KeyError k => KeyError k
  end.

Definition getitem {V} (d : gmap string V) (k : string) : result V :=
  match d !! k with
  | Some v => Ok v
  | None => KeyError k
  end.

End Py.

Import Py.

#[global] Instance result_bind : MBind result :=
  λ A B f m, Py.bind m f.
#[global] Instance result_ret : MRet result := @Py.Ok.

(** ** Confidence scorer *)

Definition load_sensitivity_config : gmap string Q :=
  {[ "high_confidence" := float_lit 0.85;
     "moderate_confidence" := float_lit 0.65;
     "low_confidence" := float_lit 0.45 ]}.

(** The subscripts are evaluated where the source evaluates them: a branch
    that is not reached does not read its key. *)
Definition calculate_confidence_level (similarity_score : Q)
    (config : gmap string Q) : result (str * str) :=
  high ← getitem config "high_confidence";
  if ge similarity_score high then
    Ok (py "High Confidence", py "success")
  else
    moderate ← getitem config "moderate_confidence";
    if ge similarity_score moderate then
      Ok (py "Moderate Confidence", py "warning")
    else
      low ← getitem config "low_confidence";
      if ge similarity_score low then
        Ok (py "Low Confidence", py "error")
      else
        Ok (py "Very Low Confidence", py "error").


(** ** Rule table and classifier *)

(** One row of the rule table (a DataFrame with these six columns). *)
Record RuleEntry : Type := mkRule {
  Condition : str;
  Typical_patterns : str;
  Rule_mapping_example : str;
  Clinical_notes : str;
  Age_of_concern : str;
  Confidence_notes : str
}.

#[global] Instance RuleEntry_eq_dec : EqDecision RuleEntry.
Proof. solve_decision. Defined.

(** The table the loader falls back to when the CSV file is not found. *)
Definition fallback_speech_rules : list RuleEntry :=
  [ mkRule (py "Articulation Disorder")
      (py "Difficulty producing specific speech sounds")
      (py "r→w substitution")
      (py "Motor-based errors")
      (py "Any age")
      (py "High for detection");
    mkRule (py "Phonological Disorder")
      (py "Patterned simplifications of sounds")
      (py "cluster reduction")
      (py "Language-based phonological knowledge difference")
      (py "Typically noticed in childhood")
      (py "High when multiple processes observed") ].

(** [load_speech_rules]: the table read from [speech_rule_mapping.csv], or
    the embedded one when the file is not found ([None]). *)
Definition load_speech_rules (csv : option (list RuleEntry))
    : list RuleEntry :=
  match csv with
  | Some df => df
  | None => fallback_speech_rules
  end.

(** The tags of [SequenceMatcher.get_opcodes]. *)
Inductive Tag : Type := replace | delete | insert | equal.

#[global] Instance Tag_eq_dec : EqDecision Tag.
Proof. solve_decision. Defined.

(** One difference record, as built by [compare_ipa_transcriptions]. *)
Record Diff : Type := mkDiff {
  type : Tag;
  expected : str;
  produced : str;
  position : nat
}.

#[global] Instance Diff_eq_dec : EqDecision Diff.
Proof. solve_decision. Defined.

(** One identified pattern (the dict appended by [identify_patterns]). *)
Record Pattern : Type := mkPattern {
  condition : str;
  pattern : str;
  example : str;
  clinical_notes : str;
  age_concern : str;
  severity : str;
  confidence : str
}.

#[global] Instance Pattern_eq_dec : EqDecision Pattern.
Proof. solve_decision. Defined.

(** [speech_rules[speech_rules['Condition'] == name]]: the rows with that
    condition, in table order. *)
Definition select (speech_rules : list RuleEntry) (name : str)
    : list RuleEntry :=
  filter (λ r, Condition r = name) speech_rules.

(** [if not rule.empty: identified_patterns.append({...})], the fields of
    the entry being those of [rule.iloc[0]]. *)
Definition append_pattern (rule : list RuleEntry)
    (cond pat sev : str) (identified_patterns : list Pattern)
    : list Pattern :=
  match rule with
  | [] => identified_patterns
  | r :: _ =>
    identified_patterns ++
      [ mkPattern cond pat (Rule_mapping_example r) (Clinical_notes r)
          (Age_of_concern r) sev (Confidence_notes r) ]
  end.

(** The six conditions of the [if]/[elif] chain, in source order. *)
Definition is_gliding (e p : str) : bool :=
  (isin e [py "r"; py "ɹ"] && eqs p (py "w"))
  || (eqs e (py "l") && isin p [py "w"; py "j"]).

Definition is_stopping (e p : str) : bool :=
  isin e [py "s"; py "z"; py "f"; py "v"; py "θ"; py "ð"; py "ʃ"; py "ʒ"]
  && isin p [py "t"; py "d"; py "p"; py "b"].

Definition is_fronting (e p : str) : bool :=
  isin e [py "k"; py "g"; py "ŋ"] && isin p [py "t"; py "d"; py "n"].

Definition is_backing (e p : str) : bool :=
  isin e [py "t"; py "d"; py "s"] && isin p [py "k"; py "g"].

Definition is_labialization (e p : str) : bool :=
  isin e [py "s"; py "z"; py "t"; py "d"]
  && isin p [py "f"; py "v"; py "p"; py "b"].

Definition is_voicing (e p : str) : bool :=
  (isin e [py "p"; py "t"; py "k"; py "f"; py "s"; py "θ"; py "ʃ"]
   && isin p [py "b"; py "d"; py "g"; py "v"; py "z"; py "ð"; py "ʒ"])
  || (isin e [py "b"; py "d"; py "g"; py "v"; py "z"; py "ð"; py "ʒ"]
      && isin p [py "p"; py "t"; py "k"; py "f"; py "s"; py "θ"; py "ʃ"]).

(** Body of the first loop of [identify_patterns]: one difference, the
    list built so far in, the list after this difference out. *)
Definition replace_step (speech_rules : list RuleEntry)
    (identified_patterns : list Pattern) (diff : Diff) : list Pattern :=
  if bool_decide (type diff = replace) then
    let e := expected diff in
    let p := produced diff in
    if is_gliding e p then
      append_pattern (select speech_rules (py "Gliding"))
        (py "Gliding") (e ++ py "→" ++ p) (py "Moderate")
        identified_patterns
    else if is_stopping e p then
      append_pattern (select speech_rules (py "Stopping"))
        (py "Stopping") (e ++ py "→" ++ p ++ py " (fricative to stop)")
        (py "Moderate") identified_patterns
    else if is_fronting e p then
      append_pattern (select speech_rules (py "Fronting (Velar Fronting)"))
        (py "Fronting (Velar Fronting)") (e ++ py "→" ++ p) (py "Moderate")
        identified_patterns
    else if is_backing e p then
      append_pattern (select speech_rules (py "Backing"))
        (py "Backing") (e ++ py "→" ++ p) (py "Concerning")
        identified_patterns
    else if is_labialization e p then
      append_pattern (select speech_rules (py "Labialization"))
        (py "Labialization") (e ++ py "→" ++ p) (py "Mild-Moderate")
        identified_patterns
    else if is_voicing e p then
      append_pattern
        (select speech_rules (py "Voicing (Devoicing/Voicing Errors)"))
        (py "Voicing Error") (e ++ py "→" ++ p) (py "Mild")
        identified_patterns
    else identified_patterns
  else identified_patterns.

(** The second loop, with its [break] after the first appended pattern. *)
Fixpoint deletion_loop (speech_rules : list RuleEntry)
    (differences : list Diff) (identified_patterns : list Pattern)
    : list Pattern :=
  match differences with
  | [] => identified_patterns
  | diff :: rest =>
    if bool_decide (type diff = delete) && negb (eqs (expected diff) [])
    then
      let rule := select speech_rules (py "Final Consonant Deletion") in
      if bool_decide (rule ≠ []) then
        append_pattern rule (py "Final Consonant Deletion")
          (py "Omission of /" ++ expected diff ++ py "/") (py "Moderate")
          identified_patterns
      else deletion_loop speech_rules rest identified_patterns
    else deletion_loop speech_rules rest identified_patterns
  end.

Definition identify_patterns (differences : list Diff)
    (speech_rules : list RuleEntry) : list Pattern :=
  let identified_patterns :=
    fold_left (replace_step speech_rules) differences [] in
  deletion_loop speech_rules differences identified_patterns.

(** ** The sequence matcher

    [difflib.SequenceMatcher(None, a, b)] of the Python standard library
    (CPython's [Lib/difflib.py]) as the engine uses it: no junk predicate
    ([isjunk] is [None], so [bjunk] is empty) and [autojunk] left at its
    default [True].  Indices are naturals; the one place where the library
    computes a possibly negative key ([j-1] in [j2len.get]) keeps integer
    keys. *)

Module difflib.

(** [Match(a, b, size)] and an opcode [(tag, i1, i2, j1, j2)]. *)
Definition Match : Type := nat * nat * nat.
Definition Opcode : Type := Tag * nat * nat * nat * nat.

(** [2.0 * matches / length], or [1.0] for an empty pair.  The two
    integers are counts of characters of the strings; below 2^52 they and
    the product are exactly representable, so the only rounding is that
    of the quotient. *)
Definition _calculate_ratio (matches length : nat) : Q :=
  if bool_decide (length ≠ 0) then
    round64 (inject_Z (2 * Z.of_nat matches) / inject_Z (Z.of_nat length))
  else 1%Q.

(** Tuple comparison used by [matching_blocks.sort()]. *)
Definition Match_le (x y : Match) : Prop :=
  let '(i1, j1, k1) := x in
  let '(i2, j2, k2) := y in
  i1 < i2 ∨ (i1 = i2 ∧ (j1 < j2 ∨ (j1 = j2 ∧ k1 ≤ k2))).

#[global] Instance Match_le_dec : RelDecision Match_le.
Proof. intros [[??]?] [[??]?]; unfold Match_le; apply _. Defined.

Section SequenceMatcher.

Variables a b : str.

(** *** [__chain_b] *)

(** The first loop: every element of [b] mapped to the increasing list of
    the indices at which it occurs. *)
Definition b2j_indices : gmap char (list nat) :=
  fold_left
    (λ (b2j : gmap char (list nat)) '(i, elt),
       <[elt := default [] (b2j !! elt) ++ [i]]> b2j)
    (imap pair b) ∅.

Definition bjunk : gset char := ∅.

Definition ntest : nat := length b / 100 + 1.

(** The elements purged as popular ([autojunk and n >= 200]). *)
Definition bpopular : gset char :=
  if bool_decide (200 ≤ length b) then
    dom (filter (λ kv, ntest < length kv.2) b2j_indices)
  else ∅.

Definition b2j : gmap char (list nat) :=
  filter (λ kv, kv.1 ∉ bpopular) b2j_indices.

Definition isbjunk (c : char) : bool := bool_decide (c ∈ bjunk).

(** *** [find_longest_match] *)

(** [b2j.get(a[i], nothing)]; [i] is below [len(a)] wherever it is used. *)
Definition b2j_get (i : nat) : list nat :=
  match a !! i with
  | Some elt => default [] (b2j !! elt)
  | None => []
  end.

(** The loop over the [j] of one row [i], with its [continue] and
    [break].  [i-k+1] and [j-k+1] are written [i+1-k] and [j+1-k]. *)
Fixpoint row_loop (blo bhi i : nat) (j2len : gmap Z nat) (js : list nat)
    (newj2len : gmap Z nat) (best : Match) : gmap Z nat * Match :=
  match js with
  | [] => (newj2len, best)
  | j :: js =>
    if bool_decide (j < blo) then
      row_loop blo bhi i j2len js newj2len best
    else if bool_decide (bhi ≤ j) then (newj2len, best)
    else
      let k := default 0 (j2len !! (Z.of_nat j - 1)%Z) + 1 in
      let newj2len := <[Z.of_nat j := k]> newj2len in
      let best :=
        if bool_decide (best.2 < k) then (i + 1 - k, j + 1 - k, k)
        else best in
      row_loop blo bhi i j2len js newj2len best
  end.

Definition row_step (blo bhi : nat) (st : gmap Z nat * Match) (i : nat)
    : gmap Z nat * Match :=
  row_loop blo bhi i st.1 (b2j_get i) ∅ st.2.

(** [a[i] == b[j]] for indices in range. *)
Definition same (i j : nat) : bool :=
  match a !! i, b !! j with
  | Some x, Some y => bool_decide (x = y)
  | _, _ => false
  end.

Definition junk_at (j : nat) : bool :=
  match b !! j with
  | Some y => isbjunk y
  | None => false
  end.

(** The two [while] loops that grow the match to the left; [junk] tells
    which of the two ([not isbjunk(...)] or [isbjunk(...)]). *)
Fixpoint extend_left (junk : bool) (alo blo besti bestj bestsize : nat)
    : Match :=
  match besti, bestj with
  | S i', S j' =>
    if bool_decide (alo < besti) && bool_decide (blo < bestj)
       && bool_decide (junk_at j' = junk) && same i' j'
    then extend_left junk alo blo i' j' (bestsize + 1)
    else (besti, bestj, bestsize)
  | _, _ => (besti, bestj, bestsize)
  end.

(** The two [while] loops that grow it to the right; [n] bounds the number
    of iterations and is given as [ahi - (besti + bestsize)]. *)
Fixpoint extend_right (junk : bool) (ahi bhi besti bestj n bestsize : nat)
    : nat :=
  match n with
  | 0 => bestsize
  | S n =>
    if bool_decide (besti + bestsize < ahi)
       && bool_decide (bestj + bestsize < bhi)
       && bool_decide (junk_at (bestj + bestsize) = junk)
       && same (besti + bestsize) (bestj + bestsize)
    then extend_right junk ahi bhi besti bestj n (bestsize + 1)
    else bestsize
  end.

Definition extend (junk : bool) (alo ahi blo bhi : nat) (m : Match)
    : Match :=
  let '(besti, bestj, bestsize) :=
    extend_left junk alo blo m.1.1 m.1.2 m.2 in
  (besti, bestj,
   extend_right junk ahi bhi besti bestj (ahi - (besti + bestsize))
     bestsize).

Definition find_longest_match (alo ahi blo bhi : nat) : Match :=
  let st :=
    fold_left (row_step blo bhi) (seq alo (ahi - alo)) (∅, (alo, blo, 0)) in
  extend true alo ahi blo bhi (extend false alo ahi blo bhi st.2).

(** *** [get_matching_blocks] *)

(** The [while queue] loop.  The queue is a stack, written with its top
    first; the loop is cut after [fuel] iterations ([None]). *)
Fixpoint blocks_loop (fuel : nat) (queue : list (nat * nat * nat * nat))
    (matching_blocks : list Match) : option (list Match) :=
  match queue with
  | [] => Some matching_blocks
  | (alo, ahi, blo, bhi) :: queue =>
    match fuel with
    | 0 => None
    | S fuel =>
      let '(i, j, k) := find_longest_match alo ahi blo bhi in
      if bool_decide (k ≠ 0) then
        let queue :=
          if bool_decide (alo < i) && bool_decide (blo < j)
          then (alo, i, blo, j) :: queue else queue in
        let queue :=
          if bool_decide (i + k < ahi) && bool_decide (j + k < bhi)
          then (i + k, ahi, j + k, bhi) :: queue else queue in
        blocks_loop fuel queue (matching_blocks ++ [(i, j, k)])
      else blocks_loop fuel queue matching_blocks
    end
  end.

(** The loop that collapses adjacent blocks; the state is
    [(i1, j1, k1)] and [non_adjacent]. *)
Definition collapse_step (st : Match * list Match) (x : Match)
    : Match * list Match :=
  let '((i1, j1, k1), non_adjacent) := st in
  let '(i2, j2, k2) := x in
  if bool_decide (i1 + k1 = i2) && bool_decide (j1 + k1 = j2) then
    ((i1, j1, k1 + k2), non_adjacent)
  else
    ((i2, j2, k2),
     if bool_decide (k1 ≠ 0) then non_adjacent ++ [(i1, j1, k1)]
     else non_adjacent).

Definition collapse (matching_blocks : list Match) : list Match :=
  let '((i1, j1, k1), non_adjacent) :=
    fold_left collapse_step matching_blocks ((0, 0, 0), []) in
  let non_adjacent :=
    if bool_decide (k1 ≠ 0) then non_adjacent ++ [(i1, j1, k1)]
    else non_adjacent in
  non_adjacent ++ [(length a, length b, 0)].

(** Every iteration that finds a block removes an element of [a] from the
    ranges still to be searched and queues at most two ranges, so
    [2 * len(a) + 1] iterations are enough. *)
Definition get_matching_blocks : option (list Match) :=
  matching_blocks ←
    blocks_loop (2 * length a + 1) [(0, length a, 0, length b)] [];
  Some (collapse (merge_sort Match_le matching_blocks)).

(** *** [get_opcodes] *)

Definition opcode_step (st : nat * nat * list Opcode) (x : Match)
    : nat * nat * list Opcode :=
  let '(i, j, answer) := st in
  let '(ai, bj, size) := x in
  let answer :=
    if bool_decide (i < ai) && bool_decide (j < bj) then
      answer ++ [(replace, i, ai, j, bj)]
    else if bool_decide (i < ai) then answer ++ [(delete, i, ai, j, bj)]
    else if bool_decide (j < bj) then answer ++ [(insert, i, ai, j, bj)]
    else answer in
  let i := ai + size in
  let j := bj + size in
  (i, j,
   if bool_decide (size ≠ 0) then answer ++ [(equal, ai, i, bj, j)]
   else answer).

Definition get_opcodes : option (list Opcode) :=
  blocks ← get_matching_blocks;
  Some (fold_left opcode_step blocks (0, 0, [])).2.

(** *** [ratio] *)

Definition matches (blocks : list Match) : nat :=
  foldr (λ triple acc, triple.2 + acc) 0 blocks.

Definition ratio : option Q :=
  blocks ← get_matching_blocks;
  Some (_calculate_ratio (matches blocks) (length a + length b)).

End SequenceMatcher.

End difflib.

(** ** Alignment *)

(** [s[i1:i2]] for [i1 <= i2 <= len(s)]. *)
Definition slice (s : str) (i1 i2 : nat) : str := take (i2 - i1) (drop i1 s).

Definition differences_of (expected produced : str)
    (opcodes : list difflib.Opcode) : list Diff :=
  omap
    (λ '(tag, i1, i2, j1, j2),
       if bool_decide (tag ≠ equal) then
         Some (mkDiff tag (slice expected i1 i2) (slice produced j1 j2) i1)
       else None)
    opcodes.

(** The result is [None] only if the matcher's loop were cut short. *)
Definition compare_ipa_transcriptions (produced_ipa expected_ipa : str)
    : option (list Diff * Q) :=
  let produced := strip (py "/") produced_ipa in
  let expected := strip (py "/") expected_ipa in
  opcodes ← difflib.get_opcodes expected produced;
  similarity ← difflib.ratio expected produced;
  Some (differences_of expected produced opcodes, similarity).

(** ** The classifier as the specification words it

    An ordered table of (predicate, looked-up condition, emitted condition,
    severity, suffix of the description), searched for its first match. *)

Definition Predicate : Type := (str → str → bool) * str * str * str * str.

Definition predicate_table : list Predicate :=
  [ (is_gliding, py "Gliding", py "Gliding", py "Moderate", []);
    (is_stopping, py "Stopping", py "Stopping", py "Moderate",
      py " (fricative to stop)");
    (is_fronting, py "Fronting (Velar Fronting)",
      py "Fronting (Velar Fronting)", py "Moderate", []);
    (is_backing, py "Backing", py "Backing", py "Concerning", []);
    (is_labialization, py "Labialization", py "Labialization",
      py "Mild-Moderate", []);
    (is_voicing, py "Voicing (Devoicing/Voicing Errors)",
      py "Voicing Error", py "Mild", []) ].

Definition first_match (e p : str) : option Predicate :=
  snd <$> list_find (λ x : Predicate, x.1.1.1.1 e p = true) predicate_table.

(** What one difference adds in the first loop. *)
Definition replace_patterns_of (speech_rules : list RuleEntry) (diff : Diff)
    : list Pattern :=
  if bool_decide (type diff = replace) then
    match first_match (expected diff) (produced diff) with
    | Some (_, key, cond, sev, suffix) =>
      append_pattern (select speech_rules key) cond
        (expected diff ++ py "→" ++ produced diff ++ suffix) sev []
    | None => []
    end
  else [].

(** What the second loop adds: the first deletion of a non-empty span, if
    the table has the entry. *)
Definition first_deletion (differences : list Diff) : option Diff :=
  snd <$>
    list_find (λ d, type d = delete ∧ expected d ≠ []) differences.

Definition deletion_patterns_of (speech_rules : list RuleEntry)
    (differences : list Diff) : list Pattern :=
  match first_deletion differences with
  | Some diff =>
    append_pattern (select speech_rules (py "Final Consonant Deletion"))
      (py "Final Consonant Deletion")
      (py "Omission of /" ++ expected diff ++ py "/") (py "Moderate") []
  | None => []
  end.

(** The differences the classifier can react to. *)
Definition considered (diff : Diff) : Prop :=
  type diff = delete
  ∨ (type diff = replace
     ∧ length (expected diff) = 1 ∧ length (produced diff) = 1).

#[global] Instance considered_dec d : Decision (considered d).
Proof. unfold considered; apply _. Defined.

(** ** Sample rule rows, used to instantiate statements *)

Definition final_consonant_rule : RuleEntry :=
  mkRule (py "Final Consonant Deletion") (py "omits final consonants")
    (py "cat→ca") (py "typical to age 3") (py "3;3") (py "High").

Definition voicing_error_rule : RuleEntry :=
  mkRule (py "Voicing Error") (py "voicing contrasts")
    (py "pig→big") (py "common in early speech") (py "3;0") (py "Moderate").

(** A row under the name the voicing branch looks up. *)
Definition voicing_rule : RuleEntry :=
  mkRule (py "Voicing (Devoicing/Voicing Errors)")
    (py "voiced and voiceless sounds exchanged") (py "pig→big")
    (py "common in early speech") (py "3;0") (py "Moderate").

(** One of the five branches before the voicing branch takes the pair. *)
Definition earlier_branch (e p : str) : bool :=
  is_gliding e p || is_stopping e p || is_fronting e p || is_backing e p
  || is_labialization e p.

Definition fronting_rule : RuleEntry :=
  mkRule (py "Fronting (Velar Fronting)") (py "velars become alveolars")
    (py "k→t, g→d") (py "typical to age 3;6") (py "3;6") (py "High").

(** The pattern reported for k→t with [fronting_rule]. *)
Definition fronting_pattern : Pattern :=
  mkPattern (py "Fronting (Velar Fronting)") (py "k→t") (py "k→t, g→d")
    (py "typical to age 3;6") (py "3;6") (py "Moderate") (py "High").

(** ** Invariants of the matcher, used in the proofs *)

(** A match lies inside the ranges searched. *)
Definition in_range (alo ahi blo bhi : nat) (m : difflib.Match) : Prop :=
  alo ≤ m.1.1 ∧ m.1.1 + m.2 ≤ ahi ∧ blo ≤ m.1.2 ∧ m.1.2 + m.2 ≤ bhi.

(** [j2len] after the rows below [i]: keys are indices of the [b] range,
    lengths fit between the start of the ranges and the cell. *)
Definition j2len_bounded (alo blo bhi i : nat) (j2len : gmap Z nat) : Prop :=
  ∀ z v, j2len !! z = Some v →
    ∃ j, z = Z.of_nat j ∧ blo ≤ j < bhi ∧ v + blo ≤ j + 1 ∧ v + alo ≤ i.

(** Ranges queued by [get_matching_blocks], and the measure that bounds
    its loop. *)
Definition range_ok (q : nat * nat * nat * nat) : Prop :=
  q.1.1.1 ≤ q.1.1.2 ∧ q.1.2 ≤ q.2.

Definition range_weight (q : nat * nat * nat * nat) : nat :=
  2 * (q.1.1.2 - q.1.1.1) + 1.

Definition queue_weight (queue : list (nat * nat * nat * nat)) : nat :=
  sum_list_with range_weight queue.

(** The indices at which [c] occurs in [s], increasing. *)
Definition occurrences (c : char) (s : str) : list nat :=
  filter (λ j, s !! j = Some c) (seq 0 (length s)).

Section SelfRuns.

Variable s : str.

(** [keyed x]: the element at [x] has kept its entry in [b2j] (it has not
    been purged as popular). *)
Definition keyed (x : nat) : bool :=
  bool_decide (difflib.b2j_get s s x ≠ []).

(** Length of the run of keyed elements that ends at [x]. *)
Fixpoint run (x : nat) : nat :=
  if keyed x then
    S (match x with 0 => 0 | S x' => run x' end)
  else 0.

Definition prev_run (i : nat) : nat :=
  match i with 0 => 0 | S i' => run i' end.

(** Entries of a row of [j2len]: natural keys, lengths bounded by the run
    ending at the key and by the run ending on the row. *)
Definition j2len_runs (bound : nat) (j2len : gmap Z nat) : Prop :=
  ∀ z v, j2len !! z = Some v →
    ∃ j, z = Z.of_nat j ∧ v ≤ run j ∧ v ≤ bound.

Definition diagonal_entry (i : nat) (j2len : gmap Z nat) : Prop :=
  default 0 (j2len !! (Z.of_nat i - 1)%Z) = prev_run i.

Definition best_diagonal (i : nat) (best : difflib.Match) : Prop :=
  best.1.1 = best.1.2 ∧ best.1.1 + best.2 ≤ i
  ∧ ∀ x, x < i → run x ≤ best.2.

Definition self_invariant (i : nat) (st : gmap Z nat * difflib.Match)
    : Prop :=
  j2len_runs (prev_run i) st.1 ∧ diagonal_entry i st.1
  ∧ best_diagonal i st.2.

End SelfRuns.

(** ** Reference phrases and the simulated transcription *)

(** One row of the reference table. *)
Record ReferencePhrase : Type := mkPhrase {
  phrase : str;
  expected_IPA : str
}.

Definition load_reference_phrases : list ReferencePhrase :=
  [ mkPhrase (py "The cat sat on the mat") (py "/ðə kæt sæt ɒn ðə mæt/");
    mkPhrase (py "She sells seashells by the seashore")
      (py "/ʃi sɛlz siːʃɛlz baɪ ðə siːʃɔː/") ].

(** The symbol of a one-character literal. *)
Definition sym (s : string) : char := default 0%N (head (py s)).

Definition common_substitutions : gmap char char :=
  list_to_map
    [ (sym "r", sym "w"); (sym "ɹ", sym "w"); (sym "l", sym "w");
      (sym "θ", sym "f"); (sym "ð", sym "d"); (sym "s", sym "t");
      (sym "ʃ", sym "t"); (sym "k", sym "t"); (sym "g", sym "d");
      (sym "t", sym "k") ].

(** [random.randint(lo, hi)].  The random source is the sequence [rand] of
    its raw draws, the [k]-th call using [rand k]; every value of
    [lo..hi] is the image of some draw, and no other value is. *)
Definition randint (lo hi : nat) (raw : nat) : nat :=
  lo + raw mod (hi - lo + 1).

(** The loop [for _ in range(num_errors)]; [k] counts the draws made so
    far.  The list is only ever updated in place, at an index that exists. *)
Fixpoint error_loop (num_errors : nat) (rand : nat → nat) (k : nat)
    (ipa_chars : list char) : list char :=
  match num_errors with
  | 0 => ipa_chars
  | S num_errors =>
    if bool_decide (ipa_chars ≠ []) then
      let idx := randint 0 (length ipa_chars - 1) (rand k) in
      let ipa_chars :=
        match ipa_chars !! idx with
        | Some c =>
          match common_substitutions !! c with
          | Some c' => <[idx := c']> ipa_chars
          | None => ipa_chars
          end
        | None => ipa_chars
        end in
      error_loop num_errors rand (S k) ipa_chars
    else error_loop num_errors rand k ipa_chars
  end.

(** [simulate_audio_to_ipa(audio_file, reference_phrase)]; the audio file
    is not read. *)
Definition simulate_audio_to_ipa (rand : nat → nat)
    (reference_phrase : ReferencePhrase) : str :=
  let reference_ipa := expected_IPA reference_phrase in
  let clean_ipa := strip (py "/") reference_ipa in
  let ipa_chars := clean_ipa in
  let num_errors := randint 0 3 (rand 0) in
  py "/" ++ error_loop num_errors rand 1 ipa_chars ++ py "/".

(** ** The analysis run *)

(** The dictionary stored in [st.session_state.analysis_results]. *)
Record AnalysisResults : Type := mkResults {
  res_phrase : str;
  res_expected_ipa : str;
  res_produced_ipa : str;
  res_differences : list Diff;
  res_similarity : Q;
  res_patterns : list Pattern;
  res_confidence : str;
  res_confidence_type : str
}.

(** The body of the "Run Analysis" button.  [None] only if the matcher's
    loop were cut short; [KeyError] if the scorer misses a threshold. *)
Definition run_analysis (rand : nat → nat) (selected_row : ReferencePhrase)
    (speech_rules : list RuleEntry) (config : gmap string Q)
    : option (result AnalysisResults) :=
  let produced_ipa := simulate_audio_to_ipa rand selected_row in
  '(differences, similarity) ←
    compare_ipa_transcriptions produced_ipa (expected_IPA selected_row);
  let patterns := identify_patterns differences speech_rules in
  Some ('(confidence, confidence_type) ←
          calculate_confidence_level similarity config;
        Ok (mkResults (phrase selected_row) (expected_IPA selected_row)
              produced_ipa differences similarity patterns confidence
              confidence_type)).

(** ** The rows of the CSV export *)

Record CsvRow : Type := mkCsvRow {
  csv_timestamp : str;
  csv_reference_phrase : str;
  csv_expected_ipa : str;
  csv_produced_ipa : str;
  csv_similarity_score : str;
  csv_confidence_level : str;
  csv_pattern_number : nat;
  csv_condition : str;
  csv_pattern : str;
  csv_severity : str;
  csv_age_of_concern : str;
  csv_clinical_notes : str;
  csv_clinician_notes : str
}.

Section CsvRows.

(** [now k] is the text of the [k]-th [datetime.now().strftime(...)] and
    [percent] the rendering [f"{x:.2%}"]; neither is interpreted. *)
Variable now : nat → str.
Variable percent : Q → str.

Definition csv_rows (results : AnalysisResults) (clinician_notes : str)
    : list CsvRow :=
  let rows :=
    imap
      (λ i pat,
         mkCsvRow (now i) (res_phrase results) (res_expected_ipa results)
           (res_produced_ipa results) (percent (res_similarity results))
           (res_confidence results) (i + 1) (condition pat) (pattern pat)
           (severity pat) (age_concern pat) (clinical_notes pat)
           clinician_notes)
      (res_patterns results) in
  if bool_decide (rows = []) then
    [ mkCsvRow (now 0) (res_phrase results) (res_expected_ipa results)
        (res_produced_ipa results) (percent (res_similarity results))
        (res_confidence results) 0 (py "None detected") (py "N/A")
        (py "N/A") (py "N/A") (py "No patterns identified")
        clinician_notes ]
  else rows.

End CsvRows.

(** ** Applying differences *)

(** The expected string rewritten by a list of differences, read left to
    right: what lies between two differences is kept, each expected span is
    replaced by the produced one. *)
Fixpoint patch (text : str) (cursor : nat) (differences : list Diff)
    : str :=
  match differences with
  | [] => drop cursor text
  | diff :: differences =>
    slice text cursor (position diff) ++ produced diff
    ++ patch text (position diff + length (expected diff)) differences
  end.

(** ** Definitions used to state further properties *)

(** Rank of a label, lowest tier first. *)
Definition label_rank (label : str) : nat :=
  if eqs label (py "High Confidence") then 3
  else if eqs label (py "Moderate Confidence") then 2
  else if eqs label (py "Low Confidence") then 1
  else 0.

(** Where the display fields of a reported pattern come from. *)
Definition emitted_conditions : list (str * str * str) :=
  [ (py "Gliding", py "Gliding", py "Moderate");
    (py "Stopping", py "Stopping", py "Moderate");
    (py "Fronting (Velar Fronting)", py "Fronting (Velar Fronting)",
      py "Moderate");
    (py "Backing", py "Backing", py "Concerning");
    (py "Labialization", py "Labialization", py "Mild-Moderate");
    (py "Voicing (Devoicing/Voicing Errors)", py "Voicing Error", py "Mild");
    (py "Final Consonant Deletion", py "Final Consonant Deletion",
      py "Moderate") ].

(** A string that neither starts nor ends with a character of [chars]. *)
Definition bare (chars s : str) : Prop :=
  (∀ x r, s = x :: r → x ∉ chars) ∧ (∀ r x, s = r ++ [x] → x ∉ chars).

(** The symbols the simulation can write. *)
Definition substituted_symbols : list char :=
  [sym "w"; sym "f"; sym "d"; sym "t"; sym "k"].

(** What the simulation may have made of one symbol: left as it is, or,
    if the table has an entry for it, overwritten by a table value. *)
Definition simulated_symbol (original current : char) : Prop :=
  current = original
  ∨ (is_Some (common_substitutions !! original)
     ∧ current ∈ substituted_symbols).

(** Number of positions at which two strings differ. *)
Definition hamming (l1 l2 : str) : nat :=
  length (filter (λ p : char * char, p.1 ≠ p.2) (zip l1 l2)).

(** The most a queued range can still contribute to the matched count. *)
Definition range_capacity (q : nat * nat * nat * nat) : nat :=
  Nat.min (q.1.1.2 - q.1.1.1) (q.2 - q.1.2).

(** A phrase none of whose symbols is in the substitution table. *)
Definition mama_phrase : ReferencePhrase :=
  mkPhrase (py "mama") (py "/mæmæ/").

(** ** Matching blocks as a chain *)

Section Chains.

Variables a b : str.

(** [a[i:i+k] == b[j:j+k]], index by index. *)
Definition match_at (i j k : nat) : Prop :=
  ∀ t, t < k → ∃ c, a !! (i + t) = Some c ∧ b !! (j + t) = Some c.

Definition valid_match (m : difflib.Match) : Prop :=
  match_at m.1.1 m.1.2 m.2.

(** [j2len] after [i] rows: every entry is the length of a match that ends
    on the last row and at its key. *)
Definition j2len_valid (i : nat) (j2len : gmap Z nat) : Prop :=
  ∀ z v, j2len !! z = Some v →
    ∃ j, z = Z.of_nat j ∧ v ≤ i ∧ v ≤ j + 1
         ∧ match_at (i - v) (j + 1 - v) v.

(** A list of non-empty matches, each starting at or after the end of the
    one before, from [(i0, j0)] up to at most [(i1, j1)]. *)
Fixpoint chain (i0 j0 i1 j1 : nat) (l : list difflib.Match) : Prop :=
  match l with
  | [] => i0 ≤ i1 ∧ j0 ≤ j1
  | (i, j, k) :: l =>
    i0 ≤ i ∧ j0 ≤ j ∧ 0 < k ∧ match_at i j k
    ∧ chain (i + k) (j + k) i1 j1 l
  end.

(** The blocks the matcher finds in a range, in order: those of the part
    before the longest match, the match, those of the part after it. *)
Inductive blocks_of : nat * nat * nat * nat → list difflib.Match → Prop :=
| blocks_of_none alo ahi blo bhi :
    (difflib.find_longest_match a b alo ahi blo bhi).2 = 0 →
    blocks_of (alo, ahi, blo, bhi) []
| blocks_of_some alo ahi blo bhi i j k l1 l2 :
    difflib.find_longest_match a b alo ahi blo bhi = (i, j, k) →
    k ≠ 0 →
    (alo < i ∧ blo < j → blocks_of (alo, i, blo, j) l1) →
    (¬ (alo < i ∧ blo < j) → l1 = []) →
    (i + k < ahi ∧ j + k < bhi → blocks_of (i + k, ahi, j + k, bhi) l2) →
    (¬ (i + k < ahi ∧ j + k < bhi) → l2 = []) →
    blocks_of (alo, ahi, blo, bhi) (l1 ++ (i, j, k) :: l2).

(** What [get_opcodes] appends for the gap between [(i, j)] and the next
    block at [(ai, bj)], and what it appends from [(i, j)] on. *)
Definition gap_opcodes (i ai j bj : nat) : list difflib.Opcode :=
  if bool_decide (i < ai) && bool_decide (j < bj) then
    [(replace, i, ai, j, bj)]
  else if bool_decide (i < ai) then [(delete, i, ai, j, bj)]
  else if bool_decide (j < bj) then [(insert, i, ai, j, bj)]
  else [].

Fixpoint opcodes_from (i j : nat) (blocks : list difflib.Match)
    : list difflib.Opcode :=
  match blocks with
  | [] => []
  | (ai, bj, size) :: blocks =>
    gap_opcodes i ai j bj
    ++ (if bool_decide (size ≠ 0)
        then [(equal, ai, ai + size, bj, bj + size)] else [])
    ++ opcodes_from (ai + size) (bj + size) blocks
  end.

End Chains.

(** What a difference returned for [expected_str] looks like. *)
Definition well_formed (expected_str : str) (diff : Diff) : Prop :=
  match type diff with
  | replace => expected diff ≠ [] ∧ produced diff ≠ []
  | delete => expected diff ≠ [] ∧ produced diff = []
  | insert => expected diff = [] ∧ produced diff ≠ []
  | equal => False
  end
  ∧ expected diff
    = slice expected_str (position diff)
        (position diff + length (expected diff))
  ∧ position diff + length (expected diff) ≤ length expected_str.

(** ** The embedding on known inputs *)

Example utf8_decode_ipa : py "kæt→ɹ" = [107; 230; 116; 8594; 633]%N.
Proof. reflexivity. Qed.

(** The example of the library's documentation of [get_opcodes]. *)
Example get_opcodes_qabxcd :
  difflib.get_opcodes (py "qabxcd") (py "abycdf")
  = Some [ (delete, 0, 1, 0, 0); (equal, 1, 3, 0, 2); (replace, 3, 4, 2, 3);
           (equal, 4, 6, 3, 5); (insert, 6, 6, 5, 6) ].
Proof. vm_compute. reflexivity. Qed.

(** The library's own caution about [ratio] and the order of the
    arguments: 0.25 one way, 0.5 the other. *)
Example ratio_tide_diet :
  difflib.ratio (py "tide") (py "diet") = Some (1 # 4)%Q
  ∧ difflib.ratio (py "diet") (py "tide") = Some (1 # 2)%Q.
Proof. split; vm_compute; reflexivity. Qed.

Example compare_two_stoppings :
  fst <$> compare_ipa_transcriptions (py "/tiːtɔː/") (py "/siːʃɔː/")
  = Some [ mkDiff replace (py "s") (py "t") 0;
           mkDiff replace (py "ʃ") (py "t") 3 ].
Proof. vm_compute. reflexivity. Qed.

Example compare_final_deletion :
  fst <$> compare_ipa_transcriptions (py "/kæ/") (py "/kæt/")
  = Some [ mkDiff delete (py "t") [] 2 ].
Proof. vm_compute. reflexivity. Qed.

(** ** Properties of the confidence scorer *)

Section Scorer.

Local Open Scope Q_scope.

Lemma default_thresholds :
  getitem load_sensitivity_config "high_confidence" = Ok (float_lit 0.85)
  ∧ getitem load_sensitivity_config "moderate_confidence"
    = Ok (float_lit 0.65)
  ∧ getitem load_sensitivity_config "low_confidence" = Ok (float_lit 0.45).
Proof. repeat split; vm_compute; reflexivity. Qed.

Lemma calculate_confidence_level_default (s : Q) :
  calculate_confidence_level s load_sensitivity_config =
    if ge s (float_lit 0.85) then Ok (py "High Confidence", py "success")
    else if ge s (float_lit 0.65) then
      Ok (py "Moderate Confidence", py "warning")
    else if ge s (float_lit 0.45) then Ok (py "Low Confidence", py "error")
    else Ok (py "Very Low Confidence", py "error").
Proof.
  destruct default_thresholds as (Hh & Hm & Hl).
  unfold calculate_confidence_level.
  rewrite Hh; cbn [mbind result_bind Py.bind].
  destruct (ge s (float_lit 0.85)); [reflexivity|].
  rewrite Hm; cbn [mbind result_bind Py.bind].
  destruct (ge s (float_lit 0.65)); [reflexivity|].
  rewrite Hl; cbn [mbind result_bind Py.bind].
  reflexivity.
Qed.

Lemma ge_true (x y : Q) : ge x y = true ↔ y <= x.
Proof. unfold ge. apply Qle_bool_iff. Qed.

Lemma ge_false (x y : Q) : ge x y = false ↔ x < y.
Proof.
  unfold ge. destruct (Qle_bool y x) eqn:E.
  - apply Qle_bool_iff in E. split; [discriminate|].
    intros H. exfalso. exact (Qlt_not_le _ _ H E).
  - split; [intros _|reflexivity].
    apply Qnot_le_lt. intros H. apply Qle_bool_iff in H. congruence.
Qed.

(** The binary64 values of the literals, as Python reads them. *)
Lemma float_lit_085 : float_lit 0.85 = 7656119366529843 # 9007199254740992.
Proof. vm_compute; reflexivity. Qed.

Lemma float_lit_065 : float_lit 0.65 = 5854679515581645 # 9007199254740992.
Proof. vm_compute; reflexivity. Qed.

Lemma float_lit_045 : float_lit 0.45 = 8106479329266893 # 18014398509481984.
Proof. vm_compute; reflexivity. Qed.

Lemma float_lit_0849999 :
  float_lit 0.849999 = 1914027589832647 # 2251799813685248.
Proof. vm_compute; reflexivity. Qed.

Ltac thresholds :=
  rewrite ?float_lit_085, ?float_lit_065, ?float_lit_045 in *;
  unfold Qle, Qlt in *; cbn [Qnum Qden] in *.

(** C1. With the default thresholds the scorer returns High Confidence /
    success exactly when the score is at least 0.85, Moderate Confidence /
    warning exactly when it is at least 0.65 and below 0.85, Low Confidence
    / error exactly when it is at least 0.45 and below 0.65, and Very Low
    Confidence / error exactly when it is below 0.45; the score 0.85 itself
    is High Confidence and 0.849999 is Moderate Confidence. *)
Theorem C1_score_confidence_tiers (s : Q) :
  let r := calculate_confidence_level s load_sensitivity_config in
  (r = Ok (py "High Confidence", py "success") ↔ float_lit 0.85 <= s)
  ∧ (r = Ok (py "Moderate Confidence", py "warning")
     ↔ float_lit 0.65 <= s ∧ s < float_lit 0.85)
  ∧ (r = Ok (py "Low Confidence", py "error")
     ↔ float_lit 0.45 <= s ∧ s < float_lit 0.65)
  ∧ (r = Ok (py "Very Low Confidence", py "error") ↔ s < float_lit 0.45)
  ∧ calculate_confidence_level (float_lit 0.85) load_sensitivity_config
    = Ok (py "High Confidence", py "success")
  ∧ calculate_confidence_level (float_lit 0.849999) load_sensitivity_config
    = Ok (py "Moderate Confidence", py "warning").
Proof.
  intros r. subst r.
  rewrite calculate_confidence_level_default.
  destruct (ge s (float_lit 0.85)) eqn:Eh;
    [apply ge_true in Eh | apply ge_false in Eh];
  [| destruct (ge s (float_lit 0.65)) eqn:Em;
     [apply ge_true in Em | apply ge_false in Em];
   [| destruct (ge s (float_lit 0.45)) eqn:El;
      [apply ge_true in El | apply ge_false in El]]].
  all: repeat match goal with |- _ ∧ _ => split end.
  all: try (vm_compute; reflexivity).
  all: split; intros H.
  all: try reflexivity.
  all: try (vm_compute in H; discriminate H).
  all: try match type of H with _ ∧ _ => destruct H as [H H'] end.
  all: try match goal with |- _ ∧ _ => split end.
  all: thresholds; lia.
Qed.

End Scorer.

(** ** Properties of the classifier *)

Section Classifier.

Arguments py : simpl never.

Variable speech_rules : list RuleEntry.

Lemma append_pattern_app rule cond pat sev acc :
  append_pattern rule cond pat sev acc
  = acc ++ append_pattern rule cond pat sev [].
Proof. destruct rule; simpl; [rewrite app_nil_r|]; reflexivity. Qed.

Lemma append_pattern_length rule cond pat sev :
  length (append_pattern rule cond pat sev []) ≤ 1.
Proof. destruct rule; simpl; lia. Qed.

Lemma append_pattern_condition rule cond pat sev x :
  x ∈ append_pattern rule cond pat sev [] →
  condition x = cond ∧ pattern x = pat ∧ severity x = sev ∧ rule ≠ [].
Proof.
  destruct rule as [|r rule]; simpl; intros Hx.
  - inversion Hx.
  - apply list_elem_of_singleton in Hx. subst x. done.
Qed.

Lemma select_nonempty name :
  select speech_rules name ≠ []
  ↔ ∃ r, r ∈ speech_rules ∧ Condition r = name.
Proof.
  unfold select. split.
  - destruct (filter _ speech_rules) as [|r l] eqn:E; [done|].
    intros _. exists r.
    assert (Hr : r ∈ filter (λ r, Condition r = name) speech_rules)
      by (rewrite E; left).
    apply list_elem_of_filter in Hr. tauto.
  - intros (r & Hr & Hc) E.
    exact (filter_nil_not_elem_of _ _ r E Hc Hr).
Qed.

Lemma first_match_cons (x : Predicate) (l : list Predicate) (e p : str) :
  snd <$> list_find (λ x : Predicate, x.1.1.1.1 e p = true) (x :: l)
  = if x.1.1.1.1 e p then Some x
    else snd <$> list_find (λ x : Predicate, x.1.1.1.1 e p = true) l.
Proof.
  cbn [list_find].
  destruct (x.1.1.1.1 e p); simpl; [reflexivity|].
  destruct (list_find _ l) as [[??]|]; reflexivity.
Qed.

(** The [if]/[elif] chain is the first-match search of the table. *)
Lemma replace_step_first_match acc diff :
  replace_step speech_rules acc diff
  = acc ++ replace_patterns_of speech_rules diff.
Proof.
  unfold replace_step, replace_patterns_of, first_match, predicate_table.
  destruct (bool_decide (type diff = replace));
    [|symmetry; apply app_nil_r].
  rewrite !first_match_cons. cbn [fst snd].
  repeat match goal with
  | |- context [if ?f (expected diff) (produced diff) then _ else _] =>
    destruct (f (expected diff) (produced diff))
  end;
  rewrite ?app_nil_r;
  first [ reflexivity | apply append_pattern_app ].
Qed.

Lemma fold_left_replace_step differences acc :
  fold_left (replace_step speech_rules) differences acc
  = acc ++ flat_map (replace_patterns_of speech_rules) differences.
Proof.
  revert acc. induction differences as [|d ds IH]; intros acc; simpl.
  - symmetry; apply app_nil_r.
  - rewrite IH, replace_step_first_match, <- app_assoc. reflexivity.
Qed.

Lemma first_deletion_cons d ds :
  first_deletion (d :: ds)
  = if bool_decide (type d = delete) && negb (eqs (expected d) [])
    then Some d else first_deletion ds.
Proof.
  unfold first_deletion, eqs. cbn [list_find].
  destruct (decide (type d = delete ∧ expected d ≠ [])) as [[H1 H2]|H].
  - rewrite bool_decide_eq_true_2 by done.
    rewrite (bool_decide_eq_false_2 _ H2). reflexivity.
  - destruct (list_find _ ds) as [[??]|]; simpl.
    all: destruct (bool_decide (type d = delete)) eqn:E1;
      destruct (bool_decide (expected d = [])) eqn:E2; simpl; try done.
    all: apply bool_decide_eq_true in E1; apply bool_decide_eq_false in E2.
    all: tauto.
Qed.

Lemma deletion_loop_first_deletion differences acc :
  deletion_loop speech_rules differences acc
  = acc ++ deletion_patterns_of speech_rules differences.
Proof.
  unfold deletion_patterns_of.
  induction differences as [|d ds IH]; cbn [deletion_loop].
  - symmetry; apply app_nil_r.
  - rewrite first_deletion_cons.
    destruct (bool_decide (type d = delete) && negb (eqs (expected d) []));
      [|exact IH].
    cbv zeta.
    destruct (select speech_rules (py "Final Consonant Deletion"))
      as [|r l] eqn:E.
    + rewrite bool_decide_eq_false_2 by (intros H; exact (H eq_refl)).
      rewrite IH. destruct (first_deletion ds); simpl; reflexivity.
    + rewrite bool_decide_eq_true_2 by done. reflexivity.
Qed.

Lemma identify_patterns_split differences :
  identify_patterns differences speech_rules
  = flat_map (replace_patterns_of speech_rules) differences
    ++ deletion_patterns_of speech_rules differences.
Proof.
  unfold identify_patterns.
  rewrite deletion_loop_first_deletion, fold_left_replace_step.
  reflexivity.
Qed.

Lemma replace_patterns_of_length diff :
  length (replace_patterns_of speech_rules diff) ≤ 1.
Proof.
  unfold replace_patterns_of.
  destruct (bool_decide _); [|simpl; lia].
  destruct (first_match _ _) as [[[[[??]?]?]?]|]; [|simpl; lia].
  apply append_pattern_length.
Qed.

Lemma deletion_patterns_of_length differences :
  length (deletion_patterns_of speech_rules differences) ≤ 1.
Proof.
  unfold deletion_patterns_of.
  destruct (first_deletion _); [|simpl; lia].
  apply append_pattern_length.
Qed.

End Classifier.

Section ClassifierProperties.

Arguments py : simpl never.

Lemma isin_length (e : str) (l : list str) (n : nat) :
  isin e l = true → Forall (λ s, length s = n) l → length e = n.
Proof.
  unfold isin. intros He Hl. apply bool_decide_eq_true in He.
  rewrite Forall_forall in Hl. exact (Hl e He).
Qed.

Lemma eqs_true (x y : str) : eqs x y = true → x = y.
Proof. unfold eqs. apply bool_decide_eq_true. Qed.

Ltac single_symbol :=
  repeat match goal with
  | H : _ && _ = true |- _ => apply andb_prop in H; destruct H
  | H : _ || _ = true |- _ => apply orb_prop in H; destruct H
  | H : eqs _ _ = true |- _ => apply eqs_true in H; subst
  | H : isin _ _ = true |- _ =>
    apply (λ H, isin_length _ _ 1 H) in H;
      [|repeat constructor]
  end;
  split; first [assumption | reflexivity].

(** Every row of the table only matches a pair of one-symbol spans. *)
Lemma predicate_single_symbol (x : Predicate) (e p : str) :
  x ∈ predicate_table → x.1.1.1.1 e p = true →
  length e = 1 ∧ length p = 1.
Proof.
  unfold predicate_table. intros Hx Hm.
  rewrite !elem_of_cons, elem_of_nil in Hx.
  destruct Hx as [->|[->|[->|[->|[->|[->|[]]]]]]]; cbn [fst] in Hm.
  - unfold is_gliding in Hm. single_symbol.
  - unfold is_stopping in Hm. single_symbol.
  - unfold is_fronting in Hm. single_symbol.
  - unfold is_backing in Hm. single_symbol.
  - unfold is_labialization in Hm. single_symbol.
  - unfold is_voicing in Hm. single_symbol.
Qed.

(** [first_match] is the first row, in table order, whose predicate holds. *)
Lemma first_match_is_first (e p : str) (x : Predicate) :
  first_match e p = Some x ↔
  ∃ i, predicate_table !! i = Some x ∧ x.1.1.1.1 e p = true
       ∧ ∀ j y, predicate_table !! j = Some y → j < i →
                y.1.1.1.1 e p ≠ true.
Proof.
  unfold first_match. split.
  - destruct (list_find _ predicate_table) as [[i y]|] eqn:E; [|done].
    simpl. intros [= ->]. exists i. by apply list_find_Some in E.
  - intros (i & H).
    apply (list_find_Some (λ x : Predicate, x.1.1.1.1 e p = true)) in H.
    by rewrite H.
Qed.

Lemma first_match_single_symbol (e p : str) (x : Predicate) :
  first_match e p = Some x → length e = 1 ∧ length p = 1.
Proof.
  intros H. apply first_match_is_first in H as (i & Hi & Hm & _).
  apply (predicate_single_symbol x); [|exact Hm].
  eapply list_elem_of_lookup_2; exact Hi.
Qed.

Lemma replace_patterns_of_cases (speech_rules : list RuleEntry) (diff : Diff) :
  replace_patterns_of speech_rules diff = []
  ∨ ∃ pred key cond sev suffix r rest,
      type diff = replace
      ∧ first_match (expected diff) (produced diff)
        = Some (pred, key, cond, sev, suffix)
      ∧ select speech_rules key = r :: rest
      ∧ replace_patterns_of speech_rules diff
        = [ mkPattern cond
              (expected diff ++ py "→" ++ produced diff ++ suffix)
              (Rule_mapping_example r) (Clinical_notes r)
              (Age_of_concern r) sev (Confidence_notes r) ].
Proof.
  unfold replace_patterns_of.
  destruct (bool_decide (type diff = replace)) eqn:Et; [|by left].
  apply bool_decide_eq_true in Et.
  destruct (first_match _ _) as [[[[[pred key] cond] sev] suffix]|] eqn:Ef;
    [|by left].
  destruct (select speech_rules key) as [|r rest] eqn:Es; [by left|].
  right. exists pred, key, cond, sev, suffix, r, rest. done.
Qed.

(** C2. Each difference adds at most one pattern in the replace loop: what
    a Replace difference adds is decided by the first row, in the fixed
    order Gliding, Stopping, Fronting, Backing, Labialization, Voicing
    Error, whose predicate matches its (expected, produced) pair, and is
    that row's single pattern or nothing; no difference adds two. *)
Theorem C2_first_predicate_wins (ops : list Diff) (rules : list RuleEntry) :
  identify_patterns ops rules
  = flat_map (replace_patterns_of rules) ops
    ++ deletion_patterns_of rules ops
  ∧ ((λ x : Predicate, x.1.1.1.1) <$> predicate_table)
    = [is_gliding; is_stopping; is_fronting; is_backing; is_labialization;
       is_voicing]
  ∧ ∀ diff : Diff,
      (∀ acc, replace_step rules acc diff
              = acc ++ replace_patterns_of rules diff)
      ∧ length (replace_patterns_of rules diff) ≤ 1
      ∧ (replace_patterns_of rules diff = []
         ∨ ∃ pred key cond sev suffix r rest,
             type diff = replace
             ∧ first_match (expected diff) (produced diff)
               = Some (pred, key, cond, sev, suffix)
             ∧ select rules key = r :: rest
             ∧ replace_patterns_of rules diff
               = [ mkPattern cond
                     (expected diff ++ py "→" ++ produced diff ++ suffix)
                     (Rule_mapping_example r) (Clinical_notes r)
                     (Age_of_concern r) sev (Confidence_notes r) ]).
Proof.
  split; [apply identify_patterns_split|].
  split; [reflexivity|].
  intros diff. split; [intros acc; apply replace_step_first_match|].
  split; [apply replace_patterns_of_length|].
  apply replace_patterns_of_cases.
Qed.

Lemma first_match_in_table (e p : str) (x : Predicate) :
  first_match e p = Some x → x ∈ predicate_table.
Proof.
  intros H. apply first_match_is_first in H as (i & Hi & _).
  eapply list_elem_of_lookup_2; exact Hi.
Qed.

Lemma first_deletion_app (l1 l2 : list Diff) :
  first_deletion (l1 ++ l2)
  = match first_deletion l1 with
    | Some d => Some d
    | None => first_deletion l2
    end.
Proof.
  induction l1 as [|d l1 IH]; [reflexivity|].
  rewrite <- app_comm_cons, !first_deletion_cons.
  destruct (_ && _); [reflexivity|exact IH].
Qed.

Lemma first_deletion_is_first (differences : list Diff) (diff : Diff) :
  first_deletion differences = Some diff ↔
  ∃ i, differences !! i = Some diff
       ∧ (type diff = delete ∧ expected diff ≠ [])
       ∧ ∀ j y, differences !! j = Some y → j < i →
                ¬ (type y = delete ∧ expected y ≠ []).
Proof.
  unfold first_deletion. split.
  - destruct (list_find _ differences) as [[i y]|] eqn:E; [|done].
    simpl. intros [= ->]. exists i. by apply list_find_Some in E.
  - intros (i & H).
    apply (list_find_Some (λ d, type d = delete ∧ expected d ≠ [])) in H.
    by rewrite H.
Qed.

Lemma filter_none {A} (P : A → Prop) `{∀ x, Decision (P x)} (l : list A) :
  (∀ x, x ∈ l → ¬ P x) → filter P l = [].
Proof.
  induction l as [|a l IH]; intros Hl; [reflexivity|].
  rewrite filter_cons_False by (apply Hl; left).
  apply IH. intros x Hx. apply Hl. by right.
Qed.

Lemma replace_patterns_not_deletion (rules : list RuleEntry) (diff : Diff)
    (x : Pattern) :
  x ∈ replace_patterns_of rules diff →
  condition x ≠ py "Final Consonant Deletion".
Proof.
  destruct (replace_patterns_of_cases rules diff)
    as [->|(pred & key & cond & sev & suffix & r & rest & _ & Hf & _ & ->)].
  - intros Hx. inversion Hx.
  - intros Hx. apply list_elem_of_singleton in Hx. subst x. simpl.
    apply first_match_in_table in Hf. unfold predicate_table in Hf.
    rewrite !elem_of_cons, elem_of_nil in Hf.
    destruct Hf as [Hf|[Hf|[Hf|[Hf|[Hf|[Hf|[]]]]]]];
      injection Hf as _ _ -> _ _; intros E; vm_compute in E; discriminate E.
Qed.

(** C3. The deletion loop adds at most one pattern per call, named Final
    Consonant Deletion and describing the first Delete difference with a
    non-empty expected span, and only if the table has that entry; nothing
    after that difference is looked at; the result is the replace-derived
    patterns in the order of the differences followed by that pattern. *)
Theorem C3_single_deletion_pattern (ops : list Diff)
    (rules : list RuleEntry) :
  identify_patterns ops rules
  = flat_map (replace_patterns_of rules) ops
    ++ deletion_patterns_of rules ops
  ∧ length (deletion_patterns_of rules ops) ≤ 1
  ∧ length (filter (λ x, condition x = py "Final Consonant Deletion")
              (identify_patterns ops rules)) ≤ 1
  ∧ (∀ acc, deletion_loop rules ops acc
            = acc ++ deletion_patterns_of rules ops)
  ∧ deletion_patterns_of rules ops
    = match first_deletion ops,
            select rules (py "Final Consonant Deletion") with
      | Some diff, r :: _ =>
        [ mkPattern (py "Final Consonant Deletion")
            (py "Omission of /" ++ expected diff ++ py "/")
            (Rule_mapping_example r) (Clinical_notes r) (Age_of_concern r)
            (py "Moderate") (Confidence_notes r) ]
      | _, _ => []
      end
  ∧ (∀ diff, first_deletion ops = Some diff ↔
       ∃ i, ops !! i = Some diff
            ∧ (type diff = delete ∧ expected diff ≠ [])
            ∧ ∀ j y, ops !! j = Some y → j < i →
                     ¬ (type y = delete ∧ expected y ≠ []))
  ∧ (∀ pre diff post,
       ops = pre ++ diff :: post →
       first_deletion pre = None →
       type diff = delete → expected diff ≠ [] →
       select rules (py "Final Consonant Deletion") ≠ [] →
       deletion_patterns_of rules ops
       = deletion_patterns_of rules (pre ++ [diff])
       ∧ length (deletion_patterns_of rules ops) = 1).
Proof.
  split; [apply identify_patterns_split|].
  split; [apply deletion_patterns_of_length|].
  split.
  { rewrite identify_patterns_split, filter_app, length_app.
    rewrite (filter_none _ (flat_map _ _)).
    - simpl. etrans; [apply length_filter|].
      apply deletion_patterns_of_length.
    - intros x Hx. apply list_elem_of_In, in_flat_map in Hx.
      destruct Hx as (d & _ & Hx). apply list_elem_of_In in Hx.
      by apply replace_patterns_not_deletion in Hx. }
  split; [intros acc; apply deletion_loop_first_deletion|].
  split.
  { unfold deletion_patterns_of.
    destruct (first_deletion ops); [|reflexivity].
    destruct (select rules _); reflexivity. }
  split; [intros diff; apply first_deletion_is_first|].
  intros pre diff post -> Hpre Ht He Hs.
  unfold deletion_patterns_of.
  rewrite !first_deletion_app, Hpre, !first_deletion_cons.
  unfold eqs.
  rewrite (bool_decide_eq_true_2 _ Ht), (bool_decide_eq_false_2 _ He).
  simpl. split; [reflexivity|].
  destruct (select rules _); [done|reflexivity].
Qed.

Lemma C3_single_deletion_pattern_witness :
  deletion_patterns_of [final_consonant_rule]
    ([mkDiff insert [] (py "x") 0] ++
     mkDiff delete (py "t") [] 2 :: [mkDiff delete (py "s") [] 5])
  = deletion_patterns_of [final_consonant_rule]
      ([mkDiff insert [] (py "x") 0] ++ [mkDiff delete (py "t") [] 2])
  ∧ length
      (deletion_patterns_of [final_consonant_rule]
         ([mkDiff insert [] (py "x") 0] ++
          mkDiff delete (py "t") [] 2 :: [mkDiff delete (py "s") [] 5]))
    = 1.
Proof.
  refine
    (proj2 (proj2 (proj2 (proj2 (proj2 (proj2
       (C3_single_deletion_pattern _ [final_consonant_rule]))))))
       [mkDiff insert [] (py "x") 0] (mkDiff delete (py "t") [] 2)
       [mkDiff delete (py "s") [] 5] _ _ _ _ _).
  - reflexivity.
  - reflexivity.
  - reflexivity.
  - vm_compute; discriminate.
  - vm_compute; discriminate.
Defined.

Lemma replace_patterns_of_considered (rules : list RuleEntry) (diff : Diff) :
  ¬ considered diff → replace_patterns_of rules diff = [].
Proof.
  intros Hn.
  destruct (replace_patterns_of_cases rules diff)
    as [H|(pred & key & cond & sev & suffix & r & rest & Ht & Hf & _)];
    [exact H|].
  exfalso. apply Hn. right. split; [exact Ht|].
  exact (first_match_single_symbol _ _ _ Hf).
Qed.

Lemma flat_map_filter_considered (rules : list RuleEntry) (ops : list Diff) :
  flat_map (replace_patterns_of rules) (filter considered ops)
  = flat_map (replace_patterns_of rules) ops.
Proof.
  induction ops as [|d ops IH]; [reflexivity|].
  rewrite filter_cons. destruct (decide (considered d)) as [Hc|Hc]; simpl.
  - by rewrite IH.
  - by rewrite IH, (replace_patterns_of_considered _ _ Hc).
Qed.

Lemma first_deletion_filter_considered (ops : list Diff) :
  first_deletion (filter considered ops) = first_deletion ops.
Proof.
  induction ops as [|d ops IH]; [reflexivity|].
  rewrite filter_cons, (first_deletion_cons d ops).
  destruct (decide (considered d)) as [Hc|Hc].
  - rewrite first_deletion_cons, IH. reflexivity.
  - rewrite IH. rewrite bool_decide_eq_false_2; [reflexivity|].
    intros Ht. apply Hc. by left.
Qed.

(** C4. Only Replace and Delete differences can produce a pattern: dropping
    every other difference, and every Replace difference whose expected or
    produced span is not a single symbol, leaves the result unchanged;
    Insert and Equal differences alone produce nothing; a Replace
    difference with a span longer than one symbol matches no predicate and
    leaves the list as it was. *)
Theorem C4_only_replace_and_delete (ops : list Diff)
    (rules : list RuleEntry) :
  identify_patterns ops rules
  = identify_patterns (filter considered ops) rules
  ∧ identify_patterns
      (filter (λ d, type d = insert ∨ type d = equal) ops) rules = []
  ∧ ∀ diff,
      type diff = replace →
      1 < length (expected diff) ∨ 1 < length (produced diff) →
      first_match (expected diff) (produced diff) = None
      ∧ Forall
          (λ x : Predicate, x.1.1.1.1 (expected diff) (produced diff) = false)
          predicate_table
      ∧ ∀ acc, replace_step rules acc diff = acc.
Proof.
  split.
  { rewrite !identify_patterns_split, flat_map_filter_considered.
    unfold deletion_patterns_of.
    by rewrite first_deletion_filter_considered. }
  split.
  { rewrite identify_patterns_split.
    induction ops as [|d ops IH]; [reflexivity|].
    rewrite filter_cons.
    destruct (decide (type d = insert ∨ type d = equal)) as [Hd|Hd];
      [|exact IH].
    simpl. unfold deletion_patterns_of in *.
    rewrite first_deletion_cons.
    unfold replace_patterns_of at 1.
    rewrite !bool_decide_eq_false_2; [exact IH|..];
      intros E; rewrite E in Hd; by destruct Hd. }
  intros diff Ht Hlen.
  assert (Hall : Forall
      (λ x : Predicate, x.1.1.1.1 (expected diff) (produced diff) = false)
      predicate_table).
  { apply Forall_forall. intros x Hx.
    destruct (x.1.1.1.1 (expected diff) (produced diff)) eqn:E; [|done].
    apply (predicate_single_symbol x _ _ Hx) in E. lia. }
  assert (Hnone : first_match (expected diff) (produced diff) = None).
  { destruct (first_match _ _) as [x|] eqn:E; [|done].
    apply first_match_single_symbol in E. lia. }
  split; [exact Hnone|]. split; [exact Hall|].
  intros acc. rewrite replace_step_first_match.
  unfold replace_patterns_of. rewrite Hnone.
  destruct (bool_decide _); apply app_nil_r.
Qed.

Lemma C4_only_replace_and_delete_witness :
  first_match (py "st") (py "t") = None
  ∧ Forall (λ x : Predicate, x.1.1.1.1 (py "st") (py "t") = false)
      predicate_table
  ∧ ∀ acc,
      replace_step [final_consonant_rule] acc
        (mkDiff replace (py "st") (py "t") 0) = acc.
Proof.
  refine
    (proj2 (proj2 (C4_only_replace_and_delete [] [final_consonant_rule]))
       (mkDiff replace (py "st") (py "t") 0) _ _).
  - reflexivity.
  - left. vm_compute. lia.
Defined.

Lemma append_pattern_snoc (rule : list RuleEntry) (cond pat sev : str)
    (acc : list Pattern) (x : Pattern) :
  append_pattern rule cond pat sev acc = acc ++ [x] →
  condition x = cond ∧ rule ≠ [].
Proof.
  rewrite append_pattern_app. intros H. apply app_inv_head in H.
  destruct (append_pattern_condition rule cond pat sev x) as (Hc & _ & _ & Hr);
    [rewrite H; left|done].
Qed.

(** None of the six looked-up names is "Voicing Error": a table whose rows
    all carry that name answers no lookup of the first loop. *)
Lemma replace_step_voicing_error_rows (rules : list RuleEntry)
    (acc : list Pattern) (diff : Diff) :
  (∀ r, r ∈ rules → Condition r = py "Voicing Error") →
  replace_step rules acc diff = acc.
Proof.
  intros Hall.
  assert (Hsel : ∀ key, key ≠ py "Voicing Error" → select rules key = []).
  { intros key Hkey. destruct (select rules key) as [|r rest] eqn:Es; [done|].
    assert (Hr : r ∈ select rules key) by (rewrite Es; left).
    unfold select in Hr. apply list_elem_of_filter in Hr as [Hc Hr].
    rewrite (Hall r Hr) in Hc. by subst key. }
  unfold replace_step. case_bool_decide; [|done]. cbn zeta.
  repeat (destruct (_ (expected diff) (produced diff));
          [rewrite Hsel; [done|intros E; vm_compute in E; discriminate E]|]).
  done.
Qed.

(** C9, as stated, fails: s→d satisfies the voicing predicate and the
    table has the row named "Voicing (Devoicing/Voicing Errors)", yet
    nothing is reported, because the stopping branch takes the pair first
    and looks up "Stopping". *)
Lemma C9_voicing_shadowed_counterexample :
  is_voicing (py "s") (py "d") = true
  ∧ Condition voicing_rule = py "Voicing (Devoicing/Voicing Errors)"
  ∧ identify_patterns [mkDiff replace (py "s") (py "d") 0] [voicing_rule]
    = []
  ∧ ¬ (∀ (rules : list RuleEntry) (diff : Diff),
         type diff = replace →
         is_voicing (expected diff) (produced diff) = true →
         ((∃ x, x ∈ identify_patterns [diff] rules
                ∧ condition x = py "Voicing Error")
          ↔ ∃ r, r ∈ rules
                 ∧ Condition r = py "Voicing (Devoicing/Voicing Errors)")).
Proof.
  split; [vm_compute; reflexivity|].
  split; [vm_compute; reflexivity|].
  assert (Hnone :
    identify_patterns [mkDiff replace (py "s") (py "d") 0] [voicing_rule]
    = []) by (vm_compute; reflexivity).
  split; [exact Hnone|].
  intros H.
  destruct (proj2 (H [voicing_rule] (mkDiff replace (py "s") (py "d") 0)
                     eq_refl ltac:(vm_compute; reflexivity)))
    as (x & Hx & _).
  - exists voicing_rule. split; [left|vm_compute; reflexivity].
  - cbn [expected produced] in Hx. rewrite Hnone in Hx. inversion Hx.
Qed.

(** C9, amended. For a Replace difference that satisfies the voicing
    predicate: if none of the five earlier branches takes it, the table is
    looked up under "Voicing (Devoicing/Voicing Errors)" and the pattern is
    reported under "Voicing Error"; a pattern named "Voicing Error" is
    appended exactly when no earlier branch takes the pair and the table
    has a row with the looked-up name; and a table whose rows are all named
    "Voicing Error" appends nothing. *)
Theorem C9_voicing_lookup_key (rules : list RuleEntry) (diff : Diff)
    (acc : list Pattern) :
  type diff = replace →
  is_voicing (expected diff) (produced diff) = true →
  (earlier_branch (expected diff) (produced diff) = false →
   replace_step rules acc diff
   = append_pattern
       (select rules (py "Voicing (Devoicing/Voicing Errors)"))
       (py "Voicing Error") (expected diff ++ py "→" ++ produced diff)
       (py "Mild") acc)
  ∧ ((∃ x, replace_step rules acc diff = acc ++ [x]
           ∧ condition x = py "Voicing Error")
     ↔ earlier_branch (expected diff) (produced diff) = false
       ∧ ∃ r, r ∈ rules
              ∧ Condition r = py "Voicing (Devoicing/Voicing Errors)")
  ∧ ((∀ r, r ∈ rules → Condition r = py "Voicing Error") →
     replace_step rules acc diff = acc).
Proof.
  intros Ht Hv.
  assert (Hstep :
    earlier_branch (expected diff) (produced diff) = false →
    replace_step rules acc diff
    = append_pattern
        (select rules (py "Voicing (Devoicing/Voicing Errors)"))
        (py "Voicing Error") (expected diff ++ py "→" ++ produced diff)
        (py "Mild") acc).
  { unfold earlier_branch. rewrite !orb_false_iff.
    intros [[[[H1 H2] H3] H4] H5]. unfold replace_step.
    rewrite (bool_decide_eq_true_2 _ Ht), H1, H2, H3, H4, H5, Hv.
    reflexivity. }
  split; [exact Hstep|].
  split; [|apply replace_step_voicing_error_rows].
  split.
  - intros (x & Hx & Hc).
    destruct (earlier_branch (expected diff) (produced diff)) eqn:He.
    + exfalso. unfold earlier_branch in He. unfold replace_step in Hx.
      rewrite (bool_decide_eq_true_2 _ Ht) in Hx. cbn zeta in Hx.
      repeat (destruct (_ (expected diff) (produced diff)) in He, Hx;
              [apply append_pattern_snoc in Hx as [Hx _];
               rewrite Hx in Hc; vm_compute in Hc; discriminate Hc|]).
      discriminate He.
    + split; [done|]. rewrite (Hstep eq_refl) in Hx.
      apply append_pattern_snoc in Hx as [_ Hne].
      by apply select_nonempty.
  - intros [He Hr]. rewrite (Hstep He).
    apply select_nonempty in Hr.
    destruct (select rules (py "Voicing (Devoicing/Voicing Errors)"))
      as [|r rest]; [done|].
    eexists. split; reflexivity.
Qed.

Lemma C9_voicing_lookup_key_witness :
  ∃ x, replace_step [voicing_rule] []
         (mkDiff replace (py "t") (py "d") 0) = [] ++ [x]
       ∧ condition x = py "Voicing Error".
Proof.
  apply (proj1 (proj2 (C9_voicing_lookup_key [voicing_rule]
                         (mkDiff replace (py "t") (py "d") 0) []
                         eq_refl eq_refl))).
  split; [vm_compute; reflexivity|].
  exists voicing_rule. split; [left|vm_compute; reflexivity].
Defined.

Lemma select_fallback :
  Forall (λ x : Predicate, select fallback_speech_rules x.1.1.1.2 = [])
    predicate_table
  ∧ select fallback_speech_rules (py "Final Consonant Deletion") = [].
Proof.
  split; [unfold predicate_table; repeat constructor|];
    vm_compute; reflexivity.
Qed.

(** C10. With the fallback table (the two conditions Articulation Disorder
    and Phonological Disorder) the classifier returns the empty list for
    every list of differences. *)
Theorem C10_fallback_table_no_patterns (ops : list Diff) :
  identify_patterns ops (load_speech_rules None) = []
  ∧ Condition <$> load_speech_rules None
    = [py "Articulation Disorder"; py "Phonological Disorder"].
Proof.
  cbn [load_speech_rules].
  split; [|reflexivity].
  destruct select_fallback as [Hkeys Hfcd].
  rewrite identify_patterns_split.
  assert (Hdel : deletion_patterns_of fallback_speech_rules ops = []).
  { unfold deletion_patterns_of. rewrite Hfcd.
    destruct (first_deletion ops); reflexivity. }
  rewrite Hdel, app_nil_r. clear Hdel.
  induction ops as [|d ops IH]; [reflexivity|].
  cbn [flat_map]. rewrite IH, app_nil_r.
  destruct (replace_patterns_of_cases fallback_speech_rules d)
    as [H|(pred & key & cond & sev & suffix & r & rest & _ & Hf & Hs & _)];
    [exact H|].
  exfalso. apply first_match_in_table in Hf.
  rewrite Forall_forall in Hkeys. specialize (Hkeys _ Hf).
  cbn [fst snd] in Hkeys. rewrite Hkeys in Hs. discriminate Hs.
Qed.

(** C8. Expected /kæt/ against produced /tæt/ aligns to the single
    difference Replace at position 0 with expected span k and produced span
    t, and with a table that has a "Fronting (Velar Fronting)" row the
    classifier returns exactly one pattern for it: condition "Fronting
    (Velar Fronting)", description k→t, severity Moderate, the display
    fields being those of the first such row. *)
Theorem C8_kat_tat_fronting (rules : list RuleEntry) :
  (∃ r, r ∈ rules ∧ Condition r = py "Fronting (Velar Fronting)") →
  compare_ipa_transcriptions (py "/tæt/") (py "/kæt/")
  = Some ([mkDiff replace (py "k") (py "t") 0], round64 (4 # 6))
  ∧ ∃ r rest,
      select rules (py "Fronting (Velar Fronting)") = r :: rest
      ∧ identify_patterns [mkDiff replace (py "k") (py "t") 0] rules
        = [ mkPattern (py "Fronting (Velar Fronting)") (py "k→t")
              (Rule_mapping_example r) (Clinical_notes r)
              (Age_of_concern r) (py "Moderate") (Confidence_notes r) ].
Proof.
  intros Hr. split; [vm_compute; reflexivity|].
  apply select_nonempty in Hr.
  destruct (select rules (py "Fronting (Velar Fronting)"))
    as [|r rest] eqn:Es; [done|].
  exists r, rest. split; [reflexivity|].
  unfold identify_patterns. cbn [fold_left deletion_loop].
  unfold replace_step. cbn [type expected produced].
  change (is_gliding (py "k") (py "t")) with false.
  change (is_stopping (py "k") (py "t")) with false.
  change (is_fronting (py "k") (py "t")) with true.
  rewrite Es. reflexivity.
Qed.

Lemma C8_kat_tat_fronting_witness :
  compare_ipa_transcriptions (py "/tæt/") (py "/kæt/")
  = Some ([mkDiff replace (py "k") (py "t") 0], round64 (4 # 6))
  ∧ ∃ r rest,
      select [voicing_error_rule; fronting_rule]
        (py "Fronting (Velar Fronting)") = r :: rest
      ∧ identify_patterns [mkDiff replace (py "k") (py "t") 0]
          [voicing_error_rule; fronting_rule]
        = [ mkPattern (py "Fronting (Velar Fronting)") (py "k→t")
              (Rule_mapping_example r) (Clinical_notes r)
              (Age_of_concern r) (py "Moderate") (Confidence_notes r) ].
Proof.
  apply (C8_kat_tat_fronting [voicing_error_rule; fronting_rule]).
  exists fronting_rule. split; [|reflexivity].
  rewrite !elem_of_cons. right; left; reflexivity.
Defined.

End ClassifierProperties.

(** ** The scorer and a missing configuration *)

Section MissingConfig.

Local Open Scope Q_scope.

(** C7, as stated, fails: the scorer given a configuration without
    thresholds does not fall back to the defaults, the call fails. *)
Lemma C7_absent_config_counterexample :
  calculate_confidence_level (float_lit 0.9) ∅ = KeyError "high_confidence"
  ∧ calculate_confidence_level (float_lit 0.9) load_sensitivity_config
    = Ok (py "High Confidence", py "success")
  ∧ ¬ (∀ s, calculate_confidence_level s ∅
            = calculate_confidence_level s load_sensitivity_config).
Proof.
  split; [vm_compute; reflexivity|].
  split; [vm_compute; reflexivity|].
  intros H. specialize (H (float_lit 0.9)).
  vm_compute in H. discriminate H.
Qed.

(** C7, amended. The configuration is never absent: the loader takes no
    input and always holds the thresholds 0.85, 0.65 and 0.45, and scoring
    with it succeeds for every score.  The scorer has no fallback of its
    own: without the key it reads first, the call fails. *)
Theorem C7_defaults_always_supplied (s : Q) :
  load_sensitivity_config !! "high_confidence" = Some (float_lit 0.85)
  ∧ load_sensitivity_config !! "moderate_confidence" = Some (float_lit 0.65)
  ∧ load_sensitivity_config !! "low_confidence" = Some (float_lit 0.45)
  ∧ (∃ r, calculate_confidence_level s load_sensitivity_config = Ok r)
  ∧ ∀ config : gmap string Q,
      calculate_confidence_level s (base.delete "high_confidence" config)
      = KeyError "high_confidence".
Proof.
  split; [vm_compute; reflexivity|].
  split; [vm_compute; reflexivity|].
  split; [vm_compute; reflexivity|].
  split.
  - rewrite calculate_confidence_level_default.
    destruct (ge s _); [eauto|].
    destruct (ge s _); [eauto|].
    destruct (ge s _); eauto.
  - intros config. unfold calculate_confidence_level, getitem.
    rewrite lookup_delete_eq. reflexivity.
Qed.

End MissingConfig.

(** ** The matcher stays inside the range it is given *)

Section MatcherRanges.

Variables a b : str.

Lemma j2len_bounded_empty (alo blo bhi i : nat) :
  j2len_bounded alo blo bhi i ∅.
Proof. intros z v Hz. by rewrite lookup_empty in Hz. Qed.

Lemma j2len_get_bounded (alo blo bhi i : nat) (j2len : gmap Z nat)
    (j : nat) :
  j2len_bounded alo blo bhi i j2len → blo ≤ j →
  default 0 (j2len !! (Z.of_nat j - 1)%Z) + blo ≤ j
  ∧ default 0 (j2len !! (Z.of_nat j - 1)%Z) + alo ≤ Nat.max i alo.
Proof.
  intros HL Hj.
  destruct (j2len !! (Z.of_nat j - 1)%Z) as [v|] eqn:E; simpl; [|lia].
  destruct (HL _ _ E) as (j' & Hz & Hr & Hv1 & Hv2). lia.
Qed.

Lemma row_loop_range (alo blo bhi i : nat) (j2len : gmap Z nat)
    (js : list nat) (newj2len : gmap Z nat) (best : difflib.Match) :
  alo ≤ i →
  j2len_bounded alo blo bhi i j2len →
  j2len_bounded alo blo bhi (S i) newj2len →
  in_range alo (S i) blo bhi best →
  j2len_bounded alo blo bhi (S i)
    (difflib.row_loop blo bhi i j2len js newj2len best).1
  ∧ in_range alo (S i) blo bhi
      (difflib.row_loop blo bhi i j2len js newj2len best).2.
Proof.
  intros Hi HL. revert newj2len best.
  induction js as [|j js IH]; intros newj2len best Hnew Hbest;
    cbn [difflib.row_loop]; [done|].
  case_bool_decide as Hlo; [by apply IH|].
  case_bool_decide as Hhi; [done|].
  destruct (j2len_get_bounded alo blo bhi i j2len j HL) as [Hk1 Hk2];
    [lia|].
  set (k := default 0 (j2len !! (Z.of_nat j - 1)%Z) + 1) in *.
  apply IH.
  - intros z v. rewrite lookup_insert.
    case_decide as Hz.
    + intros [= <-]. exists j. subst k. lia.
    + apply Hnew.
  - case_bool_decide; [|done].
    unfold in_range; subst k; simpl. lia.
Qed.

Lemma rows_range alo blo bhi n : ∀ i st,
  alo ≤ i →
  j2len_bounded alo blo bhi i st.1 →
  in_range alo i blo bhi st.2 →
  in_range alo (i + n) blo bhi
    (fold_left (difflib.row_step a b blo bhi) (seq i n) st).2.
Proof.
  induction n as [|n IH]; intros i st Hi HL Hbest; simpl.
  - by rewrite Nat.add_0_r.
  - replace (i + S n) with (S i + n) by lia.
    assert (Hb' : in_range alo (S i) blo bhi st.2)
      by (unfold in_range in *; lia).
    destruct (row_loop_range alo blo bhi i st.1 (difflib.b2j_get a b i)
                ∅ st.2 Hi HL) as [H1 H2]; [|exact Hb'|].
    { apply j2len_bounded_empty. }
    apply IH; [lia|exact H1|exact H2].
Qed.

Lemma extend_left_range junk alo ahi blo bhi besti : ∀ bestj bestsize,
  in_range alo ahi blo bhi (besti, bestj, bestsize) →
  in_range alo ahi blo bhi
    (difflib.extend_left a b junk alo blo besti bestj bestsize).
Proof.
  induction besti as [|i' IH]; intros bestj bestsize Hr; [done|].
  destruct bestj as [|j']; [done|].
  cbn [difflib.extend_left].
  destruct (_ && _) eqn:E; [|done].
  rewrite !andb_true_iff, !bool_decide_eq_true in E.
  apply IH. unfold in_range in *; simpl in *. lia.
Qed.

Lemma extend_right_range junk ahi bhi besti bestj n : ∀ bestsize,
  besti + bestsize ≤ ahi → bestj + bestsize ≤ bhi →
  bestsize ≤ difflib.extend_right a b junk ahi bhi besti bestj n bestsize
  ∧ besti
    + difflib.extend_right a b junk ahi bhi besti bestj n bestsize ≤ ahi
  ∧ bestj
    + difflib.extend_right a b junk ahi bhi besti bestj n bestsize ≤ bhi.
Proof.
  induction n as [|n IH]; intros bestsize Ha Hb; simpl; [lia|].
  destruct (_ && _) eqn:E; [|lia].
  rewrite !andb_true_iff, !bool_decide_eq_true in E.
  destruct (IH (bestsize + 1)) as (H1 & H2 & H3); lia.
Qed.

Lemma extend_range junk alo ahi blo bhi m :
  in_range alo ahi blo bhi m →
  in_range alo ahi blo bhi (difflib.extend a b junk alo ahi blo bhi m)
  ∧ m.2 ≤ (difflib.extend a b junk alo ahi blo bhi m).2.
Proof.
  intros Hr. unfold difflib.extend.
  destruct m as [[mi mj] mk].
  pose proof (extend_left_range junk alo ahi blo bhi mi mj mk Hr) as Hl.
  assert (Hk : mk ≤ (difflib.extend_left a b junk alo blo mi mj mk).2).
  { clear. revert mj mk. induction mi as [|i' IH]; intros mj mk; [done|].
    destruct mj as [|j']; [done|]. cbn [difflib.extend_left].
    destruct (_ && _); [|done]. etrans; [|apply IH]. lia. }
  cbn [fst snd] in *.
  destruct (difflib.extend_left a b junk alo blo mi mj mk)
    as [[besti bestj] bestsize].
  unfold in_range in *; cbn [fst snd] in *.
  destruct (extend_right_range junk ahi bhi besti bestj
              (ahi - (besti + bestsize)) bestsize) as (H1 & H2 & H3);
    lia.
Qed.

Lemma find_longest_match_range alo ahi blo bhi :
  alo ≤ ahi → blo ≤ bhi →
  in_range alo ahi blo bhi (difflib.find_longest_match a b alo ahi blo bhi).
Proof.
  intros Ha Hb. unfold difflib.find_longest_match.
  apply extend_range, extend_range.
  replace ahi with (alo + (ahi - alo)) at 1 by lia.
  apply rows_range; [lia| |].
  - apply j2len_bounded_empty.
  - unfold in_range; simpl; lia.
Qed.

End MatcherRanges.

(** ** The matcher's loop ends within its bound *)

Section MatcherTotal.

Variables a b : str.

Lemma blocks_loop_total (fuel : nat) :
  ∀ (queue : list (nat * nat * nat * nat)) (acc : list difflib.Match),
    Forall range_ok queue → queue_weight queue ≤ fuel →
    is_Some (difflib.blocks_loop a b fuel queue acc).
Proof.
  induction fuel as [|fuel IH]; intros queue acc Hok Hw.
  - destruct queue as [|[[[alo ahi] blo] bhi] queue]; [by eexists|].
    unfold queue_weight in Hw. cbn [sum_list_with] in Hw.
    unfold range_weight in Hw at 1. cbn [fst snd] in Hw. lia.
  - destruct queue as [|[[[alo ahi] blo] bhi] queue]; [by eexists|].
    apply Forall_cons in Hok as [[Ha Hb] Hok]. cbn [fst snd] in Ha, Hb.
    unfold queue_weight in Hw. cbn [sum_list_with] in Hw.
    unfold range_weight in Hw at 1. cbn [fst snd] in Hw.
    cbn [difflib.blocks_loop].
    pose proof (find_longest_match_range a b alo ahi blo bhi Ha Hb) as Hr.
    destruct (difflib.find_longest_match a b alo ahi blo bhi)
      as [[i j] k].
    unfold in_range in Hr. cbn [fst snd] in Hr.
    case_bool_decide as Hk; [|apply IH; [exact Hok|unfold queue_weight; lia]].
    apply IH.
    + repeat case_bool_decide; cbn [andb];
        repeat (apply Forall_cons; split); try exact Hok;
        unfold range_ok; cbn [fst snd]; lia.
    + unfold queue_weight.
      repeat case_bool_decide; cbn [andb sum_list_with];
        unfold range_weight in *; cbn [fst snd]; lia.
Qed.

Lemma get_matching_blocks_total :
  is_Some (difflib.get_matching_blocks a b).
Proof.
  unfold difflib.get_matching_blocks.
  destruct (blocks_loop_total (2 * length a + 1)
              [(0, length a, 0, length b)] []) as [blocks ->].
  - repeat constructor; unfold range_ok; simpl; lia.
  - unfold queue_weight, range_weight; simpl; lia.
  - by eexists.
Qed.

End MatcherTotal.

(** Alignment returns for every pair of strings: the similarity is the
    ratio of the matched characters of its own direction. *)
Lemma compare_ipa_transcriptions_total (produced_ipa expected_ipa : str) :
  ∃ blocks differences,
    difflib.get_matching_blocks (strip (py "/") expected_ipa)
      (strip (py "/") produced_ipa) = Some blocks
    ∧ compare_ipa_transcriptions produced_ipa expected_ipa
      = Some (differences,
              difflib._calculate_ratio (difflib.matches blocks)
                (length (strip (py "/") expected_ipa)
                 + length (strip (py "/") produced_ipa))).
Proof.
  destruct (get_matching_blocks_total (strip (py "/") expected_ipa)
              (strip (py "/") produced_ipa)) as [blocks Hb].
  exists blocks. eexists. split; [exact Hb|].
  unfold compare_ipa_transcriptions, difflib.get_opcodes, difflib.ratio.
  rewrite Hb. reflexivity.
Qed.

(** ** What [__chain_b] builds *)

Section ChainB.

Lemma filter_ext_elem {A} (P Q : A → Prop) `{∀ x, Decision (P x)}
    `{∀ x, Decision (Q x)} (l : list A) :
  (∀ x, x ∈ l → (P x ↔ Q x)) → filter P l = filter Q l.
Proof.
  induction l as [|x l IH]; intros Hl; [reflexivity|].
  rewrite !filter_cons.
  rewrite IH by (intros y Hy; apply Hl; by right).
  destruct (decide (P x)) as [Hp|Hp], (decide (Q x)) as [Hq|Hq];
    try reflexivity; exfalso; apply (Hl x (list_elem_of_here _ _)) in Hp
    || apply (Hl x (list_elem_of_here _ _)) in Hq; contradiction.
Qed.

Lemma occurrences_snoc (c x : char) (s : str) :
  occurrences c (s ++ [x])
  = occurrences c s ++ (if bool_decide (x = c) then [length s] else []).
Proof.
  unfold occurrences.
  rewrite length_app. cbn [length].
  rewrite seq_app, filter_app. cbn [seq Nat.add].
  f_equal.
  - apply filter_ext_elem. intros j Hj. apply elem_of_seq in Hj.
    cbv beta. rewrite lookup_app_l by lia. reflexivity.
  - rewrite filter_cons, filter_nil.
    rewrite list_lookup_middle by reflexivity.
    destruct (decide (Some x = Some c)) as [E|E]; case_bool_decide;
      congruence.
Qed.

Lemma b2j_indices_snoc (x : char) (s : str) :
  difflib.b2j_indices (s ++ [x])
  = <[x := default [] (difflib.b2j_indices s !! x) ++ [length s]]>
      (difflib.b2j_indices s).
Proof.
  unfold difflib.b2j_indices.
  rewrite imap_app, fold_left_app. cbn [imap fold_left].
  rewrite Nat.add_0_r. reflexivity.
Qed.

Lemma b2j_indices_default (s : str) (c : char) :
  default [] (difflib.b2j_indices s !! c) = occurrences c s.
Proof.
  induction s as [|x s IH] using rev_ind; [reflexivity|].
  rewrite b2j_indices_snoc, occurrences_snoc, lookup_insert.
  case_decide as E; case_bool_decide; try congruence.
  - subst x. simpl. by rewrite IH.
  - by rewrite app_nil_r.
Qed.

Lemma b2j_get_cases (a b : str) (i : nat) (c : char) :
  a !! i = Some c →
  difflib.b2j_get a b i = []
  ∨ difflib.b2j_get a b i = occurrences c b.
Proof.
  intros Hi. unfold difflib.b2j_get. rewrite Hi.
  destruct (difflib.b2j b !! c) as [l|] eqn:E; [|by left].
  right. unfold difflib.b2j in E.
  apply map_lookup_filter_Some in E as [E _].
  rewrite <- b2j_indices_default, E. reflexivity.
Qed.

Lemma occurrences_split (s : str) (i : nat) (c : char) :
  s !! i = Some c →
  occurrences c s
  = filter (λ j, s !! j = Some c) (seq 0 i)
    ++ i :: filter (λ j, s !! j = Some c) (seq (S i) (length s - S i)).
Proof.
  intros Hi. unfold occurrences.
  pose proof (lookup_lt_Some _ _ _ Hi) as Hlt.
  replace (length s) with (i + S (length s - S i)) at 1 by lia.
  rewrite seq_app, filter_app. cbn [seq Nat.add].
  rewrite filter_cons_True by exact Hi. reflexivity.
Qed.

End ChainB.

(** ** A string matched against itself *)

Section SelfMatch.

Variable s : str.

Lemma run_unfold (x : nat) :
  run s x = if keyed s x then S (prev_run s x) else 0.
Proof. destruct x; reflexivity. Qed.

Lemma run_le (x : nat) : run s x ≤ S x.
Proof.
  induction x as [|x IH]; rewrite run_unfold; destruct (keyed s _);
    simpl; lia.
Qed.

Lemma keyed_get (i : nat) :
  keyed s i = true →
  ∃ c, s !! i = Some c ∧ difflib.b2j_get s s i = occurrences c s.
Proof.
  unfold keyed. intros H. apply bool_decide_eq_true in H.
  destruct (s !! i) as [c|] eqn:E.
  - exists c. split; [reflexivity|].
    by destruct (b2j_get_cases s s i c E) as [H'|H'].
  - exfalso. apply H. unfold difflib.b2j_get. by rewrite E.
Qed.

Lemma keyed_same (i j : nat) :
  keyed s i = true → s !! j = s !! i → keyed s j = true.
Proof.
  unfold keyed, difflib.b2j_get. intros H E. by rewrite E.
Qed.

Lemma cell_bound (i j : nat) (j2len : gmap Z nat) :
  j2len_runs s (prev_run s i) j2len → keyed s i = true → keyed s j = true →
  default 0 (j2len !! (Z.of_nat j - 1)%Z) + 1 ≤ run s j
  ∧ default 0 (j2len !! (Z.of_nat j - 1)%Z) + 1 ≤ run s i.
Proof.
  intros HL Hi Hj.
  rewrite (run_unfold j), (run_unfold i), Hi, Hj.
  destruct (j2len !! (Z.of_nat j - 1)%Z) as [v|] eqn:E; simpl; [|lia].
  destruct (HL _ _ E) as (j' & Hz & Hv1 & Hv2).
  assert (j = S j') as -> by lia. simpl. lia.
Qed.

Lemma row_loop_off_diagonal (i : nat) (j2len : gmap Z nat) :
  j2len_runs s (prev_run s i) j2len → keyed s i = true →
  ∀ (js : list nat) (newj2len : gmap Z nat) (best : difflib.Match),
    Forall (λ j, j < length s ∧ s !! j = s !! i ∧ j ≠ i
                 ∧ Nat.min (run s j) (run s i) ≤ best.2) js →
    j2len_runs s (run s i) newj2len →
    (difflib.row_loop 0 (length s) i j2len js newj2len best).2 = best
    ∧ j2len_runs s (run s i)
        (difflib.row_loop 0 (length s) i j2len js newj2len best).1
    ∧ (difflib.row_loop 0 (length s) i j2len js newj2len best).1
        !! Z.of_nat i = newj2len !! Z.of_nat i.
Proof.
  intros HL Hi. induction js as [|j js IH]; intros newj2len best Hjs Hnew;
    cbn [difflib.row_loop]; [done|].
  apply Forall_cons in Hjs as [(Hlt & Hsame & Hne & Hmin) Hjs].
  rewrite bool_decide_eq_false_2 by lia.
  rewrite bool_decide_eq_false_2 by lia.
  destruct (cell_bound i j j2len HL Hi (keyed_same i j Hi Hsame))
    as [Hk1 Hk2].
  rewrite bool_decide_eq_false_2 by lia.
  destruct (IH (<[Z.of_nat j := default 0 (j2len !! (Z.of_nat j - 1)%Z) + 1]>
                  newj2len) best Hjs) as (H1 & H2 & H3).
  - intros z v. rewrite lookup_insert. case_decide as Hz; [|apply Hnew].
    intros [= <-]. exists j. done.
  - split; [exact H1|]. split; [exact H2|].
    rewrite H3. apply lookup_insert_ne. lia.
Qed.

Lemma row_loop_app (blo bhi i : nat) (j2len : gmap Z nat)
    (js1 js2 : list nat) :
  Forall (λ j, j < bhi) js1 →
  ∀ (newj2len : gmap Z nat) (best : difflib.Match),
    difflib.row_loop blo bhi i j2len (js1 ++ js2) newj2len best
    = difflib.row_loop blo bhi i j2len js2
        (difflib.row_loop blo bhi i j2len js1 newj2len best).1
        (difflib.row_loop blo bhi i j2len js1 newj2len best).2.
Proof.
  induction js1 as [|j js1 IH]; intros Hjs newj2len best; [reflexivity|].
  apply Forall_cons in Hjs as [Hj Hjs].
  cbn [app difflib.row_loop].
  case_bool_decide; [by apply IH|].
  rewrite bool_decide_eq_false_2 by lia.
  by apply IH.
Qed.

Lemma row_step_self (i : nat) (st : gmap Z nat * difflib.Match) :
  i < length s → self_invariant s i st →
  self_invariant s (S i) (difflib.row_step s s 0 (length s) st i).
Proof.
  intros Hi (HL & Hd & Hb1 & Hb2 & Hb3).
  unfold difflib.row_step, self_invariant. cbn [prev_run].
  destruct (keyed s i) eqn:Hk.
  - destruct (keyed_get i Hk) as (c & Hc & Hget).
    rewrite Hget, (occurrences_split s i c Hc), row_loop_app.
    2:{ apply Forall_forall. intros j Hj.
        apply list_elem_of_filter in Hj as [_ Hj].
        apply elem_of_seq in Hj. lia. }
    destruct (row_loop_off_diagonal i st.1 HL Hk
                (filter (λ j, s !! j = Some c) (seq 0 i)) ∅ st.2)
      as (E1 & L1 & _).
    { apply Forall_forall. intros j Hj.
      apply list_elem_of_filter in Hj as [Hj1 Hj2].
      apply elem_of_seq in Hj2.
      repeat split; [lia|congruence|lia|].
      etrans; [apply Nat.le_min_l|]. apply Hb3. lia. }
    { intros z v Hz. by rewrite lookup_empty in Hz. }
    rewrite E1.
    set (new1 := (difflib.row_loop 0 (length s) i st.1 _ ∅ st.2).1) in *.
    cbn [difflib.row_loop].
    rewrite bool_decide_eq_false_2 by lia.
    rewrite bool_decide_eq_false_2 by lia.
    rewrite Hd.
    assert (Hrun : prev_run s i + 1 = run s i)
      by (rewrite (run_unfold i), Hk; lia).
    rewrite Hrun.
    pose proof (run_le i) as Hle.
    set (best' := if bool_decide (st.2.2 < run s i)
                  then (i + 1 - run s i, i + 1 - run s i, run s i) else st.2).
    assert (Hbest' : best_diagonal s (S i) best').
    { subst best'. unfold best_diagonal.
      case_bool_decide as Hlt; cbn [fst snd].
      - split; [reflexivity|]. split; [lia|].
        intros x Hx. destruct (decide (x = i)) as [->|]; [lia|].
        etrans; [apply Hb3; lia|lia].
      - split; [exact Hb1|]. split; [lia|].
        intros x Hx. destruct (decide (x = i)) as [->|]; [lia|].
        apply Hb3; lia. }
    destruct (row_loop_off_diagonal i st.1 HL Hk
                (filter (λ j, s !! j = Some c)
                   (seq (S i) (length s - S i)))
                (<[Z.of_nat i := run s i]> new1) best')
      as (E2 & L2 & D2).
    { apply Forall_forall. intros j Hj.
      apply list_elem_of_filter in Hj as [Hj1 Hj2].
      apply elem_of_seq in Hj2.
      repeat split; [lia|congruence|lia|].
      etrans; [apply Nat.le_min_r|].
      destruct Hbest' as (_ & _ & H). apply H. lia. }
    { intros z v. rewrite lookup_insert. case_decide as Hz; [|apply L1].
      intros [= <-]. exists i. done. }
    split; [exact L2|]. split; [|by rewrite E2].
    unfold diagonal_entry. cbn [prev_run].
    replace (Z.of_nat (S i) - 1)%Z with (Z.of_nat i) by lia.
    rewrite D2, lookup_insert_eq. reflexivity.
  - assert (Hget : difflib.b2j_get s s i = []).
    { unfold keyed in Hk. apply bool_decide_eq_false in Hk.
      by destruct (difflib.b2j_get s s i); [|exfalso; apply Hk]. }
    assert (Hrun : run s i = 0) by (rewrite run_unfold, Hk; reflexivity).
    rewrite Hget. cbn [difflib.row_loop fst snd]. rewrite Hrun.
    split; [intros z v Hz; by rewrite lookup_empty in Hz|].
    split; [unfold diagonal_entry; cbn [prev_run];
            by rewrite lookup_empty, Hrun|].
    split; [exact Hb1|]. split; [lia|].
    intros x Hx. destruct (decide (x = i)) as [->|]; [lia|].
    apply Hb3; lia.
Qed.

Lemma rows_self (m : nat) :
  ∀ (i : nat) (st : gmap Z nat * difflib.Match),
    i + m ≤ length s → self_invariant s i st →
    self_invariant s (i + m)
      (fold_left (difflib.row_step s s 0 (length s)) (seq i m) st).
Proof.
  induction m as [|m IH]; intros i st Hi Hinv; cbn [seq fold_left].
  - by rewrite Nat.add_0_r.
  - replace (i + S m) with (S i + m) by lia.
    apply IH; [lia|]. apply row_step_self; [lia|exact Hinv].
Qed.

Lemma same_diagonal (x : nat) : x < length s → difflib.same s s x x = true.
Proof.
  intros Hx. unfold difflib.same.
  destruct (lookup_lt_is_Some_2 s x Hx) as [c ->].
  by apply bool_decide_eq_true.
Qed.

Lemma junk_at_false (x : nat) : difflib.junk_at s x = false.
Proof. unfold difflib.junk_at. destruct (s !! x); reflexivity. Qed.

Lemma extend_left_diagonal (d : nat) :
  ∀ size, d + size ≤ length s →
    difflib.extend_left s s false 0 0 d d size = (0, 0, size + d).
Proof.
  induction d as [|d IH]; intros size Hd; cbn [difflib.extend_left].
  - by rewrite Nat.add_0_r.
  - rewrite junk_at_false, same_diagonal by lia.
    rewrite !bool_decide_eq_true_2 by (reflexivity || lia). cbn [andb].
    rewrite IH by lia. f_equal. lia.
Qed.

Lemma extend_right_diagonal (n : nat) :
  ∀ size, size + n = length s →
    difflib.extend_right s s false (length s) (length s) 0 0 n size
    = length s.
Proof.
  induction n as [|n IH]; intros size Hn; cbn [difflib.extend_right].
  - lia.
  - cbn [Nat.add]. rewrite junk_at_false, same_diagonal by lia.
    rewrite !bool_decide_eq_true_2 by (reflexivity || lia). cbn [andb].
    apply IH. lia.
Qed.

Lemma find_longest_match_self :
  difflib.find_longest_match s s 0 (length s) 0 (length s)
  = (0, 0, length s).
Proof.
  unfold difflib.find_longest_match.
  rewrite Nat.sub_0_r.
  destruct (rows_self (length s) 0 (∅, (0, 0, 0))) as (_ & _ & Hb).
  { lia. }
  { unfold self_invariant, diagonal_entry, best_diagonal.
    cbn [fst snd prev_run].
    split; [intros z v Hz; by rewrite lookup_empty in Hz|].
    split; [by rewrite lookup_empty|].
    split; [reflexivity|]. split; [lia|].
    intros x Hx. lia. }
  cbn [Nat.add] in Hb.
  destruct (fold_left _ _ _).2 as [[d d'] size].
  destruct Hb as (Hd & Hsize & _). cbn [fst snd] in Hd, Hsize. subst d'.
  unfold difflib.extend at 2. cbn [fst snd].
  rewrite extend_left_diagonal by lia.
  rewrite extend_right_diagonal by lia.
  unfold difflib.extend. cbn [fst snd difflib.extend_left].
  replace (length s - (0 + length s)) with 0 by lia.
  reflexivity.
Qed.

End SelfMatch.

(** ** Properties of the alignment *)

Section Alignment.

Lemma blocks_loop_nil (a b : str) (fuel : nat) (acc : list difflib.Match) :
  difflib.blocks_loop a b fuel [] acc = Some acc.
Proof. destruct fuel; reflexivity. Qed.

Lemma round64_Qeq (p q : Q) : (p == q)%Q → round64 p = round64 q.
Proof.
  intros H. unfold round64. rewrite (Qred_complete p q H). reflexivity.
Qed.

Lemma _calculate_ratio_all (n : nat) :
  difflib._calculate_ratio n (n + n) = 1%Q.
Proof.
  unfold difflib._calculate_ratio.
  case_bool_decide as Hn; [|reflexivity].
  rewrite (round64_Qeq _ 1); [vm_compute; reflexivity|].
  replace (2 * Z.of_nat n)%Z with (Z.of_nat (n + n)) by lia.
  apply Qmult_inv_r.
  unfold Qeq, inject_Z; cbn [Qnum Qden]. lia.
Qed.

Lemma get_matching_blocks_self (s : str) :
  difflib.get_matching_blocks s s
  = Some (if bool_decide (length s ≠ 0)
          then [(0, 0, length s); (length s, length s, 0)]
          else [(length s, length s, 0)]).
Proof.
  unfold difflib.get_matching_blocks.
  replace (2 * length s + 1) with (S (2 * length s)) by lia.
  cbn [difflib.blocks_loop].
  rewrite find_longest_match_self.
  case_bool_decide as Hn.
  - rewrite !bool_decide_eq_false_2 by lia. cbn [andb].
    rewrite blocks_loop_nil. cbn [mbind option_bind app].
    f_equal. unfold difflib.collapse.
    change (merge_sort difflib.Match_le [(0, 0, length s)])
      with [(0, 0, length s)].
    cbn [fold_left difflib.collapse_step].
    rewrite !bool_decide_eq_true_2 by reflexivity. cbn [andb].
    rewrite bool_decide_eq_true_2 by (cbn [Nat.add]; exact Hn).
    reflexivity.
  - rewrite blocks_loop_nil. reflexivity.
Qed.

(** C5. Aligning a string with itself (the delimiters stripped) gives
    similarity exactly 1.0 and no difference at all. *)
Theorem C5_align_self (ipa : str) :
  compare_ipa_transcriptions ipa ipa = Some ([], 1%Q).
Proof.
  unfold compare_ipa_transcriptions, difflib.get_opcodes, difflib.ratio.
  set (s := strip (py "/") ipa).
  rewrite get_matching_blocks_self.
  cbn [mbind option_bind].
  case_bool_decide as Hn.
  - cbn [fold_left difflib.opcode_step difflib.matches foldr fst snd].
    rewrite !bool_decide_eq_false_2 by lia. cbn [andb].
    rewrite bool_decide_eq_true_2 by exact Hn.
    rewrite !bool_decide_eq_false_2 by lia. cbn [andb app Nat.add].
    rewrite Nat.add_0_r, _calculate_ratio_all. reflexivity.
  - assert (length s = 0) as Hl by (destruct (length s); [done|lia]).
    rewrite Hl. reflexivity.
Qed.

(** C6, as stated, fails: swapping expected and produced changes the
    similarity of tide and diet (0.25 against 0.5). *)
Lemma C6_similarity_not_symmetric :
  snd <$> compare_ipa_transcriptions (py "/diet/") (py "/tide/")
  = Some (1 # 4)%Q
  ∧ snd <$> compare_ipa_transcriptions (py "/tide/") (py "/diet/")
    = Some (1 # 2)%Q
  ∧ ¬ (∀ A B : str,
         snd <$> compare_ipa_transcriptions B A
         = snd <$> compare_ipa_transcriptions A B).
Proof.
  split; [vm_compute; reflexivity|].
  split; [vm_compute; reflexivity|].
  intros H. specialize (H (py "/tide/") (py "/diet/")).
  vm_compute in H. discriminate H.
Qed.

End Alignment.

(** ** Further properties of the confidence scorer *)

Lemma label_rank_le (label : str) : label_rank label ≤ 3.
Proof.
  unfold label_rank.
  destruct (eqs label _); [lia|].
  destruct (eqs label _); [lia|].
  destruct (eqs label _); lia.
Qed.

Section ScorerMore.

Local Open Scope Q_scope.

(** The scorer fails exactly when the branch it reaches reads a missing
    threshold: a missing key that is not reached does no harm. *)
Theorem scorer_fails_only_on_reached_key (s : Q) (config : gmap string Q)
    (k : string) :
  calculate_confidence_level s config = KeyError k ↔
    (k = "high_confidence" ∧ config !! "high_confidence" = None)
    ∨ (k = "moderate_confidence"
       ∧ ∃ h, config !! "high_confidence" = Some h ∧ s < h
              ∧ config !! "moderate_confidence" = None)
    ∨ (k = "low_confidence"
       ∧ ∃ h m, config !! "high_confidence" = Some h ∧ s < h
                ∧ config !! "moderate_confidence" = Some m ∧ s < m
                ∧ config !! "low_confidence" = None).
Proof.
  unfold calculate_confidence_level, getitem.
  destruct (config !! "high_confidence") as [h|];
    cbn [mbind result_bind Py.bind].
  2:{ split; [intros [= <-]; by left|].
      intros [[-> _]|[(_ & h & Hh & _)|(_ & h & m & Hh & _)]]; done. }
  destruct (ge s h) eqn:Eh.
  { apply ge_true in Eh. split; [done|].
    intros [[_ H]|[(_ & h' & [= <-] & Hlt & _)
                  |(_ & h' & m & [= <-] & Hlt & _)]]; [done|..];
      exfalso; exact (Qlt_not_le _ _ Hlt Eh). }
  apply ge_false in Eh.
  destruct (config !! "moderate_confidence") as [m|];
    cbn [mbind result_bind Py.bind].
  2:{ split.
      - intros [= <-]. right; left. split; [done|]. by exists h.
      - intros [[_ H]|[(-> & _)|(_ & h' & m & _ & _ & Hm & _)]]; done. }
  destruct (ge s m) eqn:Em.
  { apply ge_true in Em. split; [done|].
    intros [[_ H]|[(_ & h' & _ & _ & H)
                  |(_ & h' & m' & _ & _ & [= <-] & Hlt & _)]]; [done..|].
    exfalso; exact (Qlt_not_le _ _ Hlt Em). }
  apply ge_false in Em.
  destruct (config !! "low_confidence") as [l|] eqn:El;
    cbn [mbind result_bind Py.bind].
  - split; [destruct (ge s l); done|].
    intros [[_ H]|[(_ & h' & _ & _ & H)
                  |(_ & h' & m' & _ & _ & _ & _ & H)]]; done.
  - split.
    + intros [= <-]. right; right. split; [done|]. by exists h, m.
    + by intros [[_ H]|[(_ & h' & _ & _ & H)|(-> & _)]].
Qed.

(** A higher score never gets a lower label, whatever the thresholds. *)
Theorem scorer_monotone (config : gmap string Q) (s s' : Q)
    (r r' : str * str) :
  s <= s' →
  calculate_confidence_level s config = Ok r →
  calculate_confidence_level s' config = Ok r' →
  (label_rank r.1 ≤ label_rank r'.1)%nat.
Proof.
  intros Hle. unfold calculate_confidence_level, getitem.
  destruct (config !! "high_confidence") as [h|];
    cbn [mbind result_bind Py.bind]; [|done].
  destruct (ge s' h) eqn:Eh'.
  { intros Hr [= <-]. cbn [fst].
    change (label_rank (py "High Confidence")) with 3%nat.
    apply label_rank_le. }
  apply ge_false in Eh'.
  rewrite (proj2 (ge_false s h)) by (eapply Qle_lt_trans; eassumption).
  destruct (config !! "moderate_confidence") as [m|];
    cbn [mbind result_bind Py.bind]; [|done].
  destruct (ge s' m) eqn:Em'.
  { intros Hr [= <-]. cbn [fst].
    change (label_rank (py "Moderate Confidence")) with 2%nat.
    destruct (ge s m); [injection Hr as <-; cbn [fst]; vm_compute; lia|].
    destruct (config !! "low_confidence") as [l|];
      cbn [mbind result_bind Py.bind] in Hr; [|done].
    destruct (ge s l); injection Hr as <-; cbn [fst]; vm_compute; lia. }
  apply ge_false in Em'.
  rewrite (proj2 (ge_false s m)) by (eapply Qle_lt_trans; eassumption).
  destruct (config !! "low_confidence") as [l|];
    cbn [mbind result_bind Py.bind]; [|done].
  destruct (ge s' l) eqn:El'.
  { intros Hr [= <-].
    destruct (ge s l); injection Hr as <-; cbn [fst]; vm_compute; lia. }
  apply ge_false in El'.
  rewrite (proj2 (ge_false s l)) by (eapply Qle_lt_trans; eassumption).
  intros [= <-] [= <-]. done.
Qed.

Lemma scorer_monotone_witness :
  (label_rank (py "Low Confidence") ≤ label_rank (py "High Confidence"))%nat.
Proof.
  apply (scorer_monotone load_sensitivity_config (1 # 2) (9 # 10)
           (py "Low Confidence", py "error")
           (py "High Confidence", py "success")).
  - vm_compute. discriminate.
  - vm_compute. reflexivity.
  - vm_compute. reflexivity.
Defined.

(** With a moderate threshold at or above the high one, no score is ever
    labelled Moderate Confidence: the tier is silently lost. *)
Theorem scorer_misordered_loses_tier (config : gmap string Q) (h m s : Q) :
  config !! "high_confidence" = Some h →
  config !! "moderate_confidence" = Some m →
  h <= m →
  calculate_confidence_level s config
  ≠ Ok (py "Moderate Confidence", py "warning").
Proof.
  intros Hh Hm Hle. unfold calculate_confidence_level, getitem.
  rewrite Hh; cbn [mbind result_bind Py.bind].
  destruct (ge s h) eqn:Eh; [intros E; vm_compute in E; discriminate E|].
  rewrite Hm; cbn [mbind result_bind Py.bind].
  apply ge_false in Eh.
  rewrite (proj2 (ge_false s m)) by (eapply Qlt_le_trans; eassumption).
  destruct (config !! "low_confidence") as [l|];
    cbn [mbind result_bind Py.bind]; [|done].
  destruct (ge s l); intros E; vm_compute in E; discriminate E.
Qed.

Lemma scorer_misordered_loses_tier_witness :
  calculate_confidence_level (7 # 10)
    (<["moderate_confidence" := 9 # 10]> load_sensitivity_config)
  ≠ Ok (py "Moderate Confidence", py "warning").
Proof.
  apply (scorer_misordered_loses_tier _ (float_lit 0.85) (9 # 10)).
  - vm_compute. reflexivity.
  - vm_compute. reflexivity.
  - vm_compute. discriminate.
Defined.

End ScorerMore.

(** ** Further properties of the classifier *)

Section ClassifierMore.

Arguments py : simpl never.

Lemma replace_patterns_of_other (rules : list RuleEntry) (diff : Diff) :
  type diff ≠ replace → replace_patterns_of rules diff = [].
Proof.
  intros H. unfold replace_patterns_of.
  by rewrite bool_decide_eq_false_2.
Qed.

Lemma flat_map_replace_length (rules : list RuleEntry) (ops : list Diff) :
  length (flat_map (replace_patterns_of rules) ops)
  ≤ length (filter (λ d, type d = replace) ops).
Proof.
  induction ops as [|d ops IH]; [done|].
  cbn [flat_map]. rewrite length_app, filter_cons.
  pose proof (replace_patterns_of_length rules d) as Hd.
  destruct (decide (type d = replace)) as [Ht|Ht]; cbn [length]; [lia|].
  rewrite (replace_patterns_of_other rules d Ht). simpl. lia.
Qed.

(** The classifier never reports more patterns than there are
    differences: at most one per Replace difference, plus one if some
    Delete difference has a non-empty expected span. *)
Theorem patterns_bounded_by_differences (ops : list Diff)
    (rules : list RuleEntry) :
  length (identify_patterns ops rules)
  ≤ length (filter (λ d, type d = replace) ops)
    + (if first_deletion ops is Some _ then 1 else 0)
  ∧ length (identify_patterns ops rules) ≤ length ops.
Proof.
  rewrite identify_patterns_split, length_app.
  pose proof (flat_map_replace_length rules ops) as Hr.
  assert (Hd : length (deletion_patterns_of rules ops)
               ≤ if first_deletion ops is Some _ then 1 else 0).
  { unfold deletion_patterns_of. destruct (first_deletion ops).
    - apply append_pattern_length.
    - done. }
  split; [lia|].
  assert (Hc : length (filter (λ d, type d = replace) ops)
               + (if first_deletion ops is Some _ then 1 else 0) ≤ length ops);
    [|lia].
  clear. induction ops as [|d ops IH]; [done|].
  rewrite filter_cons, first_deletion_cons. cbn [length].
  destruct (decide (type d = replace)) as [Ht|Ht].
  - rewrite bool_decide_eq_false_2 by congruence. cbn [andb length]. lia.
  - destruct (_ && _); [|lia].
    pose proof (length_filter (λ d, type d = replace) ops). lia.
Qed.

Lemma append_pattern_elem (rule : list RuleEntry) (cond pat sev : str)
    (x : Pattern) :
  x ∈ append_pattern rule cond pat sev [] →
  ∃ r rest, rule = r :: rest
    ∧ x = mkPattern cond pat (Rule_mapping_example r) (Clinical_notes r)
            (Age_of_concern r) sev (Confidence_notes r).
Proof.
  destruct rule as [|r rest]; simpl; intros Hx.
  - inversion Hx.
  - apply list_elem_of_singleton in Hx. by exists r, rest.
Qed.

(** Every reported pattern is backed by the table: its condition and
    severity are one of the seven fixed pairs, and its display fields are
    those of the first row whose [Condition] is the looked-up name.  No
    pattern is ever reported for a name the table lacks. *)
Theorem patterns_come_from_table (ops : list Diff) (rules : list RuleEntry)
    (x : Pattern) :
  x ∈ identify_patterns ops rules →
  ∃ key r rest,
    (key, condition x, severity x) ∈ emitted_conditions
    ∧ select rules key = r :: rest
    ∧ example x = Rule_mapping_example r
    ∧ clinical_notes x = Clinical_notes r
    ∧ age_concern x = Age_of_concern r
    ∧ confidence x = Confidence_notes r.
Proof.
  rewrite identify_patterns_split, elem_of_app.
  intros [Hx|Hx].
  - apply list_elem_of_In, in_flat_map in Hx as (d & _ & Hx).
    apply list_elem_of_In in Hx.
    destruct (replace_patterns_of_cases rules d)
      as [E|(pred & key & cond & sev & suffix & r & rest & _ & Hf & Hs & E)];
      rewrite E in Hx; [inversion Hx|].
    apply list_elem_of_singleton in Hx. subst x. cbn.
    exists key, r, rest. split; [|done].
    apply first_match_in_table in Hf. unfold predicate_table in Hf.
    unfold emitted_conditions.
    rewrite !elem_of_cons, elem_of_nil in Hf.
    rewrite !elem_of_cons.
    destruct Hf as [Hf|[Hf|[Hf|[Hf|[Hf|[Hf|[]]]]]]];
      injection Hf as _ -> -> -> _.
    + by left.
    + right; by left.
    + do 2 right; by left.
    + do 3 right; by left.
    + do 4 right; by left.
    + do 5 right; by left.
  - unfold deletion_patterns_of in Hx.
    destruct (first_deletion ops) as [d|]; [|inversion Hx].
    apply append_pattern_elem in Hx as (r & rest & Hs & ->). cbn.
    exists (py "Final Consonant Deletion"), r, rest.
    split; [|done]. unfold emitted_conditions.
    rewrite !elem_of_cons. do 6 right; by left.
Qed.

Lemma patterns_come_from_table_witness :
  ∃ key r rest,
    (key, condition fronting_pattern, severity fronting_pattern)
      ∈ emitted_conditions
    ∧ select [voicing_error_rule; fronting_rule] key = r :: rest
    ∧ example fronting_pattern = Rule_mapping_example r
    ∧ clinical_notes fronting_pattern = Clinical_notes r
    ∧ age_concern fronting_pattern = Age_of_concern r
    ∧ confidence fronting_pattern = Confidence_notes r.
Proof.
  refine (patterns_come_from_table [mkDiff replace (py "k") (py "t") 0]
            [voicing_error_rule; fronting_rule] fronting_pattern _).
  vm_compute. left.
Defined.

Lemma first_deletion_filter_type (ops : list Diff) :
  first_deletion (filter (λ d, type d = delete) ops) = first_deletion ops
  ∧ first_deletion (filter (λ d, type d = replace) ops) = None.
Proof.
  induction ops as [|d ops [IH1 IH2]]; [done|].
  rewrite !filter_cons, (first_deletion_cons d ops).
  destruct (decide (type d = delete)) as [Ht|Ht].
  - rewrite first_deletion_cons, IH1.
    rewrite decide_False by congruence. done.
  - rewrite (bool_decide_eq_false_2 _ Ht). cbn [andb].
    split; [exact IH1|].
    destruct (decide (type d = replace)) as [Hr|Hr]; [|exact IH2].
    rewrite first_deletion_cons, IH2.
    by rewrite (bool_decide_eq_false_2 _ Ht).
Qed.

Lemma flat_map_filter_type (rules : list RuleEntry) (ops : list Diff) :
  flat_map (replace_patterns_of rules) (filter (λ d, type d = replace) ops)
  = flat_map (replace_patterns_of rules) ops
  ∧ flat_map (replace_patterns_of rules) (filter (λ d, type d = delete) ops)
    = [].
Proof.
  induction ops as [|d ops [IH1 IH2]]; [done|].
  rewrite !filter_cons. cbn [flat_map].
  destruct (decide (type d = replace)) as [Hr|Hr].
  - rewrite decide_False by congruence. cbn [flat_map]. by rewrite IH1.
  - rewrite (replace_patterns_of_other rules d Hr), IH1. cbn [app].
    split; [done|].
    destruct (decide (type d = delete)); [|exact IH2].
    cbn [flat_map]. by rewrite (replace_patterns_of_other rules d Hr), IH2.
Qed.

(** Replace and Delete differences are classified independently of each
    other and of their interleaving: the result is what the Replace
    differences alone give, followed by what the Delete ones alone give. *)
Theorem replace_and_delete_independent (ops : list Diff)
    (rules : list RuleEntry) :
  identify_patterns ops rules
  = identify_patterns (filter (λ d, type d = replace) ops) rules
    ++ identify_patterns (filter (λ d, type d = delete) ops) rules.
Proof.
  rewrite !identify_patterns_split.
  destruct (flat_map_filter_type rules ops) as [-> ->].
  unfold deletion_patterns_of.
  destruct (first_deletion_filter_type ops) as [-> ->].
  by rewrite app_nil_r.
Qed.

Lemma append_pattern_head (rule1 rule2 : list RuleEntry)
    (cond pat sev : str) (acc : list Pattern) :
  head rule1 = head rule2 →
  append_pattern rule1 cond pat sev acc
  = append_pattern rule2 cond pat sev acc.
Proof.
  destruct rule1, rule2; simpl; intros H; try done. by injection H as ->.
Qed.

Lemma identify_patterns_heads (ops : list Diff)
    (rules1 rules2 : list RuleEntry) :
  (∀ key, head (select rules1 key) = head (select rules2 key)) →
  identify_patterns ops rules1 = identify_patterns ops rules2.
Proof.
  intros H. rewrite !identify_patterns_split. f_equal.
  - apply flat_map_ext. intros d. unfold replace_patterns_of.
    destruct (bool_decide _); [|done].
    destruct (first_match _ _) as [[[[[??]?]?]?]|]; [|done].
    apply append_pattern_head, H.
  - unfold deletion_patterns_of.
    destruct (first_deletion ops); [|done].
    apply append_pattern_head, H.
Qed.

(** Only the first row of a condition counts: rows added after the table
    whose [Condition] already occurs in it change no result. *)
Theorem duplicate_rows_ignored (ops : list Diff)
    (rules more : list RuleEntry) :
  Forall (λ r, ∃ r', r' ∈ rules ∧ Condition r' = Condition r) more →
  identify_patterns ops (rules ++ more) = identify_patterns ops rules.
Proof.
  intros Hmore. apply identify_patterns_heads. intros key.
  unfold select. rewrite filter_app.
  destruct (filter (λ r, Condition r = key) rules) as [|r l] eqn:E;
    [|done].
  rewrite (filter_none _ more); [done|].
  intros r Hr Hc. rewrite Forall_forall in Hmore.
  destruct (Hmore r Hr) as (r' & Hr' & Hc').
  eapply (filter_nil_not_elem_of _ _ r' E); [congruence|exact Hr'].
Qed.

Lemma duplicate_rows_ignored_witness :
  identify_patterns [mkDiff replace (py "k") (py "t") 0]
    ([fronting_rule]
     ++ [mkRule (py "Fronting (Velar Fronting)") (py "other") (py "other")
           (py "other") (py "other") (py "other")])
  = identify_patterns [mkDiff replace (py "k") (py "t") 0] [fronting_rule].
Proof.
  apply duplicate_rows_ignored.
  constructor; [|constructor].
  exists fronting_rule. split.
  - apply list_elem_of_singleton. reflexivity.
  - vm_compute. reflexivity.
Defined.

End ClassifierMore.

(** ** Delimiter stripping *)

Section Strip.

Variable chars : str.

Lemma lstrip_split (s : str) :
  ∃ pre, s = pre ++ lstrip chars s ∧ Forall (λ x, x ∈ chars) pre.
Proof.
  induction s as [|x s (pre & Hs & Hpre)]; [by exists []|].
  cbn [lstrip]. case_bool_decide as Hx.
  - exists (x :: pre). split; [by rewrite Hs at 1|by constructor].
  - by exists [].
Qed.

Lemma lstrip_head (s : str) (x : char) (r : str) :
  lstrip chars s = x :: r → x ∉ chars.
Proof.
  induction s as [|y s IH]; [done|].
  cbn [lstrip]. case_bool_decide as Hy; [exact IH|].
  by intros [= <- _].
Qed.

Lemma lstrip_id (s : str) :
  (∀ x r, s = x :: r → x ∉ chars) → lstrip chars s = s.
Proof.
  destruct s as [|x s]; [done|]. intros H. cbn [lstrip].
  by rewrite bool_decide_eq_false_2 by (by eapply H).
Qed.

Lemma lstrip_all (s : str) :
  Forall (λ x, x ∈ chars) s → lstrip chars s = [].
Proof.
  induction 1 as [|x s Hx _ IH]; [done|].
  cbn [lstrip]. by rewrite bool_decide_eq_true_2.
Qed.

Lemma lstrip_app_all (pre s : str) :
  Forall (λ x, x ∈ chars) pre → lstrip chars (pre ++ s) = lstrip chars s.
Proof.
  induction 1 as [|x pre Hx _ IH]; [done|].
  cbn [app lstrip]. by rewrite bool_decide_eq_true_2.
Qed.

Lemma rstrip_split (s : str) :
  ∃ suf, s = rstrip chars s ++ suf ∧ Forall (λ x, x ∈ chars) suf.
Proof.
  unfold rstrip. destruct (lstrip_split (rev s)) as (pre & Hs & Hpre).
  exists (rev pre). split; [|by apply Forall_rev].
  rewrite <- rev_app_distr, <- Hs. by rewrite rev_involutive.
Qed.

Lemma rstrip_last (s r : str) (x : char) :
  rstrip chars s = r ++ [x] → x ∉ chars.
Proof.
  unfold rstrip. intros H. apply (f_equal (@rev _)) in H.
  rewrite rev_involutive, rev_app_distr in H. cbn in H.
  by eapply lstrip_head.
Qed.

Lemma rstrip_id (s : str) :
  (∀ r x, s = r ++ [x] → x ∉ chars) → rstrip chars s = s.
Proof.
  intros H. unfold rstrip. rewrite lstrip_id; [apply rev_involutive|].
  intros x r Hr. apply (H (rev r) x).
  rewrite <- (rev_involutive s), Hr. reflexivity.
Qed.

Lemma strip_bare (s : str) : bare chars (strip chars s).
Proof.
  unfold strip. split.
  - intros x r Hr.
    destruct (rstrip_split (lstrip chars s)) as (suf & Hs & _).
    rewrite Hr in Hs. by eapply lstrip_head.
  - intros r x. apply rstrip_last.
Qed.

Lemma strip_id (s : str) : bare chars s → strip chars s = s.
Proof.
  intros [H1 H2]. unfold strip. rewrite (lstrip_id s H1).
  by apply rstrip_id.
Qed.

Lemma strip_wrap (pre body suf : str) :
  Forall (λ x, x ∈ chars) pre → Forall (λ x, x ∈ chars) suf →
  bare chars body → strip chars (pre ++ body ++ suf) = body.
Proof.
  intros Hpre Hsuf [H1 H2]. unfold strip.
  rewrite (lstrip_app_all pre _ Hpre).
  destruct body as [|x body].
  - cbn [app]. by rewrite (lstrip_all suf Hsuf).
  - rewrite lstrip_id by (intros y r [= <- _]; by eapply H1).
    unfold rstrip. rewrite rev_app_distr.
    rewrite lstrip_app_all by (by apply Forall_rev).
    rewrite lstrip_id; [apply rev_involutive|].
    intros y r Hr. apply (H2 (rev r) y).
    rewrite <- (rev_involutive (x :: body)), Hr. reflexivity.
Qed.

(** Stripping removes every leading and trailing delimiter and nothing
    else is left to strip: the result neither starts nor ends with one, a
    second stripping changes nothing, and the string is the result between
    two runs of delimiters. *)
Theorem strip_idempotent (s : str) :
  bare chars (strip chars s)
  ∧ strip chars (strip chars s) = strip chars s
  ∧ ∃ pre suf,
      s = pre ++ strip chars s ++ suf
      ∧ Forall (λ x, x ∈ chars) pre ∧ Forall (λ x, x ∈ chars) suf.
Proof.
  split; [apply strip_bare|].
  split; [apply strip_id, strip_bare|].
  destruct (lstrip_split s) as (pre & Hs & Hpre).
  destruct (rstrip_split (lstrip chars s)) as (suf & Hr & Hsuf).
  exists pre, suf. unfold strip. by rewrite <- Hr.
Qed.

End Strip.

(** The alignment only sees what is between the delimiters: stripped or
    not, wrapped in any number of slashes, the arguments give the same
    result. *)
Theorem compare_ignores_delimiters (produced_ipa expected_ipa : str) :
  compare_ipa_transcriptions produced_ipa expected_ipa
  = compare_ipa_transcriptions (strip (py "/") produced_ipa)
      (strip (py "/") expected_ipa).
Proof.
  unfold compare_ipa_transcriptions.
  by rewrite !(strip_id _ _ (strip_bare _ _)).
Qed.

(** ** The simulated transcription *)

Section Simulation.

Lemma randint_range (lo hi raw : nat) :
  lo ≤ hi → lo ≤ randint lo hi raw ≤ hi.
Proof.
  intros H. unfold randint.
  assert (Hm : raw mod (hi - lo + 1) < hi - lo + 1)
    by (apply Nat.mod_upper_bound; lia).
  revert Hm. generalize (raw mod (hi - lo + 1)). intros m Hm. lia.
Qed.

Lemma common_substitutions_value (c c' : char) :
  common_substitutions !! c = Some c' →
  c' ∈ substituted_symbols ∧ c' ≠ sym "/" ∧ c' ≠ c.
Proof.
  intros H. apply elem_of_list_to_map_2 in H.
  rewrite !elem_of_cons, elem_of_nil in H.
  destruct H as [H|[H|[H|[H|[H|[H|[H|[H|[H|[H|[]]]]]]]]]]];
    injection H as -> ->; (split; [|done]);
    unfold substituted_symbols; rewrite !elem_of_cons; tauto.
Qed.

Lemma simulated_symbol_refl (l : str) : Forall2 simulated_symbol l l.
Proof. apply Forall_Forall2_diag, Forall_forall. intros x _. by left. Qed.

(** One pass of the loop body at an index holding a substitutable
    symbol. *)
Lemma simulated_symbol_insert (orig cur : str) (idx : nat) (c c' : char) :
  Forall2 simulated_symbol orig cur →
  cur !! idx = Some c → common_substitutions !! c = Some c' →
  Forall2 simulated_symbol orig (<[idx := c']> cur).
Proof.
  intros HF Hc Hs.
  destruct (Forall2_lookup_r _ _ _ _ _ HF Hc) as (o & Ho & Hrel).
  rewrite <- (list_insert_id orig idx o Ho).
  apply Forall2_insert; [exact HF|].
  destruct (common_substitutions_value c c' Hs) as (Hv & _).
  right. split; [|exact Hv].
  destruct Hrel as [->|[Hk _]]; [by eexists|exact Hk].
Qed.

Lemma error_loop_symbols (n : nat) (rand : nat → nat) :
  ∀ (k : nat) (orig cur : str),
    Forall2 simulated_symbol orig cur →
    Forall2 simulated_symbol orig (error_loop n rand k cur).
Proof.
  induction n as [|n IH]; intros k orig cur HF; cbn [error_loop]; [done|].
  case_bool_decide; [|by apply IH].
  apply IH.
  destruct (cur !! _) as [c|] eqn:Ec; [|done].
  destruct (common_substitutions !! c) as [c'|] eqn:Es; [|done].
  by eapply simulated_symbol_insert.
Qed.

Lemma hamming_refl (l : str) : hamming l l = 0.
Proof.
  unfold hamming. induction l as [|x l IH]; [done|].
  cbn [zip zip_with]. by rewrite filter_cons_False by (cbn; congruence).
Qed.

Lemma hamming_insert (orig : str) :
  ∀ (cur : str) (idx : nat) (c : char),
    hamming orig (<[idx := c]> cur) ≤ S (hamming orig cur).
Proof.
  unfold hamming.
  induction orig as [|o orig IH]; intros cur idx c; [cbn; lia|].
  destruct cur as [|x cur]; [destruct idx; cbn; lia|].
  destruct idx as [|idx].
  - change (<[0 := c]> (x :: cur)) with (c :: cur). cbn [zip zip_with].
    rewrite !filter_cons.
    repeat destruct (decide _); cbn [length]; lia.
  - change (<[S idx := c]> (x :: cur)) with (x :: <[idx := c]> cur).
    cbn [zip zip_with]. rewrite !filter_cons. specialize (IH cur idx c).
    destruct (decide _); cbn [length]; lia.
Qed.

Lemma error_loop_hamming (n : nat) (rand : nat → nat) :
  ∀ (k : nat) (orig cur : str),
    hamming orig (error_loop n rand k cur) ≤ hamming orig cur + n.
Proof.
  induction n as [|n IH]; intros k orig cur; cbn [error_loop]; [lia|].
  case_bool_decide; [|etrans; [apply IH|lia]].
  etrans; [apply IH|].
  destruct (cur !! _) as [c|]; [|lia].
  destruct (common_substitutions !! c) as [c'|]; [|lia].
  pose proof (hamming_insert orig cur
                (randint 0 (length cur - 1) (rand k)) c'). lia.
Qed.

Lemma simulated_bare (orig cur : str) :
  bare (py "/") orig → Forall2 simulated_symbol orig cur →
  bare (py "/") cur.
Proof.
  intros [H1 H2] HF.
  assert (Hsym : ∀ o c, simulated_symbol o c → o ∉ py "/" → c ∉ py "/").
  { intros o c [->|[_ Hc]] Ho; [done|].
    unfold substituted_symbols in Hc.
    rewrite !elem_of_cons, elem_of_nil in Hc.
    intros Hin. apply list_elem_of_singleton in Hin.
    destruct Hc as [->|[->|[->|[->|[->|[]]]]]]; discriminate Hin. }
  split.
  - intros x r ->. apply Forall2_cons_inv_r in HF as (o & orig' & Hr & _ & ->).
    eapply Hsym; [exact Hr|]. by eapply H1.
  - intros r x ->. apply Forall2_app_inv_r in HF
      as (orig1 & orig2 & _ & HF2 & ->).
    apply Forall2_cons_inv_r in HF2 as (o & orig' & Hr & Hnil & ->).
    apply Forall2_nil_inv_r in Hnil as ->.
    eapply Hsym; [exact Hr|]. by eapply H2.
Qed.

(** The simulated transcription is the reference between two slashes with
    at most three symbols overwritten: same length as the stripped
    reference, at most [randint(0, 3)] positions changed, every position
    either left as it was or, if the table has an entry for the original
    symbol, holding one of w, f, d, t, k; stripping it gives those symbols
    back. *)
Theorem simulated_transcription_shape (rand : nat → nat)
    (reference_phrase : ReferencePhrase) :
  ∃ chars : str,
    simulate_audio_to_ipa rand reference_phrase
    = py "/" ++ chars ++ py "/"
    ∧ strip (py "/") (simulate_audio_to_ipa rand reference_phrase) = chars
    ∧ length chars
      = length (strip (py "/") (expected_IPA reference_phrase))
    ∧ hamming (strip (py "/") (expected_IPA reference_phrase)) chars
      ≤ randint 0 3 (rand 0)
    ∧ randint 0 3 (rand 0) ≤ 3
    ∧ Forall2 simulated_symbol
        (strip (py "/") (expected_IPA reference_phrase)) chars.
Proof.
  unfold simulate_audio_to_ipa.
  set (clean := strip (py "/") (expected_IPA reference_phrase)).
  set (n := randint 0 3 (rand 0)).
  pose proof (error_loop_symbols n rand 1 clean clean
                (simulated_symbol_refl clean)) as HF.
  exists (error_loop n rand 1 clean).
  split; [done|]. split.
  { apply strip_wrap; [by repeat constructor..|].
    eapply simulated_bare; [apply strip_bare|exact HF]. }
  split; [symmetry; by eapply Forall2_length|].
  split.
  { pose proof (error_loop_hamming n rand 1 clean clean) as H.
    rewrite hamming_refl in H. exact H. }
  split; [|exact HF].
  subst n. pose proof (randint_range 0 3 (rand 0)). lia.
Qed.

Lemma error_loop_unchanged (n : nat) (rand : nat → nat) (k : nat)
    (clean : str) :
  Forall (λ c, common_substitutions !! c = None) clean →
  error_loop n rand k clean = clean.
Proof.
  intros Hnone.
  pose proof (error_loop_symbols n rand k clean clean
                (simulated_symbol_refl clean)) as HF.
  symmetry. revert Hnone.
  induction HF as [|o c l l' Hrel _ IH]; [done|].
  intros Hn. apply Forall_cons in Hn as [Ho Hn].
  rewrite (IH Hn). f_equal.
  destruct Hrel as [->|[[v Hv] _]]; [done|congruence].
Qed.

(** A reference without any symbol of the substitution table comes out of
    the simulation unchanged, whatever the random draws. *)
Theorem simulation_without_substitutable_symbols (rand : nat → nat)
    (reference_phrase : ReferencePhrase) :
  Forall (λ c, common_substitutions !! c = None)
    (strip (py "/") (expected_IPA reference_phrase)) →
  simulate_audio_to_ipa rand reference_phrase
  = py "/" ++ strip (py "/") (expected_IPA reference_phrase) ++ py "/".
Proof.
  intros Hnone. unfold simulate_audio_to_ipa.
  by rewrite error_loop_unchanged.
Qed.

Lemma mama_not_substitutable :
  Forall (λ c, common_substitutions !! c = None)
    (strip (py "/") (expected_IPA mama_phrase)).
Proof.
  assert (E : strip (py "/") (expected_IPA mama_phrase)
              = [109; 230; 109; 230]%N) by (vm_compute; reflexivity).
  rewrite E.
  repeat (constructor; [vm_compute; reflexivity|]). constructor.
Qed.

Lemma simulation_without_substitutable_symbols_witness :
  simulate_audio_to_ipa (λ k, k + 3) mama_phrase
  = py "/" ++ strip (py "/") (expected_IPA mama_phrase) ++ py "/".
Proof.
  apply simulation_without_substitutable_symbols.
  exact mama_not_substitutable.
Defined.

End Simulation.

(** ** The similarity is a proportion *)

Lemma round64_unit (q : Q) :
  (0 <= q)%Q -> (q <= 1)%Q -> (0 <= round64 q)%Q /\ (round64 q <= 1)%Q.
Proof.
  intros H0 H1. unfold round64.
  assert (Hq : (Qred q == q)%Q) by apply Qred_correct.
  rewrite <- Hq in H0, H1.
  destruct (Qred q) as [qn qd].
  unfold Qle in H0, H1. cbn [Qnum Qden] in *.
  assert (Hn0 : (0 <= qn)%Z) by lia.
  assert (Hnd : (qn <= Z.pos qd)%Z) by lia.
  clear H0 H1 Hq.
  rewrite (Z.abs_eq qn Hn0).
  destruct (qn =? 0)%Z eqn:En; [split; [apply Qle_refl|discriminate]|].
  apply Z.eqb_neq in En.
  assert (Hpos : (0 < qn)%Z) by lia.
  rewrite (Z.sgn_pos qn Hpos).
  set (e0 := (Z.log2 qn - Z.log2 (Z.pos qd))%Z).
  assert (He0 : (e0 <= 0)%Z).
  { subst e0. pose proof (Z.log2_le_mono qn (Z.pos qd) Hnd). lia. }
  set (below := if (0 <=? e0)%Z then _ else _).
  set (e := if below then (e0 - 1)%Z else e0).
  assert (He : (e <= 0)%Z) by (subst e; destruct below; lia).
  set (s := (52 - e)%Z).
  assert (Hs : (0 < s)%Z) by (subst s; lia).
  rewrite (Z.max_l s 0) by lia.
  rewrite (Z.max_r (- s) 0) by lia.
  rewrite Z.pow_0_r, !Z.mul_1_r, Z.mul_1_l.
  set (p := (2 ^ s)%Z).
  assert (Hp : (0 < p)%Z) by (subst p; apply Z.pow_pos_nonneg; lia).
  set (m := (qn * p / Z.pos qd)%Z).
  set (r := ((qn * p) mod Z.pos qd)%Z).
  set (up := orb _ _).
  set (m' := if up then (m + 1)%Z else m).
  assert (Hm0 : (0 <= m)%Z) by (subst m; apply Z.div_pos; nia).
  assert (Hm' : (0 <= m' /\ m' <= p)%Z).
  { destruct (Z.eq_dec qn (Z.pos qd)) as [E|E].
    - assert (Em : m = p) by (subst m; rewrite E, Z.mul_comm; apply Z.div_mul; lia).
      assert (Er : r = 0%Z) by (subst r; rewrite E, Z.mul_comm; apply Z.mod_mul; lia).
      assert (Eu : up = false).
      { subst up. rewrite Er. cbn.
        replace (Z.pos qd <? 0)%Z with false by (symmetry; apply Z.ltb_ge; lia).
        replace (Z.pos qd =? 0)%Z with false by (symmetry; apply Z.eqb_neq; lia).
        reflexivity. }
      subst m'. rewrite Eu. lia.
    - assert (m < p)%Z.
      { subst m. apply Z.div_lt_upper_bound; [lia|nia]. }
      subst m'. destruct up; lia. }
  clearbody m'. clear -Hm' Hp.
  assert (Hv : (0 <= inject_Z m' / inject_Z p)%Q /\ (inject_Z m' / inject_Z p <= 1)%Q).
  { split.
    - apply Qle_shift_div_l;
        [change (inject_Z 0 < inject_Z p)%Q; rewrite <- Zlt_Qlt; exact Hp|].
      rewrite Qmult_0_l. change (inject_Z 0 <= inject_Z m')%Q.
      rewrite <- Zle_Qle. lia.
    - apply Qle_shift_div_r;
        [change (inject_Z 0 < inject_Z p)%Q; rewrite <- Zlt_Qlt; exact Hp|].
      rewrite Qmult_1_l. rewrite <- Zle_Qle. lia. }
  rewrite (Qred_correct (inject_Z m' / inject_Z p)). exact Hv.
Qed.

Section MatcherBounds.

Variables a b : str.

Lemma matches_app (l1 l2 : list difflib.Match) :
  difflib.matches (l1 ++ l2) = difflib.matches l1 + difflib.matches l2.
Proof.
  unfold difflib.matches.
  induction l1 as [|x l1 IH]; [done|].
  cbn [app foldr]. rewrite IH. lia.
Qed.

Lemma matches_cons (x : difflib.Match) (l : list difflib.Match) :
  difflib.matches (x :: l) = x.2 + difflib.matches l.
Proof. reflexivity. Qed.

Lemma matches_Permutation (l1 l2 : list difflib.Match) :
  l1 ≡ₚ l2 → difflib.matches l1 = difflib.matches l2.
Proof.
  unfold difflib.matches.
  induction 1 as [|x l1 l2 _ IH|x y l|l1 l2 l3 _ IH1 _ IH2];
    cbn [foldr]; lia.
Qed.

Lemma blocks_loop_matches (fuel : nat) :
  ∀ (queue : list (nat * nat * nat * nat)) (acc res : list difflib.Match),
    Forall range_ok queue →
    difflib.blocks_loop a b fuel queue acc = Some res →
    difflib.matches res
    ≤ difflib.matches acc + sum_list_with range_capacity queue.
Proof.
  induction fuel as [|fuel IH]; intros queue acc res Hok;
    destruct queue as [|[[[alo ahi] blo] bhi] queue];
    cbn [difflib.blocks_loop]; try done.
  - intros [= <-]. cbn [sum_list_with]. lia.
  - intros [= <-]. cbn [sum_list_with]. lia.
  - apply Forall_cons in Hok as [[Ha Hb] Hok]. cbn [fst snd] in Ha, Hb.
    pose proof (find_longest_match_range a b alo ahi blo bhi Ha Hb) as Hr.
    destruct (difflib.find_longest_match a b alo ahi blo bhi)
      as [[i j] k].
    unfold in_range in Hr. cbn [fst snd] in Hr.
    cbn [sum_list_with].
    case_bool_decide as Hk.
    + intros Hres. apply IH in Hres.
      * rewrite matches_app, matches_cons in Hres.
        change (difflib.matches []) with 0 in Hres.
        cbn [snd] in Hres. revert Hres.
        repeat case_bool_decide; cbn [andb sum_list_with];
          set (rest := sum_list_with range_capacity queue);
          unfold range_capacity; cbn [fst snd]; lia.
      * repeat case_bool_decide; cbn [andb];
          repeat (apply Forall_cons; split); try exact Hok;
          unfold range_ok; cbn [fst snd]; lia.
    + intros Hres. apply IH in Hres; [lia|exact Hok].
Qed.

Lemma collapse_fold_matches (l : list difflib.Match) :
  ∀ st : difflib.Match * list difflib.Match,
    difflib.matches (fold_left difflib.collapse_step l st).2
    + (fold_left difflib.collapse_step l st).1.2
    = difflib.matches st.2 + st.1.2 + difflib.matches l.
Proof.
  induction l as [|[[i2 j2] k2] l IH]; intros [[[i1 j1] k1] non_adjacent];
    cbn [fold_left]; [change (difflib.matches []) with 0; lia|].
  rewrite IH, matches_cons. unfold difflib.collapse_step.
  destruct (_ && _); cbn [fst snd]; [lia|].
  case_bool_decide; rewrite ?matches_app, ?matches_cons;
    change (difflib.matches []) with 0; cbn [snd]; lia.
Qed.

Lemma collapse_matches (l : list difflib.Match) :
  difflib.matches (difflib.collapse a b l) = difflib.matches l.
Proof.
  unfold difflib.collapse.
  pose proof (collapse_fold_matches l ((0, 0, 0), [])) as H.
  destruct (fold_left _ _ _) as [[[i1 j1] k1] non_adjacent].
  cbn [fst snd] in H. change (difflib.matches []) with 0 in H.
  case_bool_decide; rewrite ?matches_app, ?matches_cons;
    change (difflib.matches []) with 0; cbn [snd]; lia.
Qed.

Lemma get_matching_blocks_matches (blocks : list difflib.Match) :
  difflib.get_matching_blocks a b = Some blocks →
  difflib.matches blocks ≤ Nat.min (length a) (length b).
Proof.
  unfold difflib.get_matching_blocks.
  destruct (difflib.blocks_loop a b _ _ _) as [raw|] eqn:E; [|done].
  cbn [mbind option_bind]. intros [= <-].
  rewrite collapse_matches.
  rewrite (matches_Permutation _ raw (merge_sort_Permutation _ _)).
  apply blocks_loop_matches in E.
  - cbn [sum_list_with] in E. change (difflib.matches []) with 0 in E.
    unfold range_capacity in E. cbn [fst snd] in E. lia.
  - repeat constructor; unfold range_ok; cbn; lia.
Qed.

End MatcherBounds.

Lemma _calculate_ratio_unit (m n : nat) :
  2 * m ≤ n →
  (0 <= difflib._calculate_ratio m n)%Q
  ∧ (difflib._calculate_ratio m n <= 1)%Q.
Proof.
  intros H. unfold difflib._calculate_ratio.
  case_bool_decide as Hn; [|split; discriminate].
  assert (Hpos : (0 < inject_Z (Z.of_nat n))%Q).
  { change (inject_Z 0 < inject_Z (Z.of_nat n))%Q.
    rewrite <- Zlt_Qlt. lia. }
  apply round64_unit.
  - apply Qle_shift_div_l; [exact Hpos|].
    rewrite Qmult_0_l.
    change (inject_Z 0 <= inject_Z (2 * Z.of_nat m))%Q.
    rewrite <- Zle_Qle. lia.
  - apply Qle_shift_div_r; [exact Hpos|].
    rewrite Qmult_1_l, <- Zle_Qle. lia.
Qed.

(** The similarity returned by the alignment always lies between 0.0 and
    1.0: the matched characters number at most the length of the shorter
    string. *)
Theorem similarity_in_unit_interval (produced_ipa expected_ipa : str) :
  ∃ blocks differences similarity,
    difflib.get_matching_blocks (strip (py "/") expected_ipa)
      (strip (py "/") produced_ipa) = Some blocks
    ∧ compare_ipa_transcriptions produced_ipa expected_ipa
      = Some (differences, similarity)
    ∧ difflib.matches blocks
      ≤ Nat.min (length (strip (py "/") expected_ipa))
          (length (strip (py "/") produced_ipa))
    ∧ (0 <= similarity)%Q ∧ (similarity <= 1)%Q.
Proof.
  destruct (compare_ipa_transcriptions_total produced_ipa expected_ipa)
    as (blocks & differences & Hb & Hc).
  exists blocks, differences. eexists.
  split; [exact Hb|]. split; [exact Hc|].
  pose proof (get_matching_blocks_matches _ _ _ Hb) as Hm.
  split; [exact Hm|].
  apply _calculate_ratio_unit. lia.
Qed.

(** ** One side empty *)

Section EmptySide.

Lemma b2j_get_empty (a : str) (i : nat) : difflib.b2j_get a [] i = [].
Proof.
  unfold difflib.b2j_get. destruct (a !! i) as [c|]; [|done].
  unfold difflib.b2j, difflib.b2j_indices. cbn [imap fold_left].
  by rewrite map_filter_empty, lookup_empty.
Qed.

Lemma rows_without_candidates (a b : str) (blo bhi : nat) (l : list nat) :
  (∀ i, difflib.b2j_get a b i = []) →
  ∀ st, (fold_left (difflib.row_step a b blo bhi) l st).2 = st.2.
Proof.
  intros Hget. induction l as [|i l IH]; intros st; [done|].
  cbn [fold_left]. rewrite IH. unfold difflib.row_step.
  by rewrite Hget.
Qed.

Lemma extend_right_stop (a b : str) (junk : bool)
    (ahi bhi besti bestj n size : nat) :
  bhi ≤ bestj + size →
  difflib.extend_right a b junk ahi bhi besti bestj n size = size.
Proof.
  intros H. destruct n; [done|]. cbn [difflib.extend_right].
  rewrite (bool_decide_eq_false_2 (bestj + size < bhi)) by lia.
  by rewrite andb_false_r.
Qed.

Lemma find_longest_match_no_b (a : str) :
  difflib.find_longest_match a [] 0 (length a) 0 0 = (0, 0, 0).
Proof.
  unfold difflib.find_longest_match.
  rewrite (rows_without_candidates a [] 0 0 _ (b2j_get_empty a)).
  unfold difflib.extend. cbn [fst snd difflib.extend_left].
  rewrite !extend_right_stop by lia. cbn [fst snd difflib.extend_left].
  by rewrite ?extend_right_stop by lia.
Qed.

Lemma round64_zero (x : Q) : (x == 0)%Q → round64 x = 0%Q.
Proof. intros H. by rewrite (round64_Qeq x 0 H). Qed.

Lemma _calculate_ratio_zero (n : nat) :
  n ≠ 0 → difflib._calculate_ratio 0 n = 0%Q.
Proof.
  intros Hn. unfold difflib._calculate_ratio.
  rewrite bool_decide_eq_true_2 by exact Hn.
  apply round64_zero. unfold Qdiv. cbn [Z.mul Z.of_nat].
  apply Qmult_0_l.
Qed.

(** An empty produced transcription against a non-empty expected one is a
    single Delete difference spanning the whole expected string at
    position 0, with similarity 0.0; the classifier reports it as one
    Final Consonant Deletion of the whole string if the table has that
    entry. *)
Theorem produced_empty_is_one_deletion (produced_ipa expected_ipa : str) :
  strip (py "/") produced_ipa = [] →
  strip (py "/") expected_ipa ≠ [] →
  compare_ipa_transcriptions produced_ipa expected_ipa
  = Some ([mkDiff delete (strip (py "/") expected_ipa) [] 0], 0%Q)
  ∧ ∀ rules,
      identify_patterns
        [mkDiff delete (strip (py "/") expected_ipa) [] 0] rules
      = append_pattern (select rules (py "Final Consonant Deletion"))
          (py "Final Consonant Deletion")
          (py "Omission of /" ++ strip (py "/") expected_ipa ++ py "/")
          (py "Moderate") [].
Proof.
  intros Hp He. split.
  - unfold compare_ipa_transcriptions, difflib.get_opcodes, difflib.ratio,
      difflib.get_matching_blocks.
    rewrite Hp. set (a := strip (py "/") expected_ipa) in *.
    assert (Hla : length a ≠ 0) by (destruct a; [done|cbn; lia]).
    replace (2 * length a + 1) with (S (2 * length a)) by lia.
    cbn [difflib.blocks_loop length].
    rewrite find_longest_match_no_b.
    rewrite bool_decide_eq_false_2 by (intros H; exact (H eq_refl)).
    rewrite blocks_loop_nil. cbn [mbind option_bind].
    change (merge_sort difflib.Match_le []) with (@nil difflib.Match).
    unfold difflib.collapse. cbn [fold_left length].
    rewrite bool_decide_eq_false_2 by (intros H; exact (H eq_refl)).
    cbn [app fold_left difflib.opcode_step].
    rewrite (bool_decide_eq_true_2 (0 < length a)) by lia.
    rewrite (bool_decide_eq_false_2 (0 < 0)) by lia.
    cbn [andb]. rewrite Nat.add_0_r.
    rewrite bool_decide_eq_false_2 by (intros H; exact (H eq_refl)).
    cbn [app snd difflib.matches foldr Nat.add].
    rewrite (_calculate_ratio_zero _ Hla).
    unfold differences_of. cbn [omap list_omap].
    rewrite bool_decide_eq_true_2 by done.
    unfold slice. rewrite Nat.sub_0_r, drop_0, take_ge by lia.
    reflexivity.
  - intros rules. rewrite identify_patterns_split. cbn [flat_map].
    rewrite replace_patterns_of_other by done. cbn [app].
    unfold deletion_patterns_of. rewrite first_deletion_cons.
    cbn [type expected]. unfold eqs.
    rewrite (bool_decide_eq_true_2 (delete = delete)) by done.
    rewrite (bool_decide_eq_false_2 _ He). reflexivity.
Qed.

Lemma produced_empty_is_one_deletion_witness :
  compare_ipa_transcriptions (py "//") (py "/kæt/")
  = Some ([mkDiff delete (strip (py "/") (py "/kæt/")) [] 0], 0%Q)
  ∧ ∀ rules,
      identify_patterns
        [mkDiff delete (strip (py "/") (py "/kæt/")) [] 0] rules
      = append_pattern (select rules (py "Final Consonant Deletion"))
          (py "Final Consonant Deletion")
          (py "Omission of /" ++ strip (py "/") (py "/kæt/") ++ py "/")
          (py "Moderate") [].
Proof.
  apply produced_empty_is_one_deletion.
  - vm_compute. reflexivity.
  - vm_compute. discriminate.
Defined.

(** An empty expected transcription against a non-empty produced one is a
    single Insert difference with the whole produced string, similarity
    0.0, and never any pattern. *)
Theorem expected_empty_is_one_insertion (produced_ipa expected_ipa : str) :
  strip (py "/") expected_ipa = [] →
  strip (py "/") produced_ipa ≠ [] →
  compare_ipa_transcriptions produced_ipa expected_ipa
  = Some ([mkDiff insert [] (strip (py "/") produced_ipa) 0], 0%Q)
  ∧ ∀ rules,
      identify_patterns
        [mkDiff insert [] (strip (py "/") produced_ipa) 0] rules = [].
Proof.
  intros He Hp. split.
  2:{ intros rules. rewrite identify_patterns_split. cbn [flat_map].
      rewrite replace_patterns_of_other by done. cbn [app].
      unfold deletion_patterns_of. rewrite first_deletion_cons.
      cbn [type]. by rewrite (bool_decide_eq_false_2 (insert = delete)). }
  unfold compare_ipa_transcriptions, difflib.get_opcodes, difflib.ratio,
    difflib.get_matching_blocks.
  rewrite He. set (b := strip (py "/") produced_ipa) in *.
  assert (Hlb : length b ≠ 0) by (destruct b; [done|cbn; lia]).
  cbn [length Nat.mul Nat.add difflib.blocks_loop].
  assert (Hf : difflib.find_longest_match [] b 0 0 0 (length b) = (0, 0, 0)).
  { unfold difflib.find_longest_match, difflib.extend.
    cbn [Nat.sub seq fold_left fst snd difflib.extend_left Nat.add
           difflib.extend_right]. reflexivity. }
  rewrite Hf.
  rewrite bool_decide_eq_false_2 by (intros H; exact (H eq_refl)).
  cbn [mbind option_bind].
  change (merge_sort difflib.Match_le []) with (@nil difflib.Match).
  unfold difflib.collapse. cbn [fold_left length].
  rewrite bool_decide_eq_false_2 by (intros H; exact (H eq_refl)).
  cbn [app fold_left difflib.opcode_step].
  rewrite (bool_decide_eq_false_2 (0 < 0)) by lia. cbn [andb].
  rewrite (bool_decide_eq_true_2 (0 < length b)) by lia.
  rewrite Nat.add_0_r.
  rewrite bool_decide_eq_false_2 by (intros H; exact (H eq_refl)).
  cbn [app snd difflib.matches foldr Nat.add].
  rewrite (_calculate_ratio_zero _ Hlb).
  unfold differences_of. cbn [omap list_omap].
  rewrite bool_decide_eq_true_2 by done.
  unfold slice. rewrite !Nat.sub_0_r, !drop_0.
  rewrite (take_ge b) by lia. reflexivity.
Qed.

Lemma expected_empty_is_one_insertion_witness :
  compare_ipa_transcriptions (py "/kæt/") (py "//")
  = Some ([mkDiff insert [] (strip (py "/") (py "/kæt/")) 0], 0%Q)
  ∧ ∀ rules,
      identify_patterns
        [mkDiff insert [] (strip (py "/") (py "/kæt/")) 0] rules = [].
Proof.
  apply expected_empty_is_one_insertion.
  - vm_compute. reflexivity.
  - vm_compute. discriminate.
Defined.

End EmptySide.

(** ** The analysis run and the export *)

Section Analysis.

Lemma compare_same_stripped (produced_ipa expected_ipa : str) :
  strip (py "/") produced_ipa = strip (py "/") expected_ipa →
  compare_ipa_transcriptions produced_ipa expected_ipa = Some ([], 1%Q).
Proof.
  intros E.
  unfold compare_ipa_transcriptions, difflib.get_opcodes, difflib.ratio.
  rewrite E. set (s := strip (py "/") expected_ipa).
  rewrite get_matching_blocks_self.
  cbn [mbind option_bind].
  case_bool_decide as Hn.
  - cbn [fold_left difflib.opcode_step difflib.matches foldr fst snd].
    rewrite !bool_decide_eq_false_2 by lia. cbn [andb].
    rewrite bool_decide_eq_true_2 by exact Hn.
    rewrite !bool_decide_eq_false_2 by lia. cbn [andb app Nat.add].
    rewrite Nat.add_0_r, _calculate_ratio_all. reflexivity.
  - assert (length s = 0) as Hl by (destruct (length s); [done|lia]).
    rewrite Hl. reflexivity.
Qed.

Lemma scorer_default_total (s : Q) :
  ∃ label tier,
    calculate_confidence_level s load_sensitivity_config = Ok (label, tier)
    ∧ label ∈ [py "High Confidence"; py "Moderate Confidence";
               py "Low Confidence"; py "Very Low Confidence"]
    ∧ tier ∈ [py "success"; py "warning"; py "error"].
Proof.
  rewrite calculate_confidence_level_default.
  destruct (ge s _); [|destruct (ge s _); [|destruct (ge s _)]];
    eexists _, _; (split; [reflexivity|]); rewrite !elem_of_cons; tauto.
Qed.

(** With the thresholds of [load_sensitivity_config] a run of the
    analysis always completes, for every reference row, rule table and
    outcome of the random draws: the similarity lies between 0.0 and 1.0,
    the label is one of the four and the tier one of success, warning and
    error, and the produced transcription has, between its slashes, as
    many symbols as the expected one. *)
Theorem run_analysis_completes (rand : nat → nat)
    (selected_row : ReferencePhrase) (speech_rules : list RuleEntry) :
  ∃ res,
    run_analysis rand selected_row speech_rules load_sensitivity_config
    = Some (Ok res)
    ∧ res_phrase res = phrase selected_row
    ∧ res_expected_ipa res = expected_IPA selected_row
    ∧ res_produced_ipa res = simulate_audio_to_ipa rand selected_row
    ∧ length (strip (py "/") (res_produced_ipa res))
      = length (strip (py "/") (res_expected_ipa res))
    ∧ res_patterns res = identify_patterns (res_differences res) speech_rules
    ∧ (0 <= res_similarity res)%Q ∧ (res_similarity res <= 1)%Q
    ∧ res_confidence res
      ∈ [py "High Confidence"; py "Moderate Confidence";
         py "Low Confidence"; py "Very Low Confidence"]
    ∧ res_confidence_type res ∈ [py "success"; py "warning"; py "error"].
Proof.
  unfold run_analysis.
  set (produced := simulate_audio_to_ipa rand selected_row).
  destruct (compare_ipa_transcriptions_total produced
              (expected_IPA selected_row))
    as (blocks & differences & Hb & ->).
  cbn [mbind option_bind].
  set (similarity := difflib._calculate_ratio _ _).
  destruct (scorer_default_total similarity)
    as (label & tier & -> & Hlabel & Htier).
  cbn [mbind result_bind Py.bind].
  eexists. split; [reflexivity|].
  cbn [res_phrase res_expected_ipa res_produced_ipa res_differences
         res_similarity res_patterns res_confidence res_confidence_type].
  repeat split; try done.
  - subst produced. unfold simulate_audio_to_ipa.
    set (clean := strip (py "/") (expected_IPA selected_row)).
    pose proof (error_loop_symbols (randint 0 3 (rand 0)) rand 1 clean clean
                  (simulated_symbol_refl clean)) as HF.
    rewrite strip_wrap.
    + symmetry. by eapply Forall2_length.
    + by repeat constructor.
    + by repeat constructor.
    + eapply simulated_bare; [apply strip_bare|exact HF].
  - apply _calculate_ratio_unit.
    pose proof (get_matching_blocks_matches _ _ _ Hb). lia.
  - apply _calculate_ratio_unit.
    pose proof (get_matching_blocks_matches _ _ _ Hb). lia.
Qed.

(** A reference none of whose symbols is in the substitution table always
    analyses as a perfect production: no difference, similarity 1.0, no
    pattern, and the top label whenever the high threshold is at most
    1.0, whatever the random draws and the rule table. *)
Theorem run_analysis_without_substitutable_symbols (rand : nat → nat)
    (selected_row : ReferencePhrase) (speech_rules : list RuleEntry)
    (config : gmap string Q) (high : Q) :
  Forall (λ c, common_substitutions !! c = None)
    (strip (py "/") (expected_IPA selected_row)) →
  config !! "high_confidence" = Some high → (high <= 1)%Q →
  run_analysis rand selected_row speech_rules config
  = Some (Ok (mkResults (phrase selected_row) (expected_IPA selected_row)
                (py "/" ++ strip (py "/") (expected_IPA selected_row)
                 ++ py "/")
                [] 1%Q [] (py "High Confidence") (py "success"))).
Proof.
  intros Hnone Hhigh Hle. unfold run_analysis, simulate_audio_to_ipa.
  rewrite (error_loop_unchanged _ _ _ _ Hnone).
  rewrite compare_same_stripped.
  2:{ apply strip_wrap; [by repeat constructor..|apply strip_bare]. }
  cbn [mbind option_bind].
  unfold calculate_confidence_level, getitem. rewrite Hhigh.
  cbn [mbind result_bind Py.bind].
  rewrite (proj2 (ge_true 1 high) Hle). reflexivity.
Qed.

Lemma run_analysis_without_substitutable_symbols_witness :
  run_analysis (λ k, k + 3) mama_phrase fallback_speech_rules
    load_sensitivity_config
  = Some (Ok (mkResults (phrase mama_phrase) (expected_IPA mama_phrase)
                (py "/" ++ strip (py "/") (expected_IPA mama_phrase)
                 ++ py "/")
                [] 1%Q [] (py "High Confidence") (py "success"))).
Proof.
  apply (run_analysis_without_substitutable_symbols _ _ _ _
           (float_lit 0.85)).
  - exact mama_not_substitutable.
  - vm_compute. reflexivity.
  - vm_compute. discriminate.
Defined.

Section Csv.

Variable now : nat → str.
Variable percent : Q → str.

(** The export always has at least one row: one row per pattern, numbered
    from 1 in the order of the patterns and carrying that pattern's
    condition, description and severity, or, when there is no pattern, the
    single row numbered 0 that says so. *)
Theorem csv_rows_shape (results : AnalysisResults) (clinician_notes : str) :
  length (csv_rows now percent results clinician_notes)
  = Nat.max 1 (length (res_patterns results))
  ∧ (res_patterns results = [] →
     ∃ row, csv_rows now percent results clinician_notes = [row]
            ∧ csv_pattern_number row = 0
            ∧ csv_condition row = py "None detected")
  ∧ ∀ i pat, res_patterns results !! i = Some pat →
      ∃ row, csv_rows now percent results clinician_notes !! i = Some row
             ∧ csv_pattern_number row = i + 1
             ∧ csv_condition row = condition pat
             ∧ csv_pattern row = pattern pat
             ∧ csv_severity row = severity pat
             ∧ csv_clinician_notes row = clinician_notes.
Proof.
  unfold csv_rows.
  destruct (res_patterns results) as [|pat0 pats] eqn:E.
  - cbn [imap]. rewrite bool_decide_eq_true_2 by done.
    split; [done|]. split; [|intros i pat Hi; by rewrite lookup_nil in Hi].
    intros _. eexists. split; [reflexivity|]. done.
  - rewrite bool_decide_eq_false_2 by (cbn [imap]; discriminate).
    split; [rewrite length_imap; cbn [length]; lia|].
    split; [discriminate|].
    intros i pat Hi. eexists. split.
    + rewrite list_lookup_imap, Hi. reflexivity.
    + done.
Qed.

End Csv.

Lemma csv_rows_shape_witness :
  ∃ row,
    csv_rows (λ _, py "2024-01-01 00:00:00") (λ _, py "66.67%")
      (mkResults (py "cat") (py "/kæt/") (py "/tæt/")
         [mkDiff replace (py "k") (py "t") 0] (round64 (4 # 6))
         [fronting_pattern] (py "Moderate Confidence") (py "warning"))
      (py "seen at home") !! 0 = Some row
    ∧ csv_pattern_number row = 0 + 1
    ∧ csv_condition row = condition fronting_pattern
    ∧ csv_pattern row = pattern fronting_pattern
    ∧ csv_severity row = severity fronting_pattern
    ∧ csv_clinician_notes row = py "seen at home".
Proof.
  refine (proj2 (proj2 (csv_rows_shape _ _ _ _)) 0 fronting_pattern _).
  reflexivity.
Defined.

End Analysis.

(** ** The blocks found are matches *)

Section MatcherValid.

Variables a b : str.

Lemma b2j_get_elem (i j : nat) :
  j ∈ difflib.b2j_get a b i →
  ∃ c, a !! i = Some c ∧ b !! j = Some c.
Proof.
  intros Hj. destruct (a !! i) as [c|] eqn:Ea.
  - exists c. split; [done|].
    destruct (b2j_get_cases a b i c Ea) as [E|E]; rewrite E in Hj.
    + by apply elem_of_nil in Hj.
    + unfold occurrences in Hj. by apply list_elem_of_filter in Hj as [Hj _].
  - unfold difflib.b2j_get in Hj. rewrite Ea in Hj.
    by apply elem_of_nil in Hj.
Qed.

Lemma same_true (i j : nat) :
  difflib.same a b i j = true → ∃ c, a !! i = Some c ∧ b !! j = Some c.
Proof.
  unfold difflib.same.
  destruct (a !! i) as [x|], (b !! j) as [y|]; try done.
  intros H. apply bool_decide_eq_true in H. subst y. by exists x.
Qed.

Lemma match_at_0 (i j : nat) : match_at a b i j 0.
Proof. intros t Ht. lia. Qed.

Lemma match_at_snoc (i j k : nat) (c : char) :
  match_at a b i j k → a !! (i + k) = Some c → b !! (j + k) = Some c →
  match_at a b i j (k + 1).
Proof.
  intros Hm Ha Hb t Ht. destruct (decide (t = k)) as [->|Hne].
  - by exists c.
  - apply Hm. lia.
Qed.

Lemma match_at_cons (i j k : nat) (c : char) :
  match_at a b (S i) (S j) k → a !! i = Some c → b !! j = Some c →
  match_at a b i j (k + 1).
Proof.
  intros Hm Ha Hb [|t] Ht.
  - exists c. by rewrite !Nat.add_0_r.
  - destruct (Hm t) as (c' & H1 & H2); [lia|]. exists c'.
    by rewrite <- !Nat.add_succ_comm.
Qed.

Lemma match_at_app (i j k1 k2 : nat) :
  match_at a b i j k1 → match_at a b (i + k1) (j + k1) k2 →
  match_at a b i j (k1 + k2).
Proof.
  intros H1 H2 t Ht. destruct (decide (t < k1)) as [Hlt|Hge].
  - by apply H1.
  - destruct (H2 (t - k1)) as (c & Ha & Hb); [lia|]. exists c.
    replace (i + t) with (i + k1 + (t - k1)) by lia.
    by replace (j + t) with (j + k1 + (t - k1)) by lia.
Qed.

Lemma row_loop_valid (blo bhi i : nat) (j2len : gmap Z nat)
    (js : list nat) (newj2len : gmap Z nat) (best : difflib.Match) :
  j2len_valid a b i j2len →
  Forall (λ j, ∃ c, a !! i = Some c ∧ b !! j = Some c) js →
  j2len_valid a b (S i) newj2len →
  valid_match a b best →
  j2len_valid a b (S i)
    (difflib.row_loop blo bhi i j2len js newj2len best).1
  ∧ valid_match a b (difflib.row_loop blo bhi i j2len js newj2len best).2.
Proof.
  intros HL. revert newj2len best.
  induction js as [|j js IH]; intros newj2len best Hjs Hnew Hbest;
    cbn [difflib.row_loop]; [done|].
  apply Forall_cons in Hjs as [(c & Ha & Hb) Hjs].
  case_bool_decide as Hlo; [by apply IH|].
  case_bool_decide as Hhi; [done|].
  set (k := default 0 (j2len !! (Z.of_nat j - 1)%Z) + 1).
  assert (Hk : k ≤ S i ∧ k ≤ j + 1
               ∧ match_at a b (S i - k) (j + 1 - k) k).
  { subst k. destruct (j2len !! (Z.of_nat j - 1)%Z) as [v|] eqn:E;
      cbn [default from_option id].
    - destruct (HL _ _ E) as (j' & Hz & Hv1 & Hv2 & Hm).
      assert (j = S j') as -> by lia.
      split; [lia|]. split; [lia|].
      replace (S i - (v + 1)) with (i - v) by lia.
      replace (S j' + 1 - (v + 1)) with (j' + 1 - v) by lia.
      apply (match_at_snoc _ _ _ c); [exact Hm| |].
      + by replace (i - v + v) with i by lia.
      + by replace (j' + 1 - v + v) with (S j') by lia.
    - split; [lia|]. split; [lia|].
      replace (S i - (0 + 1)) with i by lia.
      replace (j + 1 - (0 + 1)) with j by lia.
      apply (match_at_snoc _ _ _ c); [apply match_at_0|..];
        by rewrite Nat.add_0_r. }
  destruct Hk as (Hk1 & Hk2 & Hkm).
  apply IH; [exact Hjs| |].
  - intros z v. rewrite lookup_insert.
    case_decide as Hz; [|apply Hnew].
    intros [= <-]. exists j. done.
  - case_bool_decide; [|done].
    unfold valid_match. cbn [fst snd].
    by replace (i + 1 - k) with (S i - k) by lia.
Qed.

Lemma rows_valid (blo bhi : nat) (n : nat) : ∀ i st,
  j2len_valid a b i st.1 → valid_match a b st.2 →
  valid_match a b (fold_left (difflib.row_step a b blo bhi) (seq i n) st).2.
Proof.
  induction n as [|n IH]; intros i st HL Hbest; cbn [seq fold_left];
    [done|].
  destruct (row_loop_valid blo bhi i st.1 (difflib.b2j_get a b i) ∅ st.2 HL)
    as [H1 H2]; [| |exact Hbest|].
  { apply Forall_forall. intros j Hj. by apply b2j_get_elem. }
  { intros z v Hz. by rewrite lookup_empty in Hz. }
  by apply IH.
Qed.

Lemma extend_left_valid (junk : bool) (alo blo besti : nat) :
  ∀ bestj bestsize,
    valid_match a b (besti, bestj, bestsize) →
    valid_match a b (difflib.extend_left a b junk alo blo besti bestj bestsize).
Proof.
  induction besti as [|i' IH]; intros bestj bestsize Hv; [done|].
  destruct bestj as [|j']; [done|].
  cbn [difflib.extend_left].
  destruct (_ && _) eqn:E; [|done].
  rewrite !andb_true_iff in E. destruct E as [_ Hs].
  apply same_true in Hs as (c & Ha & Hb).
  apply IH. unfold valid_match in *. cbn [fst snd] in *.
  by apply (match_at_cons _ _ _ c).
Qed.

Lemma extend_right_valid (junk : bool) (ahi bhi besti bestj n : nat) :
  ∀ bestsize,
    match_at a b besti bestj bestsize →
    match_at a b besti bestj
      (difflib.extend_right a b junk ahi bhi besti bestj n bestsize).
Proof.
  induction n as [|n IH]; intros bestsize Hv; cbn [difflib.extend_right];
    [done|].
  destruct (_ && _) eqn:E; [|done].
  rewrite !andb_true_iff in E. destruct E as [_ Hs].
  apply same_true in Hs as (c & Ha & Hb).
  apply IH. by apply (match_at_snoc _ _ _ c).
Qed.

Lemma extend_valid (junk : bool) (alo ahi blo bhi : nat)
    (m : difflib.Match) :
  valid_match a b m → valid_match a b (difflib.extend a b junk alo ahi blo bhi m).
Proof.
  intros Hv. unfold difflib.extend.
  destruct m as [[mi mj] mk].
  pose proof (extend_left_valid junk alo blo mi mj mk Hv) as Hl.
  cbn [fst snd].
  destruct (difflib.extend_left a b junk alo blo mi mj mk)
    as [[besti bestj] bestsize].
  unfold valid_match in *. cbn [fst snd] in *.
  by apply extend_right_valid.
Qed.

Lemma find_longest_match_valid (alo ahi blo bhi : nat) :
  valid_match a b (difflib.find_longest_match a b alo ahi blo bhi).
Proof.
  unfold difflib.find_longest_match.
  apply extend_valid, extend_valid, rows_valid.
  - intros z v Hz. cbn [fst] in Hz. by rewrite lookup_empty in Hz.
  - apply match_at_0.
Qed.

End MatcherValid.

(** ** The blocks found form a chain *)

Section MatcherChain.

Variables a b : str.

Lemma chain_start_mono (l : list difflib.Match) (i0 j0 i0' j0' i1 j1 : nat) :
  i0' ≤ i0 → j0' ≤ j0 →
  chain a b i0 j0 i1 j1 l → chain a b i0' j0' i1 j1 l.
Proof.
  intros Hi Hj. destruct l as [|[[i j] k] l]; cbn [chain].
  - lia.
  - intros (H1 & H2 & H3 & H4 & H5). repeat split; try done; lia.
Qed.

Lemma chain_end_mono (l : list difflib.Match) :
  ∀ i0 j0 i1 j1 i1' j1' : nat,
    i1 ≤ i1' → j1 ≤ j1' →
    chain a b i0 j0 i1 j1 l → chain a b i0 j0 i1' j1' l.
Proof.
  induction l as [|[[i j] k] l IH]; intros i0 j0 i1 j1 i1' j1' Hi Hj;
    cbn [chain].
  - lia.
  - intros (H1 & H2 & H3 & H4 & H5). repeat split; try done.
    by apply (IH _ _ i1 j1).
Qed.

Lemma chain_app (l1 l2 : list difflib.Match) :
  ∀ i0 j0 i j i1 j1 : nat,
    chain a b i0 j0 i j l1 → chain a b i j i1 j1 l2 →
    chain a b i0 j0 i1 j1 (l1 ++ l2).
Proof.
  induction l1 as [|[[i' j'] k'] l1 IH]; intros i0 j0 i j i1 j1;
    cbn [chain app].
  - intros [Hi Hj]. by apply chain_start_mono.
  - intros (H1 & H2 & H3 & H4 & H5) Hl2. repeat split; try done.
    by apply (IH _ _ i j).
Qed.

Lemma chain_ends (l : list difflib.Match) :
  ∀ i0 j0 i1 j1 : nat,
    chain a b i0 j0 i1 j1 l → i0 ≤ i1 ∧ j0 ≤ j1.
Proof.
  induction l as [|[[i j] k] l IH]; intros i0 j0 i1 j1; cbn [chain];
    [done|].
  intros (H1 & H2 & H3 & H4 & H5). apply IH in H5. lia.
Qed.

Lemma chain_starts (l : list difflib.Match) :
  ∀ i0 j0 i1 j1 : nat,
    chain a b i0 j0 i1 j1 l → Forall (λ m, i0 ≤ m.1.1) l.
Proof.
  induction l as [|[[i j] k] l IH]; intros i0 j0 i1 j1; cbn [chain];
    [done|].
  intros (H1 & H2 & H3 & H4 & H5). apply Forall_cons. split; [done|].
  apply IH in H5. eapply Forall_impl; [exact H5|].
  intros m Hm. cbn beta in Hm. lia.
Qed.

Lemma perm_blocks (acc l1 l2 rest res : list difflib.Match)
    (m : difflib.Match) :
  res ≡ₚ (acc ++ [m]) ++ l2 ++ l1 ++ rest →
  res ≡ₚ acc ++ (l1 ++ m :: l2) ++ rest.
Proof.
  intros ->. rewrite <- !app_assoc. apply Permutation_app_head.
  cbn [app]. rewrite <- Permutation_middle. apply Permutation_skip.
  rewrite !app_assoc. apply Permutation_app_tail, Permutation_app_comm.
Qed.

Lemma blocks_loop_blocks (fuel : nat) :
  ∀ (queue : list (nat * nat * nat * nat)) (acc res : list difflib.Match),
    difflib.blocks_loop a b fuel queue acc = Some res →
    ∃ ls, Forall2 (blocks_of a b) queue ls ∧ res ≡ₚ acc ++ concat ls.
Proof.
  induction fuel as [|fuel IH]; intros queue acc res;
    destruct queue as [|[[[alo ahi] blo] bhi] queue];
    cbn [difflib.blocks_loop]; try done.
  - intros [= <-]. exists []. split; [constructor|].
    cbn [concat]. by rewrite app_nil_r.
  - intros [= <-]. exists []. split; [constructor|].
    cbn [concat]. by rewrite app_nil_r.
  - destruct (difflib.find_longest_match a b alo ahi blo bhi)
      as [[i j] k] eqn:E.
    case_bool_decide as Hk.
    + intros Hres. apply IH in Hres as (ls & Hls & Hres).
      revert Hls. rewrite <- !bool_decide_and.
      destruct (decide (alo < i ∧ blo < j)) as [El|El];
        [rewrite (bool_decide_eq_true_2 _ El)
        |rewrite (bool_decide_eq_false_2 _ El)];
        (destruct (decide (i + k < ahi ∧ j + k < bhi)) as [Er|Er];
         [rewrite (bool_decide_eq_true_2 _ Er)
         |rewrite (bool_decide_eq_false_2 _ Er)]);
        intros Hls.
      * apply Forall2_cons_inv_l in Hls as (l2 & ls' & H2 & Hls & ->).
        apply Forall2_cons_inv_l in Hls as (l1 & ls & H1 & Hls & ->).
        exists ((l1 ++ (i, j, k) :: l2) :: ls). split.
        -- constructor; [|exact Hls].
           apply (blocks_of_some a b _ _ _ _ _ _ _ _ _ E Hk).
           ++ intros _. exact H1.
           ++ intros Hn. exfalso. lia.
           ++ intros _. exact H2.
           ++ intros Hn. exfalso. lia.
        -- cbn [concat] in *. by apply perm_blocks.
      * apply Forall2_cons_inv_l in Hls as (l1 & ls' & H1 & Hls & ->).
        exists ((l1 ++ (i, j, k) :: []) :: ls'). split.
        -- constructor; [|exact Hls].
           apply (blocks_of_some a b _ _ _ _ _ _ _ _ _ E Hk).
           ++ intros _. exact H1.
           ++ intros Hn. exfalso. lia.
           ++ intros Hn. exfalso. lia.
           ++ done.
        -- cbn [concat] in *.
           apply (perm_blocks acc l1 [] (concat ls') res (i, j, k)).
           exact Hres.
      * apply Forall2_cons_inv_l in Hls as (l2 & ls' & H2 & Hls & ->).
        exists (([] ++ (i, j, k) :: l2) :: ls'). split.
        -- constructor; [|exact Hls].
           apply (blocks_of_some a b _ _ _ _ _ _ _ _ _ E Hk).
           ++ intros Hn. exfalso. lia.
           ++ done.
           ++ intros _. exact H2.
           ++ intros Hn. exfalso. lia.
        -- cbn [concat] in *.
           apply (perm_blocks acc [] l2 (concat ls') res (i, j, k)).
           exact Hres.
      * exists (([] ++ (i, j, k) :: []) :: ls). split.
        -- constructor; [|exact Hls].
           apply (blocks_of_some a b _ _ _ _ _ _ _ _ _ E Hk).
           ++ intros Hn. exfalso. lia.
           ++ done.
           ++ intros Hn. exfalso. lia.
           ++ done.
        -- cbn [concat] in *.
           apply (perm_blocks acc [] [] (concat ls) res (i, j, k)).
           exact Hres.
    + intros Hres. apply IH in Hres as (ls & Hls & Hres).
      exists ([] :: ls). split; [|exact Hres].
      constructor; [|exact Hls].
      apply blocks_of_none. rewrite E. cbn [snd].
      destruct (decide (k = 0)) as [->|Hne]; [done|].
      by destruct Hk.
Qed.

Lemma blocks_of_chain (q : nat * nat * nat * nat)
    (l : list difflib.Match) :
  blocks_of a b q l → range_ok q →
  chain a b q.1.1.1 q.1.2 q.1.1.2 q.2 l.
Proof.
  induction 1 as [alo ahi blo bhi Hk
                 |alo ahi blo bhi i j k l1 l2 E Hk H1 IH1 Hn1 H2 IH2 Hn2];
    intros [Ha Hb]; cbn [fst snd] in *; [done|].
  pose proof (find_longest_match_range a b alo ahi blo bhi Ha Hb) as Hr.
  pose proof (find_longest_match_valid a b alo ahi blo bhi) as Hv.
  rewrite E in Hr, Hv. unfold in_range, valid_match in *.
  cbn [fst snd] in *.
  apply (chain_app _ _ _ _ i j).
  - destruct (decide (alo < i ∧ blo < j)) as [Hl|Hl].
    + apply IH1; [done|]. split; cbn [fst snd]; lia.
    + rewrite (Hn1 Hl). cbn [chain]. lia.
  - cbn [chain]. split; [done|]. split; [done|]. split; [lia|].
    split; [done|].
    destruct (decide (i + k < ahi ∧ j + k < bhi)) as [Hl|Hl].
    + apply IH2; [done|]. split; cbn [fst snd]; lia.
    + rewrite (Hn2 Hl). cbn [chain]. lia.
Qed.

Lemma Match_le_trans : Transitive difflib.Match_le.
Proof.
  intros [[i1 j1] k1] [[i2 j2] k2] [[i3 j3] k3].
  unfold difflib.Match_le. lia.
Qed.

Lemma Match_le_total : Total difflib.Match_le.
Proof.
  intros [[i1 j1] k1] [[i2 j2] k2]. unfold difflib.Match_le. lia.
Qed.

Lemma Match_le_antisymm : AntiSymm (=) difflib.Match_le.
Proof.
  intros [[i1 j1] k1] [[i2 j2] k2]. unfold difflib.Match_le.
  intros H1 H2. repeat f_equal; lia.
Qed.

Lemma chain_sorted (l : list difflib.Match) :
  ∀ i0 j0 i1 j1 : nat,
    chain a b i0 j0 i1 j1 l → StronglySorted difflib.Match_le l.
Proof.
  induction l as [|[[i j] k] l IH]; intros i0 j0 i1 j1; cbn [chain];
    [constructor|].
  intros (H1 & H2 & H3 & H4 & H5). constructor; [by eapply IH|].
  apply chain_starts in H5. eapply Forall_impl; [exact H5|].
  intros [[i' j'] k'] Hm. cbn [fst snd] in Hm.
  unfold difflib.Match_le. lia.
Qed.

Lemma sort_chain (raw l : list difflib.Match) (i0 j0 i1 j1 : nat) :
  chain a b i0 j0 i1 j1 l → raw ≡ₚ l →
  merge_sort difflib.Match_le raw = l.
Proof.
  intros Hc Hp.
  apply (@StronglySorted_unique _ difflib.Match_le Match_le_antisymm).
  - apply (@StronglySorted_merge_sort _ difflib.Match_le _
             Match_le_trans Match_le_total).
  - by eapply chain_sorted.
  - by rewrite merge_sort_Permutation.
Qed.

Lemma collapse_fold_chain (l : list difflib.Match) (ie je : nat) :
  ∀ (i1 j1 k1 : nat) (na : list difflib.Match),
    chain a b 0 0 i1 j1 na → match_at a b i1 j1 k1 →
    chain a b (i1 + k1) (j1 + k1) ie je l →
    ∀ (i' j' k' : nat) (na' : list difflib.Match),
      fold_left difflib.collapse_step l ((i1, j1, k1), na)
      = ((i', j', k'), na') →
      chain a b 0 0 ie je
        (if bool_decide (k' ≠ 0) then na' ++ [(i', j', k')] else na').
Proof.
  induction l as [|[[i2 j2] k2] l IH]; intros i1 j1 k1 na Hna Hm Hl
    i' j' k' na'; cbn [fold_left chain] in *.
  - intros [= <- <- <- <-]. case_bool_decide as Hk.
    + apply (chain_app _ _ _ _ i1 j1); [done|].
      cbn [chain]. repeat split; try done; lia.
    + apply (chain_end_mono _ _ _ i1 j1); [lia..|done].
  - destruct Hl as (H1 & H2 & H3 & H4 & H5).
    unfold difflib.collapse_step at 2.
    destruct (bool_decide (i1 + k1 = i2) && bool_decide (j1 + k1 = j2))
      eqn:E.
    + apply andb_true_iff in E as [Ei%bool_decide_eq_true
                                    Ej%bool_decide_eq_true].
      subst i2 j2. apply IH; [done| |].
      * by apply match_at_app.
      * by rewrite <- !Nat.add_assoc in H5.
    + clear E. apply IH; [|done|done].
      case_bool_decide as Hk.
      * apply (chain_app _ _ _ _ i1 j1); [done|].
        cbn [chain]. repeat split; try done; lia.
      * apply (chain_end_mono _ _ _ i1 j1); [lia..|done].
Qed.

(** The matching blocks are a chain of non-empty matches that ends with the
    sentinel [(len(a), len(b), 0)]. *)
Lemma get_matching_blocks_chain (blocks : list difflib.Match) :
  difflib.get_matching_blocks a b = Some blocks →
  ∃ l, blocks = l ++ [(length a, length b, 0)]
       ∧ chain a b 0 0 (length a) (length b) l.
Proof.
  unfold difflib.get_matching_blocks.
  destruct (difflib.blocks_loop a b _ _ _) as [raw|] eqn:E; [|done].
  cbn [mbind option_bind]. intros [= <-].
  apply blocks_loop_blocks in E as (ls & Hls & Hraw).
  apply Forall2_cons_inv_l in Hls as (l & ls' & Hl & Hls & ->).
  apply Forall2_nil_inv_l in Hls as ->.
  cbn [concat app] in Hraw. rewrite app_nil_r in Hraw.
  apply blocks_of_chain in Hl; [|split; cbn [fst snd]; lia].
  cbn [fst snd] in Hl.
  rewrite (sort_chain raw l _ _ _ _ Hl Hraw).
  unfold difflib.collapse.
  destruct (fold_left difflib.collapse_step l (0, 0, 0, []))
    as [[[i' j'] k'] na'] eqn:Ef.
  eexists. split; [reflexivity|].
  apply (collapse_fold_chain l (length a) (length b) 0 0 0 []);
    [cbn [chain]; lia|apply match_at_0|exact Hl|exact Ef].
Qed.

Lemma fold_opcode_step (l : list difflib.Match) :
  ∀ (i j : nat) (answer : list difflib.Opcode),
    (fold_left difflib.opcode_step l (i, j, answer)).2
    = answer ++ opcodes_from i j l.
Proof.
  induction l as [|[[ai bj] size] l IH]; intros i j answer;
    cbn [fold_left opcodes_from].
  - by rewrite app_nil_r.
  - unfold difflib.opcode_step at 2. rewrite IH. unfold gap_opcodes.
    repeat case_bool_decide; cbn [andb]; by rewrite <- ?app_assoc.
Qed.

Lemma get_opcodes_chain (opcodes : list difflib.Opcode) :
  difflib.get_opcodes a b = Some opcodes →
  ∃ l, chain a b 0 0 (length a) (length b) l
       ∧ opcodes = opcodes_from 0 0 (l ++ [(length a, length b, 0)]).
Proof.
  unfold difflib.get_opcodes.
  destruct (difflib.get_matching_blocks a b) as [blocks|] eqn:E; [|done].
  cbn [mbind option_bind]. intros [= <-].
  apply get_matching_blocks_chain in E as (l & -> & Hl).
  exists l. split; [done|]. by rewrite fold_opcode_step.
Qed.

End MatcherChain.

(** ** Applying the differences *)

Section Slices.

Lemma slice_nil (s : str) (i : nat) : slice s i i = [].
Proof. unfold slice. by rewrite Nat.sub_diag. Qed.

Lemma slice_app (s : str) (i j k : nat) :
  i ≤ j → j ≤ k → slice s i j ++ slice s j k = slice s i k.
Proof.
  intros Hij Hjk. unfold slice.
  replace (drop j s) with (drop (j - i) (drop i s))
    by (rewrite drop_drop; f_equal; lia).
  rewrite take_take_drop. f_equal. lia.
Qed.

Lemma slice_drop (s : str) (i j : nat) :
  i ≤ j → slice s i j ++ drop j s = drop i s.
Proof.
  intros Hij. unfold slice.
  rewrite <- (take_drop (j - i) (drop i s)) at 2.
  rewrite drop_drop. by replace (i + (j - i)) with j by lia.
Qed.

Lemma slice_end (s : str) (i : nat) : slice s i (length s) = drop i s.
Proof. unfold slice. apply take_ge. rewrite length_drop. lia. Qed.

Lemma slice_length (s : str) (i j : nat) :
  j ≤ length s → length (slice s i j) = j - i.
Proof. intros Hj. unfold slice. rewrite length_take, length_drop. lia. Qed.

Lemma slice_nonempty (s : str) (i j : nat) :
  i < j → j ≤ length s → slice s i j ≠ [].
Proof.
  intros Hij Hj E. apply (f_equal length) in E.
  rewrite slice_length in E by done. cbn [length] in E. lia.
Qed.

Lemma match_slice (a b : str) (i j k : nat) :
  match_at a b i j k → slice a i (i + k) = slice b j (j + k).
Proof.
  intros Hm. unfold slice. apply list_eq. intros t.
  replace (i + k - i) with k by lia. replace (j + k - j) with k by lia.
  destruct (decide (t < k)) as [Hlt|Hge].
  - rewrite !lookup_take_lt, !lookup_drop by done.
    destruct (Hm t Hlt) as (c & -> & ->). done.
  - by rewrite !lookup_take_ge by lia.
Qed.

Lemma match_at_length (a b : str) (i j k : nat) :
  match_at a b i j k → 0 < k → i + k ≤ length a ∧ j + k ≤ length b.
Proof.
  intros Hm Hk. destruct (Hm (k - 1)) as (c & Ha & Hb); [lia|].
  apply lookup_lt_Some in Ha, Hb. lia.
Qed.

End Slices.

Section RoundTrip.

Variables expected_str produced_str : str.

Lemma differences_of_app (ops1 ops2 : list difflib.Opcode) :
  differences_of expected_str produced_str (ops1 ++ ops2)
  = differences_of expected_str produced_str ops1
    ++ differences_of expected_str produced_str ops2.
Proof. unfold differences_of. apply omap_app. Qed.

Lemma differences_of_cons (i j ai bj k : nat) (l : list difflib.Match) :
  differences_of expected_str produced_str (opcodes_from i j ((ai, bj, k) :: l))
  = differences_of expected_str produced_str (gap_opcodes i ai j bj)
    ++ differences_of expected_str produced_str (opcodes_from (ai + k) (bj + k) l).
Proof.
  cbn [opcodes_from]. rewrite !differences_of_app. f_equal.
  case_bool_decide; [|done].
  unfold differences_of at 1. cbn [omap list_omap].
  case_bool_decide; [congruence|done].
Qed.

(** The gap before a block gives no difference, or one whose spans are
    the two sides of the gap. *)
Lemma gap_cases (i ai j bj : nat) :
  i ≤ ai → j ≤ bj →
  (differences_of expected_str produced_str (gap_opcodes i ai j bj) = []
   ∧ i = ai ∧ j = bj)
  ∨ ∃ tag,
      differences_of expected_str produced_str (gap_opcodes i ai j bj)
      = [mkDiff tag (slice expected_str i ai) (slice produced_str j bj) i]
      ∧ ((tag = replace ∧ i < ai ∧ j < bj)
         ∨ (tag = delete ∧ i < ai ∧ j = bj)
         ∨ (tag = insert ∧ i = ai ∧ j < bj)).
Proof.
  intros Hi Hj. unfold gap_opcodes.
  destruct (decide (i < ai)) as [Hia|Hia],
    (decide (j < bj)) as [Hjb|Hjb];
    rewrite ?(bool_decide_eq_true_2 _ Hia), ?(bool_decide_eq_false_2 _ Hia),
      ?(bool_decide_eq_true_2 _ Hjb), ?(bool_decide_eq_false_2 _ Hjb);
    cbn [andb].
  - right. exists replace. split; [reflexivity|]. left. done.
  - right. exists delete. split; [reflexivity|]. right. left.
    repeat split; [done|lia].
  - right. exists insert. split; [reflexivity|]. right. right.
    repeat split; [lia|done].
  - left. split; [reflexivity|lia].
Qed.

Lemma patch_gap (i ai j bj : nat) (rest : list Diff) :
  i ≤ ai → ai ≤ length expected_str → j ≤ bj →
  patch expected_str i
    (differences_of expected_str produced_str (gap_opcodes i ai j bj) ++ rest)
  = slice produced_str j bj ++ patch expected_str ai rest.
Proof.
  intros Hi Ha Hj.
  destruct (gap_cases i ai j bj Hi Hj) as [(-> & -> & ->)|(tag & -> & _)].
  - by rewrite slice_nil.
  - cbn [app patch position expected produced].
    rewrite slice_nil, slice_length by done. cbn [app].
    by replace (i + (ai - i)) with ai by lia.
Qed.

Lemma patch_split (c1 c2 : nat) (differences : list Diff) :
  c1 ≤ c2 → Forall (λ d, c2 ≤ position d) differences →
  patch expected_str c1 differences
  = slice expected_str c1 c2 ++ patch expected_str c2 differences.
Proof.
  intros Hc Hd. destruct differences as [|d differences]; cbn [patch].
  - by rewrite slice_drop.
  - apply Forall_cons in Hd as [Hd _].
    rewrite <- (slice_app expected_str c1 c2 (position d)) by done.
    by rewrite <- app_assoc.
Qed.

Lemma positions_gap (i ai j bj : nat) :
  i ≤ ai → ai ≤ length expected_str → j ≤ bj →
  Forall (λ d, position d = i ∧ position d + length (expected d) = ai)
    (differences_of expected_str produced_str (gap_opcodes i ai j bj)).
Proof.
  intros Hi Ha Hj.
  destruct (gap_cases i ai j bj Hi Hj) as [(-> & _)|(tag & -> & _)];
    [constructor|].
  constructor; [|constructor]. cbn [position expected].
  rewrite slice_length by done. lia.
Qed.

Lemma well_formed_gap (i ai j bj : nat) :
  i ≤ ai → ai ≤ length expected_str → j ≤ bj → bj ≤ length produced_str →
  Forall (well_formed expected_str)
    (differences_of expected_str produced_str (gap_opcodes i ai j bj)).
Proof.
  intros Hi Ha Hj Hb.
  destruct (gap_cases i ai j bj Hi Hj) as [(-> & _)|(tag & -> & Htag)];
    [constructor|].
  constructor; [|constructor]. unfold well_formed.
  cbn [type position expected produced].
  rewrite slice_length by done.
  replace (i + (ai - i)) with ai by lia.
  split; [|split; [done|lia]].
  destruct Htag as [(-> & H1 & H2)|[(-> & H1 & H2)|(-> & H1 & H2)]].
  - split; by apply slice_nonempty.
  - subst bj. split; [by apply slice_nonempty|apply slice_nil].
  - subst ai. split; [apply slice_nil|by apply slice_nonempty].
Qed.

Lemma gap_at_most_one (i ai j bj : nat) :
  i ≤ ai → j ≤ bj →
  StronglySorted
    (λ d d', position d + length (expected d) < position d')
    (differences_of expected_str produced_str (gap_opcodes i ai j bj)).
Proof.
  intros Hi Hj.
  destruct (gap_cases i ai j bj Hi Hj) as [(-> & _)|(tag & -> & _)];
    repeat constructor.
Qed.

Lemma positions_from (l : list difflib.Match) :
  ∀ i j : nat,
    chain expected_str produced_str i j (length expected_str)
      (length produced_str) l →
    Forall (λ d, i ≤ position d)
      (differences_of expected_str produced_str
         (opcodes_from i j
            (l ++ [(length expected_str, length produced_str, 0)]))).
Proof.
  induction l as [|[[ai bj] k] l IH]; intros i j; cbn [chain app];
    rewrite differences_of_cons.
  - intros [Hi Hj]. cbn [opcodes_from]. rewrite app_nil_r.
    eapply Forall_impl; [by apply positions_gap|].
    intros d [Hd _]. cbn beta. lia.
  - intros (H1 & H2 & H3 & H4 & H5).
    destruct (match_at_length _ _ _ _ _ H4 H3) as [Ha Hb].
    apply Forall_app. split.
    + eapply Forall_impl; [apply positions_gap; [done|lia|done]|].
      intros d [Hd _]. cbn beta. lia.
    + eapply Forall_impl; [by apply IH|].
      intros d Hd. cbn beta in *. lia.
Qed.

Lemma patch_from (l : list difflib.Match) :
  ∀ i j : nat,
    chain expected_str produced_str i j (length expected_str)
      (length produced_str) l →
    patch expected_str i
      (differences_of expected_str produced_str
         (opcodes_from i j
            (l ++ [(length expected_str, length produced_str, 0)])))
    = drop j produced_str.
Proof.
  induction l as [|[[ai bj] k] l IH]; intros i j; cbn [chain app];
    rewrite differences_of_cons.
  - intros [Hi Hj]. cbn [opcodes_from].
    rewrite patch_gap by done.
    change (differences_of expected_str produced_str []) with (@nil Diff).
    cbn [patch]. rewrite drop_all, app_nil_r. apply slice_end.
  - intros (H1 & H2 & H3 & H4 & H5).
    destruct (match_at_length _ _ _ _ _ H4 H3) as [Ha Hb].
    rewrite patch_gap by (done || lia).
    rewrite (patch_split ai (ai + k)); [|lia|by apply positions_from].
    rewrite (IH _ _ H5), (match_slice _ _ _ _ _ H4).
    rewrite slice_drop by lia. apply slice_drop. done.
Qed.

Lemma well_formed_from (l : list difflib.Match) :
  ∀ i j : nat,
    chain expected_str produced_str i j (length expected_str)
      (length produced_str) l →
    Forall (well_formed expected_str)
      (differences_of expected_str produced_str
         (opcodes_from i j
            (l ++ [(length expected_str, length produced_str, 0)]))).
Proof.
  induction l as [|[[ai bj] k] l IH]; intros i j; cbn [chain app];
    rewrite differences_of_cons.
  - intros [Hi Hj]. cbn [opcodes_from]. rewrite app_nil_r.
    by apply well_formed_gap.
  - intros (H1 & H2 & H3 & H4 & H5).
    destruct (match_at_length _ _ _ _ _ H4 H3) as [Ha Hb].
    apply Forall_app. split; [|by apply IH].
    apply well_formed_gap; (done || lia).
Qed.

Lemma ordered_from (l : list difflib.Match) :
  ∀ i j : nat,
    chain expected_str produced_str i j (length expected_str)
      (length produced_str) l →
    StronglySorted
      (λ d d', position d + length (expected d) < position d')
      (differences_of expected_str produced_str
         (opcodes_from i j
            (l ++ [(length expected_str, length produced_str, 0)]))).
Proof.
  induction l as [|[[ai bj] k] l IH]; intros i j; cbn [chain app];
    rewrite differences_of_cons.
  - intros [Hi Hj]. cbn [opcodes_from]. rewrite app_nil_r.
    by apply gap_at_most_one.
  - intros (H1 & H2 & H3 & H4 & H5).
    destruct (match_at_length _ _ _ _ _ H4 H3) as [Ha Hb].
    apply StronglySorted_app_2;
      [|by apply gap_at_most_one|by apply IH].
    intros d d' Hd Hd'.
    pose proof (positions_gap i ai j bj H1 ltac:(lia) H2) as Hg.
    rewrite Forall_forall in Hg. destruct (Hg d Hd) as [_ Hend].
    pose proof (positions_from l _ _ H5) as Hp.
    rewrite Forall_forall in Hp. specialize (Hp d' Hd'). cbn beta in Hp.
    lia.
Qed.

End RoundTrip.

(** What alignment returns: the differences read off a chain of matches
    between the two stripped strings. *)
Lemma compare_differences (produced_ipa expected_ipa : str) :
  ∃ l similarity,
    chain (strip (py "/") expected_ipa) (strip (py "/") produced_ipa) 0 0
      (length (strip (py "/") expected_ipa))
      (length (strip (py "/") produced_ipa)) l
    ∧ compare_ipa_transcriptions produced_ipa expected_ipa
      = Some
          (differences_of (strip (py "/") expected_ipa)
             (strip (py "/") produced_ipa)
             (opcodes_from 0 0
                (l ++ [(length (strip (py "/") expected_ipa),
                        length (strip (py "/") produced_ipa), 0)])),
           similarity).
Proof.
  destruct (compare_ipa_transcriptions_total produced_ipa expected_ipa)
    as (blocks & differences & Hb & Hc).
  unfold compare_ipa_transcriptions in *.
  destruct (difflib.get_opcodes _ _) as [opcodes|] eqn:E; [|done].
  apply get_opcodes_chain in E as (l & Hl & ->).
  cbn [mbind option_bind] in *.
  destruct (difflib.ratio _ _) as [similarity|]; [|done].
  exists l, similarity. done.
Qed.

(** Applying the differences to the expected transcription, left to
    right, gives the produced transcription: alignment loses nothing. *)
Theorem differences_rebuild_produced (produced_ipa expected_ipa : str) :
  ∃ differences similarity,
    compare_ipa_transcriptions produced_ipa expected_ipa
    = Some (differences, similarity)
    ∧ patch (strip (py "/") expected_ipa) 0 differences
      = strip (py "/") produced_ipa.
Proof.
  destruct (compare_differences produced_ipa expected_ipa)
    as (l & similarity & Hl & Hc).
  eexists _, similarity. split; [exact Hc|].
  by rewrite patch_from.
Qed.

(** Every difference returned is a replace, a delete or an insert whose
    empty spans are those of its tag (a delete always has a non-empty
    expected span, the one the classifier's guard asks for), and whose
    expected span is the text of the expected transcription at its
    position. *)
Theorem differences_well_formed (produced_ipa expected_ipa : str) :
  ∃ differences similarity,
    compare_ipa_transcriptions produced_ipa expected_ipa
    = Some (differences, similarity)
    ∧ Forall (well_formed (strip (py "/") expected_ipa)) differences.
Proof.
  destruct (compare_differences produced_ipa expected_ipa)
    as (l & similarity & Hl & Hc).
  eexists _, similarity. split; [exact Hc|].
  by apply well_formed_from.
Qed.

(** The differences come in increasing position and never touch: at
    least one matched symbol separates the expected span of one from the
    start of the next. *)
Theorem differences_ordered (produced_ipa expected_ipa : str) :
  ∃ differences similarity,
    compare_ipa_transcriptions produced_ipa expected_ipa
    = Some (differences, similarity)
    ∧ StronglySorted
        (λ d d', position d + length (expected d) < position d')
        differences.
Proof.
  destruct (compare_differences produced_ipa expected_ipa)
    as (l & similarity & Hl & Hc).
  eexists _, similarity. split; [exact Hc|].
  by apply ordered_from.
Qed.

(** ** Full similarity *)

Lemma round64_below_one (n t : Z) :
  (0 <= n < t)%Z -> (t < 2 ^ 53)%Z ->
  (round64 (inject_Z n / inject_Z t) < 1)%Q.
Proof.
  intros Hn Ht. unfold round64.
  assert (Hq : (Qred (inject_Z n / inject_Z t) * inject_Z t == inject_Z n)%Q).
  { rewrite Qred_correct, Qmult_comm. apply Qmult_div_r.
    intros E. unfold Qeq, inject_Z in E. cbn [Qnum Qden] in E. lia. }
  destruct (Qred (inject_Z n / inject_Z t)) as [qn qd].
  unfold Qeq, Qmult, inject_Z in Hq. cbn [Qnum Qden] in *.
  assert (Hrel : (qn * t = n * Z.pos qd)%Z) by lia.
  clear Hq.
  assert (Hn0 : (0 <= qn)%Z) by nia.
  assert (Hnd : (qn < Z.pos qd)%Z) by nia.
  rewrite (Z.abs_eq qn Hn0).
  destruct (qn =? 0)%Z eqn:En; [reflexivity|].
  apply Z.eqb_neq in En.
  assert (Hpos : (0 < qn)%Z) by lia.
  rewrite (Z.sgn_pos qn Hpos).
  set (e0 := (Z.log2 qn - Z.log2 (Z.pos qd))%Z).
  assert (He0 : (e0 <= 0)%Z).
  { subst e0. pose proof (Z.log2_le_mono qn (Z.pos qd)). lia. }
  set (below := if (0 <=? e0)%Z then _ else _).
  set (e := if below then (e0 - 1)%Z else e0).
  assert (He : (e <= -1)%Z).
  { destruct (Z.eq_dec e0 0%Z) as [E0|E0].
    - subst e below. rewrite E0. cbn [Z.leb Z.compare].
      rewrite Z.pow_0_r, Z.mul_1_r.
      replace (qn <? Z.pos qd)%Z with true by (symmetry; apply Z.ltb_lt; lia).
      lia.
    - subst e. destruct below; lia. }
  set (s := (52 - e)%Z).
  assert (Hs : (53 <= s)%Z) by (subst s; lia).
  rewrite (Z.max_l s 0) by lia.
  rewrite (Z.max_r (- s) 0) by lia.
  rewrite Z.pow_0_r, !Z.mul_1_r, Z.mul_1_l.
  set (p := (2 ^ s)%Z).
  assert (Hp : (2 ^ 53 <= p)%Z) by (subst p; apply Z.pow_le_mono_r; lia).
  set (m := (qn * p / Z.pos qd)%Z).
  set (r := ((qn * p) mod Z.pos qd)%Z).
  set (up := orb _ _).
  set (m' := if up then (m + 1)%Z else m).
  assert (Hm : (m < p - 1)%Z).
  { subst m. apply Z.div_lt_upper_bound; [lia|].
    assert (H1 : (Z.pos qd * t < Z.pos qd * ((t - n) * p))%Z).
    { apply Z.mul_lt_mono_pos_l; [lia|]. nia. }
    assert (H2 : (Z.pos qd * ((t - n) * p) = (Z.pos qd - qn) * p * t)%Z)
      by nia.
    rewrite H2 in H1. clear H2.
    assert (H3 : (Z.pos qd < (Z.pos qd - qn) * p)%Z) by nia.
    lia. }
  assert (Hm' : (m' < p)%Z) by (subst m'; destruct up; lia).
  clearbody m'. clear -Hm' Hp.
  rewrite (Qred_correct (inject_Z m' / inject_Z p)).
  apply Qlt_shift_div_r;
    [change (inject_Z 0 < inject_Z p)%Q; rewrite <- Zlt_Qlt; lia|].
  rewrite Qmult_1_l. rewrite <- Zlt_Qlt. lia.
Qed.

Lemma chain_matches (a b : str) (l : list difflib.Match) :
  ∀ i0 j0 i1 j1 : nat,
    chain a b i0 j0 i1 j1 l →
    i0 + difflib.matches l ≤ i1 ∧ j0 + difflib.matches l ≤ j1
    ∧ (i0 + difflib.matches l = i1 → j0 + difflib.matches l = j1 →
       match_at a b i0 j0 (difflib.matches l)).
Proof.
  induction l as [|[[i j] k] l IH]; intros i0 j0 i1 j1; cbn [chain].
  - change (difflib.matches []) with 0. intros [Hi Hj].
    repeat split; [lia..|]. intros _ _. apply match_at_0.
  - intros (H1 & H2 & H3 & H4 & H5). rewrite matches_cons. cbn [snd].
    destruct (IH _ _ _ _ H5) as (Hi & Hj & Hm).
    repeat split; [lia..|]. intros Ei Ej.
    assert (i = i0) as -> by lia. assert (j = j0) as -> by lia.
    apply match_at_app; [done|]. apply Hm; lia.
Qed.

Lemma match_at_all (a b : str) :
  length a = length b → match_at a b 0 0 (length a) → a = b.
Proof.
  intros Hl Hm. apply match_slice in Hm. cbn [Nat.add] in Hm.
  rewrite Hl in Hm at 2. by rewrite !slice_end, !drop_0 in Hm.
Qed.

(** As long as the two lengths together stay below 2^53, so that the
    quotient cannot round up to 1.0, the similarity is 1.0 exactly when
    the stripped transcriptions are the same string. *)
Theorem full_similarity_iff_identical (produced_ipa expected_ipa : str) :
  (Z.of_nat (length (strip (py "/") expected_ipa)
             + length (strip (py "/") produced_ipa)) < 2 ^ 53)%Z →
  snd <$> compare_ipa_transcriptions produced_ipa expected_ipa = Some 1%Q
  ↔ strip (py "/") produced_ipa = strip (py "/") expected_ipa.
Proof.
  intros Hlen. split; [|intros E; by rewrite compare_same_stripped].
  destruct (compare_ipa_transcriptions_total produced_ipa expected_ipa)
    as (blocks & differences & Hb & ->).
  set (e := strip (py "/") expected_ipa) in *.
  set (p := strip (py "/") produced_ipa) in *.
  apply get_matching_blocks_chain in Hb as (l & -> & Hl).
  rewrite matches_app, matches_cons.
  change (difflib.matches []) with 0.
  change (length e, length p, 0).2 with 0.
  rewrite !Nat.add_0_r.
  change (snd <$> Some (differences, ?x)) with (Some x).
  intros Hsim. apply (inj Some) in Hsim.
  destruct (chain_matches _ _ _ _ _ _ _ Hl) as (Hi & Hj & Hm).
  rewrite !Nat.add_0_l in Hi, Hj, Hm.
  assert (Hfull : 2 * difflib.matches l = length e + length p).
  { destruct (decide (2 * difflib.matches l = length e + length p))
      as [|Hne]; [done|exfalso].
    unfold difflib._calculate_ratio in Hsim.
    rewrite bool_decide_eq_true_2 in Hsim by lia.
    pose proof (round64_below_one (2 * Z.of_nat (difflib.matches l))
                  (Z.of_nat (length e + length p))
                  ltac:(lia) Hlen) as Hlt.
    rewrite Hsim in Hlt. by apply Qlt_irrefl in Hlt. }
  symmetry. apply match_at_all; [lia|].
  replace (length e) with (difflib.matches l) by lia.
  apply Hm; lia.
Qed.

Lemma full_similarity_iff_identical_witness :
  snd <$> compare_ipa_transcriptions (py "/tæt/") (py "/kæt/") = Some 1%Q
  ↔ strip (py "/") (py "/tæt/") = strip (py "/") (py "/kæt/").
Proof.
  apply (full_similarity_iff_identical (py "/tæt/") (py "/kæt/")).
  vm_compute. reflexivity.
Defined.

(** Alignment reports no difference exactly when the stripped
    transcriptions are the same string. *)
Theorem no_differences_iff_identical (produced_ipa expected_ipa : str) :
  fst <$> compare_ipa_transcriptions produced_ipa expected_ipa = Some []
  ↔ strip (py "/") produced_ipa = strip (py "/") expected_ipa.
Proof.
  split; [|intros E; by rewrite compare_same_stripped].
  destruct (compare_differences produced_ipa expected_ipa)
    as (l & similarity & Hl & ->).
  set (e := strip (py "/") expected_ipa) in *.
  set (p := strip (py "/") produced_ipa) in *.
  change (fst <$> Some (?x, similarity)) with (Some x).
  intros Hd. apply (inj Some) in Hd.
  pose proof (patch_from _ _ l 0 0 Hl) as Hp.
  rewrite Hd in Hp. cbn [patch] in Hp. by rewrite !drop_0 in Hp.
Qed.

(** ** Similarity and the order of the arguments *)

(** On a quotient in the unit interval the rounding moves the value by at
    most 2^-54. *)
Lemma round64_near (n t : Z) :
  (0 <= n <= t)%Z -> (0 < t)%Z ->
  exists m' p : Z,
    (0 < p)%Z
    /\ (round64 (inject_Z n / inject_Z t) == inject_Z m' / inject_Z p)%Q
    /\ (2 ^ 54 * Z.abs (m' * t - n * p) <= p * t)%Z.
Proof.
  intros Hn Ht.
  destruct (Z.eq_dec n 0%Z) as [->|Hn0].
  { exists 0%Z, 1%Z. split; [lia|]. split; [|lia].
    assert (E : (inject_Z 0 / inject_Z t == 0)%Q)
      by (unfold Qdiv; apply Qmult_0_l).
    rewrite (round64_Qeq _ _ E). reflexivity. }
  destruct (Z.eq_dec n t) as [->|Hnt].
  { exists 1%Z, 1%Z. split; [lia|]. split; [|lia].
    assert (E : (inject_Z t / inject_Z t == 1)%Q).
    { apply Qmult_inv_r. unfold Qeq, inject_Z; cbn [Qnum Qden]. lia. }
    rewrite (round64_Qeq _ _ E). reflexivity. }
  unfold round64.
  assert (Hq : (Qred (inject_Z n / inject_Z t) * inject_Z t == inject_Z n)%Q).
  { rewrite Qred_correct, Qmult_comm. apply Qmult_div_r.
    intros E. unfold Qeq, inject_Z in E. cbn [Qnum Qden] in E. lia. }
  destruct (Qred (inject_Z n / inject_Z t)) as [qn qd].
  unfold Qeq, Qmult, inject_Z in Hq. cbn [Qnum Qden] in *.
  assert (Hrel : (qn * t = n * Z.pos qd)%Z) by lia.
  clear Hq.
  assert (Hpos : (0 < qn)%Z) by nia.
  assert (Hnd : (qn < Z.pos qd)%Z) by nia.
  rewrite (Z.abs_eq qn) by lia.
  destruct (qn =? 0)%Z eqn:En; [apply Z.eqb_eq in En; lia|]. clear En.
  rewrite (Z.sgn_pos qn Hpos).
  set (e0 := (Z.log2 qn - Z.log2 (Z.pos qd))%Z).
  assert (He0 : (e0 <= 0)%Z).
  { subst e0. pose proof (Z.log2_le_mono qn (Z.pos qd)). lia. }
  set (below := if (0 <=? e0)%Z then _ else _).
  set (e := if below then (e0 - 1)%Z else e0).
  assert (He : (e <= -1)%Z).
  { destruct (Z.eq_dec e0 0%Z) as [E0|E0].
    - subst e below. rewrite E0. cbn [Z.leb Z.compare].
      rewrite Z.pow_0_r, Z.mul_1_r.
      replace (qn <? Z.pos qd)%Z with true by (symmetry; apply Z.ltb_lt; lia).
      lia.
    - subst e. destruct below; lia. }
  set (s := (52 - e)%Z).
  assert (Hs : (53 <= s)%Z) by (subst s; lia).
  rewrite (Z.max_l s 0) by lia.
  rewrite (Z.max_r (- s) 0) by lia.
  rewrite Z.pow_0_r, !Z.mul_1_r, Z.mul_1_l.
  set (p := (2 ^ s)%Z).
  assert (Hp : (2 ^ 53 <= p)%Z) by (subst p; apply Z.pow_le_mono_r; lia).
  set (m := (qn * p / Z.pos qd)%Z).
  set (r := ((qn * p) mod Z.pos qd)%Z).
  set (up := orb _ _).
  set (m' := if up then (m + 1)%Z else m).
  exists m', p. split; [lia|]. split; [apply Qred_correct|].
  assert (Hdiv : (qn * p = Z.pos qd * m + r)%Z)
    by (subst m r; apply Z.div_mod; lia).
  assert (Hr : (0 <= r < Z.pos qd)%Z)
    by (subst r; apply Z.mod_pos_bound; lia).
  assert (Herr : (2 * Z.abs (m' * Z.pos qd - qn * p) <= Z.pos qd)%Z).
  { subst m' up.
    destruct (Z.pos qd <? 2 * r)%Z eqn:E1; cbn [orb].
    - apply Z.ltb_lt in E1. lia.
    - apply Z.ltb_ge in E1.
      destruct (Z.pos qd =? 2 * r)%Z eqn:E2; cbn [andb]; [|lia].
      apply Z.eqb_eq in E2. destruct (Z.odd m); lia. }
  clearbody m' p. clear -Herr Hrel Hp Hn Ht.
  assert (H1 : (Z.abs (m' * t - n * p) * Z.pos qd
                = t * Z.abs (m' * Z.pos qd - qn * p))%Z).
  { rewrite <- (Z.abs_eq (Z.pos qd)) at 1 by lia.
    rewrite <- (Z.abs_eq t) at 2 by lia.
    rewrite <- !Z.abs_mul. f_equal. nia. }
  assert (H2 : (2 * Z.abs (m' * t - n * p) <= t)%Z) by nia.
  nia.
Qed.

Lemma round64_inj (n1 n2 t : Z) :
  (0 <= n1 <= t)%Z -> (0 <= n2 <= t)%Z -> (0 < t)%Z -> (t < 2 ^ 53)%Z ->
  (round64 (inject_Z n1 / inject_Z t) == round64 (inject_Z n2 / inject_Z t))%Q ->
  n1 = n2.
Proof.
  intros H1 H2 Ht Hb E.
  destruct (round64_near n1 t H1 Ht) as (m1 & p1 & Hp1 & E1 & B1).
  destruct (round64_near n2 t H2 Ht) as (m2 & p2 & Hp2 & E2 & B2).
  rewrite E1, E2 in E.
  assert (Em : (m1 * p2 = m2 * p1)%Z).
  { unfold Qeq, Qdiv, Qmult, Qinv, inject_Z in E.
    destruct p1 as [|p1|p1]; try lia. destruct p2 as [|p2|p2]; try lia.
    cbn [Qnum Qden] in E. lia. }
  clear E E1 E2.
  assert (A1 : (2 ^ 54 * Z.abs (m1 * p2 * t - n1 * p1 * p2) <= p1 * p2 * t)%Z).
  { replace (m1 * p2 * t - n1 * p1 * p2)%Z with ((m1 * t - n1 * p1) * p2)%Z by ring.
    rewrite Z.abs_mul, (Z.abs_eq p2) by lia. nia. }
  assert (A2 : (2 ^ 54 * Z.abs (m2 * p1 * t - n2 * p1 * p2) <= p1 * p2 * t)%Z).
  { replace (m2 * p1 * t - n2 * p1 * p2)%Z with ((m2 * t - n2 * p2) * p1)%Z by ring.
    rewrite Z.abs_mul, (Z.abs_eq p1) by lia. nia. }
  rewrite Em in A1.
  assert (A3 : (2 ^ 54 * Z.abs ((n1 - n2) * (p1 * p2)) <= 2 * (p1 * p2 * t))%Z) by lia.
  rewrite Z.abs_mul, (Z.abs_eq (p1 * p2)) in A3 by nia.
  assert (Hpp : (0 < p1 * p2)%Z) by nia.
  assert (A4 : (2 ^ 53 * Z.abs (n1 - n2) <= t)%Z) by nia.
  lia.
Qed.

Lemma chain_disjoint (a b : str) (l : list difflib.Match)
    (i0 j0 i1 j1 : nat) :
  (∀ c, c ∈ a → c ∉ b) → chain a b i0 j0 i1 j1 l → l = [].
Proof.
  intros Hd. destruct l as [|[[i j] k] l]; [done|]. cbn [chain].
  intros (_ & _ & Hk & Hm & _). exfalso.
  destruct (Hm 0 Hk) as (c & Ha & Hb).
  apply list_elem_of_lookup_2 in Ha, Hb. by apply (Hd c).
Qed.

Lemma matches_disjoint (a b : str) (blocks : list difflib.Match) :
  (∀ c, c ∈ a → c ∉ b) →
  difflib.get_matching_blocks a b = Some blocks →
  difflib.matches blocks = 0.
Proof.
  intros Hd Hb. apply get_matching_blocks_chain in Hb as (l & -> & Hl).
  by rewrite (chain_disjoint _ _ _ _ _ _ _ Hd Hl).
Qed.

(** C6, amended. For every pair of strings both directions of the
    alignment return a similarity: 1.0 if both stripped strings are empty,
    and otherwise the binary64 quotient of twice the number of characters
    matched in that direction by the sum of the two lengths; the matched
    number is at most the shorter length.  With a total length below 2^53
    the two similarities are equal exactly when the two directions match
    the same number of characters, which is the case when the stripped
    strings are equal, when one of them is empty, and when they share no
    symbol. *)
Theorem C6_similarity_same_matches (A B : str) :
  ∃ blocksAB blocksBA,
    difflib.get_matching_blocks (strip (py "/") A) (strip (py "/") B)
    = Some blocksAB
    ∧ difflib.get_matching_blocks (strip (py "/") B) (strip (py "/") A)
      = Some blocksBA
    ∧ difflib.matches blocksAB
      ≤ Nat.min (length (strip (py "/") A)) (length (strip (py "/") B))
    ∧ difflib.matches blocksBA
      ≤ Nat.min (length (strip (py "/") A)) (length (strip (py "/") B))
    ∧ snd <$> compare_ipa_transcriptions B A
      = Some
          (if bool_decide
                (length (strip (py "/") A) + length (strip (py "/") B) ≠ 0)
           then round64
                  (inject_Z (2 * Z.of_nat (difflib.matches blocksAB))
                   / inject_Z
                       (Z.of_nat (length (strip (py "/") A)
                                  + length (strip (py "/") B))))
           else 1%Q)
    ∧ snd <$> compare_ipa_transcriptions A B
      = Some
          (if bool_decide
                (length (strip (py "/") A) + length (strip (py "/") B) ≠ 0)
           then round64
                  (inject_Z (2 * Z.of_nat (difflib.matches blocksBA))
                   / inject_Z
                       (Z.of_nat (length (strip (py "/") A)
                                  + length (strip (py "/") B))))
           else 1%Q)
    ∧ (difflib.matches blocksAB = difflib.matches blocksBA →
       snd <$> compare_ipa_transcriptions B A
       = snd <$> compare_ipa_transcriptions A B)
    ∧ ((Z.of_nat (length (strip (py "/") A) + length (strip (py "/") B))
        < 2 ^ 53)%Z →
       snd <$> compare_ipa_transcriptions B A
       = snd <$> compare_ipa_transcriptions A B →
       difflib.matches blocksAB = difflib.matches blocksBA)
    ∧ (strip (py "/") A = strip (py "/") B
       ∨ strip (py "/") A = [] ∨ strip (py "/") B = []
       ∨ (∀ c, c ∈ strip (py "/") A → c ∉ strip (py "/") B) →
       difflib.matches blocksAB = difflib.matches blocksBA).
Proof.
  destruct (compare_ipa_transcriptions_total B A)
    as (blocksAB & dAB & HAB & EAB).
  destruct (compare_ipa_transcriptions_total A B)
    as (blocksBA & dBA & HBA & EBA).
  exists blocksAB, blocksBA.
  rewrite EAB, EBA. clear EAB EBA.
  set (a := strip (py "/") A) in *. set (b := strip (py "/") B) in *.
  change (snd <$> Some (dAB, ?x)) with (Some x).
  change (snd <$> Some (dBA, ?x)) with (Some x).
  rewrite (Nat.add_comm (length b) (length a)).
  pose proof (get_matching_blocks_matches a b blocksAB HAB) as MAB.
  pose proof (get_matching_blocks_matches b a blocksBA HBA) as MBA.
  rewrite (Nat.min_comm (length b)) in MBA.
  unfold difflib._calculate_ratio.
  split; [exact HAB|]. split; [exact HBA|].
  split; [exact MAB|]. split; [exact MBA|].
  split; [reflexivity|]. split; [reflexivity|].
  split; [by intros ->|].
  split.
  - intros Hlen Hsim. apply (inj Some) in Hsim.
    case_bool_decide as Hne; [|lia].
    assert (E : (2 * Z.of_nat (difflib.matches blocksAB)
                 = 2 * Z.of_nat (difflib.matches blocksBA))%Z).
    { apply (round64_inj _ _ (Z.of_nat (length a + length b)));
        [lia..|]. by rewrite Hsim. }
    lia.
  - intros [Eab|[Ea|[Eb|Hd]]].
    + rewrite <- Eab in HAB, HBA. rewrite HAB in HBA.
      by apply (inj Some) in HBA as ->.
    + rewrite Ea in MAB, MBA. cbn [length] in MAB, MBA. lia.
    + rewrite Eb in MAB, MBA. cbn [length] in MAB, MBA. lia.
    + rewrite (matches_disjoint a b blocksAB Hd HAB).
      rewrite (matches_disjoint b a blocksBA); [done| |exact HBA].
      intros c Hb Ha. by apply (Hd c).
Qed.

Lemma C6_similarity_same_matches_witness :
  snd <$> compare_ipa_transcriptions (py "/tæt/") (py "/kæt/")
  = snd <$> compare_ipa_transcriptions (py "/kæt/") (py "/tæt/").
Proof.
  destruct (C6_similarity_same_matches (py "/kæt/") (py "/tæt/"))
    as (blocksAB & blocksBA & HAB & HBA & _ & _ & _ & _ & H & _).
  apply H.
  assert (EAB : difflib.get_matching_blocks (strip (py "/") (py "/kæt/"))
                  (strip (py "/") (py "/tæt/"))
                = Some [(1, 1, 2); (3, 3, 0)])
    by (vm_compute; reflexivity).
  assert (EBA : difflib.get_matching_blocks (strip (py "/") (py "/tæt/"))
                  (strip (py "/") (py "/kæt/"))
                = Some [(1, 1, 2); (3, 3, 0)])
    by (vm_compute; reflexivity).
  rewrite EAB in HAB. rewrite EBA in HBA.
  injection HAB as <-. injection HBA as <-. reflexivity.
Defined.
